(** * McQuic: quantizer and entropy-coder core

    A shallow embedding of [mcquic/modules/entropyCoder.py] and of the
    codebook/level logic of [mcquic/modules/quantizer.py], with the
    properties of the specification proved over it.

    Conventions of the embedding.
    - Real-valued tensors (frequency EMA, codebooks) hold exact rationals
      [Q]; the source computes in float32, so results that depend on float
      rounding are outside the model.  [Q] division by zero yields [0]
      (IEEE gives NaN/inf); this only matters for an all-zero histogram
      row, which the statements on [Freq] leave out.  Of real-valued
      results the statements assert what rounding keeps: shapes, ranges,
      orders and the formulas of the code itself.
    - Tensors of rank 4 and 5 (codes, one-hot assignments, features) are
      flat row-major records ([shape], [data]), as a contiguous torch
      tensor is stored.
    - Matrices [m, k] and codebooks [m, k, d] are nested lists, since the
      source iterates over their rows.
    - A Python exception is a [Raise] result.
    - The rANS extension module ([mcquic.rans]), [torch.argsort],
      [torch.randperm] and [Consts.Eps] are not part of the sources; they
      are parameters of the definitions that call them.  The CDF quantizer
      of the extension is also given a model that follows the
      specification, and the coder, the sort and the permutation a
      reference instance each. *)

From Stdlib Require Import Strings.String Strings.Byte.
From Stdlib Require Import List ZArith QArith Qround Lia Lqa Bool Arith.
From Stdlib Require Import Permutation Sorted.
Import ListNotations.
Close Scope Q_scope.

Set Implicit Arguments.

(* ================================================================== *)
(** * Results and exceptions *)
(* ================================================================== *)

Inductive result (A : Type) : Type :=
| Ok (a : A)
| Raise (msg : string).
Arguments Ok {A} a.
Arguments Raise {A} msg%_string.

Definition bind {A B : Type} (r : result A) (f : A -> result B) : result B :=
  match r with
  | Ok a => f a
  | Raise msg => Raise msg
  end.

Notation "x <- c1 ;; c2" := (bind c1 (fun x => c2))
  (at level 61, c1 at next level, right associativity).

(* ================================================================== *)
(** * Tensors *)
(* ================================================================== *)

Abbreviation bytes := (list byte).

(** A contiguous tensor: its shape and its elements in row-major order. *)
Record Tensor (A : Type) : Type := mkTensor {
  shape : list nat;
  data : list A
}.

Definition numel (shp : list nat) : nat := fold_right Nat.mul 1%nat shp.

Definition wf_tensor {A : Type} (t : Tensor A) : Prop :=
  length (data t) = numel (shape t).

(** [shape[i]], an [IndexError] when the rank is too small. *)
Definition dim {A : Type} (t : Tensor A) (i : nat) : result nat :=
  match nth_error (shape t) i with
  | Some n => Ok n
  | None => Raise "tuple index out of range"
  end.

(** Iterating over a tensor walks its first dimension: the [i]-th item is
    the [i]-th block of [numel rest] elements, of shape [rest]. *)
Definition unbind {A : Type} (t : Tensor A) : list (Tensor A) :=
  match shape t with
  | [] => []
  | n :: rest =>
      map (fun i => mkTensor rest
                      (firstn (numel rest) (skipn (i * numel rest) (data t))))
          (seq 0 n)
  end.

(** [torch.tensor(l).reshape(shp)]. *)
Definition reshape {A : Type} (l : list A) (shp : list nat) : result (Tensor A) :=
  if length l =? numel shp then Ok (mkTensor shp l)
  else Raise "shape is invalid for input size".

Definition shape_eqb (s1 s2 : list nat) : bool :=
  if list_eq_dec Nat.eq_dec s1 s2 then true else false.

(** [torch.stack(ts, 0)]: a non-empty list of equally shaped tensors. *)
Definition stack {A : Type} (ts : list (Tensor A)) : result (Tensor A) :=
  match ts with
  | [] => Raise "stack expects a non-empty TensorList"
  | t0 :: _ =>
      if forallb (fun t => shape_eqb (shape t) (shape t0)) ts
      then Ok (mkTensor (length ts :: shape t0) (concat (map (@data A) ts)))
      else Raise "stack expects each tensor to be equal size"
  end.

(** [torch.arange(m)[:, None, None].expand(m', h, w).flatten().tolist()]:
    the group index of every symbol in row-major (group, height, width)
    order.  A size-1 source dimension broadcasts; other mismatches raise. *)
Definition expand_indices (m m' h w : nat) : result (list Z) :=
  if m =? m' then
    Ok (concat (map (fun g => repeat (Z.of_nat g) (h * w)) (seq 0 m)))
  else if m =? 1 then Ok (repeat 0%Z (m' * (h * w)))
  else Raise "The expanded size of the tensor must match the existing size".

(** [l[i] = l[i] + [x]] on a list of lists ([compressed[i].append(x)]). *)
Fixpoint append_at {A : Type} (ls : list (list A)) (i : nat) (x : A)
  : result (list (list A)) :=
  match ls, i with
  | [], _ => Raise "list index out of range"
  | l :: rest, O => Ok ((l ++ [x]) :: rest)
  | l :: rest, S i' => rest' <- append_at rest i' x ;; Ok (l :: rest')
  end.

(** [enumerate]. *)
Definition enumerate {A : Type} (l : list A) : list (nat * A) :=
  combine (seq 0 (length l)) l.

(** A [for] loop whose body may raise. *)
Fixpoint foldM {A S : Type} (f : S -> A -> result S) (l : list A) (s : S)
  : result S :=
  match l with
  | [] => Ok s
  | a :: rest => s' <- f s a ;; foldM f rest s'
  end.

(* ================================================================== *)
(** * Rational helpers *)
(* ================================================================== *)

Definition Qsum (l : list Q) : Q := fold_right Qplus 0%Q l.
Definition Zsum (l : list Z) : Z := fold_right Z.add 0%Z l.

Definition Qltb (a b : Q) : bool := negb (Qle_bool b a).

(** [torch.round]: to the nearest integer, ties to the even one. *)
Definition round_half_even (q : Q) : Z :=
  let f := Qfloor q in
  let r := (q - inject_Z f)%Q in
  if Qltb r (1 # 2)%Q then f
  else if Qltb (1 # 2)%Q r then (f + 1)%Z
  else if Z.even f then f else (f + 1)%Z.

(** Running (inclusive) partial sums. *)
Fixpoint cumsum_from (acc : Q) (l : list Q) : list Q :=
  match l with
  | [] => []
  | p :: rest => (acc + p)%Q :: cumsum_from (acc + p)%Q rest
  end.

Definition cumsum (l : list Q) : list Q := cumsum_from 0%Q l.

Abbreviation Matrix A := (list (list A)).

Definition mat_shape {A : Type} (a : Matrix A) : list nat := map (@length A) a.

Fixpoint map2 {A B C : Type} (f : A -> B -> C) (l1 : list A) (l2 : list B)
  : list C :=
  match l1, l2 with
  | a :: r1, b :: r2 => f a b :: map2 f r1 r2
  | _, _ => []
  end.

Definition mat_add (a b : Matrix Q) : Matrix Q := map2 (map2 Qplus) a b.
Definition mat_scale (c : Q) (a : Matrix Q) : Matrix Q :=
  map (map (Qmult c)) a.

(** [l[i]] and [l[i] = x] on Python lists. *)
Definition getitem {A : Type} (l : list A) (i : nat) : result A :=
  match nth_error l i with
  | Some a => Ok a
  | None => Raise "list index out of range"
  end.

Fixpoint setitem {A : Type} (l : list A) (i : nat) (x : A) : list A :=
  match l, i with
  | [], _ => []
  | _ :: rest, O => x :: rest
  | a :: rest, S i' => a :: setitem rest i' x
  end.

(* ================================================================== *)
(** * [mcquic/modules/entropyCoder.py] *)
(* ================================================================== *)

(** [mcquic.utils.specification.CodeSize]: a plain data carrier. *)
Record CodeSize : Type := mkCodeSize {
  cs_m : nat;
  cs_heights : list nat;
  cs_widths : list nat;
  cs_k : list nat
}.

(** The mutable fields of an [EntropyCoder] instance. *)
Record EntropyCoder : Type := mkEntropyCoder {
  _freqEMA : list (Matrix Q);
  _k : list nat;
  _decay : Q;
  cdfs : option (list (list (list Z)));
  freq : option (list (Matrix Z));
  needUpdate : bool
}.

(** [EntropyCoder.__init__]. *)
Definition init (m : nat) (k : list nat) (ema : Q) : EntropyCoder :=
  {| _freqEMA := map (fun ki => repeat (repeat 1%Q ki) m) k;
     _k := k;
     _decay := (1 - ema)%Q;
     cdfs := None;
     freq := None;
     needUpdate := true |}.

(** Element [ni, mi, hi, wi, ki] of a contiguous [n, m, h, w, k] tensor. *)
Definition entry5 (t : Tensor Q) (m h w k : nat) (ni mi hi wi ki : nat) : Q :=
  nth ((((ni * m + mi) * h + hi) * w + wi) * k + ki) (data t) 0%Q.

(** [code.sum((0, 2, 3))] of a one-hot tensor [n, m, h, w, k]: an [m, k]
    matrix of counts. *)
Definition sum023 (t : Tensor Q) : result (Matrix Q) :=
  match shape t with
  | [n; m; h; w; k] =>
      Ok (map (fun mi =>
            map (fun ki =>
              Qsum (map (fun ni =>
                Qsum (map (fun hi =>
                  Qsum (map (fun wi => entry5 t m h w k ni mi hi wi ki)
                            (seq 0 w)))
                  (seq 0 h)))
                (seq 0 n)))
              (seq 0 k))
            (seq 0 m))
  | _ => Raise "Dimension out of range"
  end.

(** [dist.all_reduce(totalCount)]: the element-wise sum of this worker's
    tensor and those contributed by the other workers. *)
Definition all_reduce (local : Matrix Q) (peers : list (Matrix Q)) : Matrix Q :=
  fold_left mat_add peers local.

(** [self._decay * totalCount + (1 - self._decay) * self._freqEMA[lv]]. *)
Definition emaUpdate (decay : Q) (totalCount old : Matrix Q) : Matrix Q :=
  mat_add (mat_scale decay totalCount) (mat_scale (1 - decay)%Q old).

(** The body of the loop of [forward]: the update of level [lv].
    Operand shapes that differ (torch would broadcast or raise) are
    rejected. *)
Definition forwardLevel (decay : Q) (peers : list (list (Matrix Q)))
    (freqEMA : list (Matrix Q)) (it : nat * Tensor Q)
  : result (list (Matrix Q)) :=
  let (lv, code) := it in
  local <- sum023 code ;;
  let totalCount := all_reduce local (nth lv peers []) in
  old <- getitem freqEMA lv ;;
  if shape_eqb (mat_shape totalCount) (mat_shape old) then
    Ok (setitem freqEMA lv (emaUpdate decay totalCount old))
  else Raise "The size of tensor a must match the size of tensor b".

(** [EntropyCoder.forward].  [peers] holds, per level, the count matrices
    contributed by the other workers to the all-reduce. *)
Definition forward (self : EntropyCoder) (oneHotCodes : list (Tensor Q))
    (peers : list (list (Matrix Q))) : result EntropyCoder :=
  freqEMA' <- foldM (forwardLevel (_decay self) peers)
                    (enumerate oneHotCodes) (_freqEMA self) ;;
  Ok {| _freqEMA := freqEMA';
        _k := _k self;
        _decay := _decay self;
        cdfs := cdfs self;
        freq := freq self;
        needUpdate := true |}.

(** The guard shared by the two cached properties:
    [cache is not None and not self.needUpdate]. *)
Definition cache_hit {A : Type} (cache : option A) (dirty : bool) : option A :=
  match cache with
  | Some c => if negb dirty then Some c else None
  | None => None
  end.

(** [(freqEMA / freqEMA.sum(-1, keepdim=True) * 65536).round().long()] on
    one row.  For a row of total zero the source divides zero by zero and
    casts NaN to an integer; here the quotient is [0]. *)
Definition normalize16 (row : list Q) : list Z :=
  let s := Qsum row in
  map (fun e => round_half_even (e / s * 65536)%Q) row.

(** [EntropyCoder.Freq]. *)
Definition Freq (self : EntropyCoder) : list (Matrix Z) * EntropyCoder :=
  match cache_hit (freq self) (needUpdate self) with
  | Some f => (f, self)
  | None =>
      let f := map (map normalize16) (_freqEMA self) in
      (f, {| _freqEMA := _freqEMA self;
             _k := _k self;
             _decay := _decay self;
             cdfs := cdfs self;
             freq := Some f;
             needUpdate := needUpdate self |})
  end.

(** The probability vector handed to the CDF quantizer for one group. *)
Definition probOfGroup (freqAtM : list Z) : list Q :=
  let total := Zsum freqAtM in
  if (total <? 1)%Z then
    map (fun _ => (1 / inject_Z (Z.of_nat (length freqAtM)))%Q) freqAtM
  else
    map (fun f => (inject_Z f / inject_Z total)%Q) freqAtM.

Section EntropyCoderOps.

(** The functions of the compiled [mcquic.rans] module. *)
Variable pmfToQuantizedCDF : list Q -> Z -> list Z.
Variable encodeWithIndexes :
  list Z -> list Z -> list (list Z) -> list Z -> list Z -> bytes.
Variable decodeWithIndexes :
  bytes -> list Z -> list (list Z) -> list Z -> list Z -> list Z.

(** The tables built by the body of [EntropyCoder.CDFs]. *)
Definition buildCDFs (freqs : list (Matrix Z)) : list (list (list Z)) :=
  map (map (fun freqAtM => pmfToQuantizedCDF (probOfGroup freqAtM) 16)) freqs.

(** [EntropyCoder.CDFs]. *)
Definition CDFs (self : EntropyCoder)
  : list (list (list Z)) * EntropyCoder :=
  match cache_hit (cdfs self) (needUpdate self) with
  | Some c => (c, self)
  | None =>
      let (f, self1) := Freq self in
      let c := buildCDFs f in
      (c, {| _freqEMA := _freqEMA self1;
             _k := _k self1;
             _decay := _decay self1;
             cdfs := Some c;
             freq := freq self1;
             needUpdate := needUpdate self1 |})
  end.

Definition info : string :=
  "Please give codes with correct shape, for example, [[1, 2, 24, 24], [1, 2, 12, 12], ...], which is a `level` length list. each code has shape [n, m, h, w]. ".

(** The body of the loop of [_checkShape]. *)
Definition checkBody (n m : nat) (_ : unit) (code : Tensor Z)
  : result unit :=
  newN <- dim code 0 ;;
  newM <- dim code 1 ;;
  if n <? 1 then Raise (info ++ "Now `n` = 0.")
  else if negb (m =? newM)
  then Raise (info ++ "Now `m` is inconsisitent.")
  else if negb (n =? newN)
  then Raise (info ++ "Now `n` is inconsisitent.")
  else Ok tt.

(** [EntropyCoder._checkShape]. *)
Definition _checkShape (codes : list (Tensor Z)) : result (nat * nat) :=
  match codes with
  | [] => Raise "Length of codes is 0."
  | c0 :: _ =>
      n <- dim c0 0 ;;
      m <- dim c0 1 ;;
      _ <- foldM (checkBody n m) codes tt ;;
      Ok (n, m)
  end.

(** The binary of one image of one level, as the inner loop of
    [compress] computes it. *)
Definition encodeImage (m ki : nat) (cdf : list (list Z))
    (codePerImage : Tensor Z) : result bytes :=
  match shape codePerImage with
  | [m'; h; w] =>
      idx <- expand_indices m m' h w ;;
      let cdfSizes := repeat (Z.of_nat ki + 2)%Z m in
      let offsets := repeat 0%Z (length (data codePerImage)) in
      Ok (encodeWithIndexes (data codePerImage) idx cdf cdfSizes offsets)
  | _ => Raise "expand_as: shape mismatch"
  end.

(** The body of the inner loop of [compress]: one image of one level. *)
Definition compressImage (m ki : nat) (cdf : list (list Z))
    (compressed : list (list bytes)) (it : nat * Tensor Z)
  : result (list (list bytes)) :=
  let (i, codePerImage) := it in
  binary <- encodeImage m ki cdf codePerImage ;;
  append_at compressed i binary.

(** The body of the outer loop of [compress]: one level. *)
Definition compressLevel (m : nat)
    (acc : list (list bytes) * list nat * list nat)
    (it : Tensor Z * (nat * list (list Z)))
  : result (list (list bytes) * list nat * list nat) :=
  let '(compressed, heights, widths) := acc in
  let '(code, (ki, cdf)) := it in
  match shape code with
  | [_; _; h; w] =>
      compressed' <- foldM (compressImage m ki cdf)
                           (enumerate (unbind code)) compressed ;;
      Ok (compressed', heights ++ [h], widths ++ [w])
  | _ => Raise "not enough values to unpack"
  end.

(** [EntropyCoder.compress]. *)
Definition compress (self : EntropyCoder) (codes : list (Tensor Z))
  : result (list (list bytes) * list CodeSize) * EntropyCoder :=
  match _checkShape codes with
  | Raise msg => (Raise msg, self)
  | Ok (n, m) =>
      let compressed := repeat (@nil bytes) n in
      let (tables, self') := CDFs self in
      (r <- foldM (compressLevel m)
                  (combine codes (combine (_k self) tables))
                  (compressed, [], []) ;;
       let '(compressed', heights, widths) := r in
       Ok (compressed',
           repeat (mkCodeSize m heights widths (_k self)) n),
       self')
  end.

(** The code tensor restored from one binary, as the inner loop of
    [decompress] computes it. *)
Definition decodeImage (m : nat) (codeSize : CodeSize)
    (item : bytes * (list (list Z) * (nat * (nat * nat))))
  : result (Tensor Z) :=
  let '(binaryAtLv, (cdf, (ki, (h, w)))) := item in
  idx <- expand_indices m (cs_m codeSize) h w ;;
  let cdfSizes := repeat (Z.of_nat ki + 2)%Z (cs_m codeSize) in
  let offsets := repeat 0%Z (numel [cs_m codeSize; h; w]) in
  let restored :=
    decodeWithIndexes binaryAtLv idx cdf cdfSizes offsets in
  reshape restored [cs_m codeSize; h; w].

(** The body of the inner loop of [decompress]: one level of one image. *)
Definition decompressLevel (m : nat) (codeSize : CodeSize)
    (codes : list (list (Tensor Z)))
    (it : nat * (bytes * (list (list Z) * (nat * (nat * nat)))))
  : result (list (list (Tensor Z))) :=
  let (lv, item) := it in
  code <- decodeImage m codeSize item ;;
  append_at codes lv code.

(** The outer loop of [decompress]; [self.CDFs] is read once per image. *)
Fixpoint decompressLoop (m : nat) (self : EntropyCoder)
    (items : list (list bytes * CodeSize)) (codes : list (list (Tensor Z)))
  : result (list (list (Tensor Z))) * EntropyCoder :=
  match items with
  | [] => (Ok codes, self)
  | (binary, codeSize) :: rest =>
      let (tables, self') := CDFs self in
      match foldM (decompressLevel m codeSize)
                  (enumerate
                     (combine binary
                        (combine tables
                           (combine (_k self)
                              (combine (cs_heights codeSize)
                                       (cs_widths codeSize))))))
                  codes with
      | Ok codes' => decompressLoop m self' rest codes'
      | Raise msg => (Raise msg, self')
      end
  end.

(** [[f(c) for c in l]] where [f] may raise. *)
Fixpoint mapM {A B : Type} (f : A -> result B) (l : list A)
  : result (list B) :=
  match l with
  | [] => Ok []
  | a :: rest => b <- f a ;; bs <- mapM f rest ;; Ok (b :: bs)
  end.

(** [EntropyCoder.decompress]. *)
Definition decompress (self : EntropyCoder) (binaries : list (list bytes))
    (codeSizes : list CodeSize)
  : result (list (Tensor Z)) * EntropyCoder :=
  match binaries, codeSizes with
  | b0 :: _, cs0 :: _ =>
      let lv := length b0 in
      let m := cs_m cs0 in
      let codes := repeat (@nil (Tensor Z)) lv in
      let (r, self') :=
        decompressLoop m self (combine binaries codeSizes) codes in
      (codes' <- r ;; mapM (@stack Z) codes', self')
  | _, _ => (Raise "list index out of range", self)
  end.

End EntropyCoderOps.

(* ================================================================== *)
(** * [mcquic/modules/quantizer.py]: codebook reassignment *)
(* ================================================================== *)

Definition count_true (l : list bool) : nat := length (filter (fun b => b) l).

(** Boolean-mask assignment [dest[loc] = src]: the items of [src] go, in
    order, to the positions where [loc] is true. *)
Fixpoint masked_assign {A : Type} (dest : list A) (loc : list bool)
    (src : list A) : list A :=
  match dest, loc with
  | d :: dest', b :: loc' =>
      if b then
        match src with
        | s :: src' => s :: masked_assign dest' loc' src'
        | [] => d :: masked_assign dest' loc' []
        end
      else d :: masked_assign dest' loc' src
  | _, _ => dest
  end.

(** Index assignment [mask[idx] = v]. *)
Definition index_fill {A : Type} (mask : list A) (idx : list nat) (v : A)
  : list A :=
  fold_left (fun acc i => setitem acc i v) idx mask.

(** Row gather [group[idx]]. *)
Definition gather {A : Type} (group : list (list A)) (idx : list nat)
  : list (list A) :=
  map (fun i => nth i group []) idx.

Section Reassignment.

(** [Consts.Eps], the near-zero usage threshold. *)
Variable Eps : Q.
(** [torch.argsort(., descending=True)]. *)
Variable argsort : list Q -> list nat.

Definition neverAssigned (freqGroup : list Q) : list bool :=
  map (fun f => Qltb f Eps) freqGroup.

(** The usage vector after the random protection step (the body of
    [if totalNeverAssigned > self._k // 2]); [perm] is the drawn
    [torch.randperm(len(mask))]. *)
Definition protect (k : nat) (perm : list nat) (freqGroup : list Q)
  : list Q :=
  let neverAssignedLoc := neverAssigned freqGroup in
  let totalNeverAssigned := count_true neverAssignedLoc in
  let mask := repeat 0%Q totalNeverAssigned in
  let maskIdx := skipn (k / 2) perm in
  let mask := index_fill mask maskIdx (-1)%Q in
  masked_assign freqGroup neverAssignedLoc mask.

(** [(freqGroup < Consts.Eps) * (freqGroup > (-Consts.Eps))] for one
    entry. *)
Definition inBand (f : Q) : bool := Qltb f Eps && Qltb (- Eps)%Q f.

(** Usage vector and replacement mask in force when the sort happens. *)
Definition selectSlots (k : nat) (randperm : nat -> list nat)
    (freqGroup : list Q) : list Q * list bool :=
  let neverAssignedLoc := neverAssigned freqGroup in
  let totalNeverAssigned := count_true neverAssignedLoc in
  if k / 2 <? totalNeverAssigned then
    let freqGroup' := protect k (randperm totalNeverAssigned) freqGroup in
    (freqGroup',
     map inBand freqGroup')
  else (freqGroup, neverAssignedLoc).

(** One iteration of the loop over groups: the new rows of group [m]. *)
Definition reassignGroup (k : nat) (randperm : nat -> list nat)
    (codebookGroup : Matrix Q) (freqGroup : list Q) (target : Matrix Q)
  : Matrix Q :=
  let (freqGroup', neverAssignedLoc) := selectSlots k randperm freqGroup in
  let totalNeverAssigned := count_true neverAssignedLoc in
  let argIdx := argsort freqGroup' in
  let mostAssigned := gather codebookGroup argIdx in
  masked_assign target neverAssignedLoc
                (firstn totalNeverAssigned mostAssigned).

(** [((a - b) ** 2).sum(-1) > 1e-4] for one entry. *)
Definition entryMoved (new old : list Q) : bool :=
  Qltb (1 # 10000)%Q
       (Qsum (map2 (fun a b => ((a - b) * (a - b))%Q) new old)).

(** [_multiCodebookQuantization.reAssignCodebook]: the [m * k] flags and
    the codebook afterwards.  [k] is [self._k]; [randperm m] is the
    permutation drawn while group [m] is processed. *)
Definition reAssignCodebook (k : nat) (randperm : nat -> nat -> list nat)
    (_codebook : list (Matrix Q)) (freqs : Matrix Q)
  : list bool * list (Matrix Q) :=
  let codebook :=
    fold_left
      (fun codebook (it : nat * (Matrix Q * list Q)) =>
         let '(m, (codebookGroup, freqGroup)) := it in
         setitem codebook m
           (reassignGroup k (randperm m) codebookGroup freqGroup
                          (nth m codebook [])))
      (enumerate (combine _codebook freqs)) _codebook in
  let diff := map2 (map2 entryMoved) codebook _codebook in
  (concat diff, codebook).

(** [torch.cat(reassigned).float().mean()]. *)
Definition meanOfFlags (flags : list bool) : Q :=
  (inject_Z (Z.of_nat (count_true flags))
   / inject_Z (Z.of_nat (length flags)))%Q.

(** [UMGMQuantizer.reAssignCodebook] over the levels' codebooks (paired
    with their [self._k]); [freqs] is what [self.NormalizedFreq] yields,
    [randperm lv m] the draw for group [m] of level [lv]. *)
Definition UMGM_reAssignCodebook (randperm : nat -> nat -> nat -> list nat)
    (encoders : list (nat * list (Matrix Q))) (freqs : list (Matrix Q))
  : Q * list (nat * list (Matrix Q)) :=
  let results :=
    map (fun (it : nat * ((nat * list (Matrix Q)) * Matrix Q)) =>
           let '(lv, ((k, cb), f)) := it in
           (k, reAssignCodebook k (randperm lv) cb f))
        (enumerate (combine encoders freqs)) in
  let reassigned := map (fun r => fst (snd r)) results in
  let updated := map (fun r => (fst r, snd (snd r))) results in
  (meanOfFlags (concat reassigned),
   updated ++ skipn (length updated) encoders).

End Reassignment.

(* ================================================================== *)
(** * [mcquic/modules/quantizer.py]: multi-level decoding *)
(* ================================================================== *)

(** [a + b] on feature tensors of equal shape. *)
Definition tadd (a b : Tensor Q) : result (Tensor Q) :=
  if shape_eqb (shape a) (shape b)
  then Ok (mkTensor (shape a) (map2 Qplus (data a) (data b)))
  else Raise "The size of tensor a must match the size of tensor b".

(** Python indexing of a list: negative indices count from the end. *)
Definition pyindex {A : Type} (l : list A) (i : Z) : result A :=
  let len := Z.of_nat (length l) in
  if ((0 <=? i) && (i <? len))%Z then getitem l (Z.to_nat i)
  else if ((- len <=? i) && (i <? 0))%Z then getitem l (Z.to_nat (len + i))
  else Raise "index out of range".

(** [_multiCodebookDeQuantization.decode]: channel [mi * d + di] of the
    output at [ni, hi, wi] is component [di] of the codebook entry that
    [code[ni, mi, hi, wi]] selects in group [mi].  The group index
    [self._ix] is expanded to the shape of the code, so a codebook of a
    single group serves every group of the code. *)
Definition dequantize (_codebook : list (Matrix Q)) (code : Tensor Z)
  : result (Tensor Q) :=
  match shape code with
  | [n; m; h; w] =>
      if (m =? length _codebook) || (length _codebook =? 1) then
        let d := length (nth 0 (nth 0 _codebook []) []) in
        let groupOf := fun mi => if length _codebook =? 1 then 0 else mi in
        cells <-
          mapM (fun (ix : nat * nat * nat * nat) =>
                  let '(ni, c, hi, wi) := ix in
                  let mi := c / d in
                  let di := c mod d in
                  let sym :=
                    nth (((ni * m + mi) * h + hi) * w + wi) (data code) 0%Z in
                  entry <- pyindex (nth (groupOf mi) _codebook []) sym ;;
                  Ok (nth di entry 0%Q))
               (flat_map (fun ni =>
                  flat_map (fun c =>
                    flat_map (fun hi =>
                      map (fun wi => (ni, c, hi, wi)) (seq 0 w))
                      (seq 0 h))
                    (seq 0 (m * d)))
                  (seq 0 n)) ;;
        Ok (mkTensor [n; m * d; h; w] cells)
      else Raise "The expanded size of the tensor must match the existing size"
  | _ => Raise "not enough values to unpack"
  end.

(** [_quantizerDecoder]: its codebook and its three head networks (the
    networks are opaque functions on feature tensors). *)
Record QuantizerDecoder : Type := mkQuantizerDecoder {
  qd_codebook : list (Matrix Q);
  _dequantizationHead : Tensor Q -> Tensor Q;
  _sideHead : option (Tensor Q -> Tensor Q);
  _restoreHead : Tensor Q -> Tensor Q
}.

(** [_quantizerDecoder.decode].  A side head applied to [None] raises. *)
Definition qd_decode (self : QuantizerDecoder) (code : Tensor Z)
    (formerLevel : option (Tensor Q)) : result (Tensor Q) :=
  dq <- dequantize (qd_codebook self) code ;;
  let q := _dequantizationHead self dq in
  match _sideHead self with
  | Some sideHead =>
      match formerLevel with
      | Some former =>
          xHat <- tadd q (sideHead former) ;;
          Ok (_restoreHead self xHat)
      | None => Raise "sideHead called on None"
      end
  | None => Ok (_restoreHead self q)
  end.

(** [UMGMQuantizer.decode]. *)
Definition UMGM_decode (_decoders : list QuantizerDecoder)
    (codes : list (Tensor Z)) : result (option (Tensor Q)) :=
  foldM (fun formerLevel (it : QuantizerDecoder * Tensor Z) =>
           let (decoder, code) := it in
           r <- qd_decode decoder code formerLevel ;;
           Ok (Some r))
        (combine (rev _decoders) (rev codes)) None.

(** One level of a [ResidualBackwardQuantizer]: its restore network and
    the codebook of its dequantizer. *)
Record BackwardLevel : Type := mkBackwardLevel {
  bl_decoder : Tensor Q -> Tensor Q;
  bl_codebook : list (Matrix Q)
}.

(** [ResidualBackwardQuantizer.decode]; [levels] pairs [self._decoders]
    with [self._dequantizers]. *)
Definition RB_decode (levels : list BackwardLevel) (codes : list (Tensor Z))
  : result (option (Tensor Q)) :=
  foldM (fun formerLevel (it : BackwardLevel * Tensor Z) =>
           let (level, code) := it in
           quantized <- dequantize (bl_codebook level) code ;;
           match formerLevel with
           | None => Ok (Some (bl_decoder level quantized))
           | Some former =>
               s <- tadd quantized former ;;
               Ok (Some (bl_decoder level s))
           end)
        (combine (rev levels) codes) None.

(* ================================================================== *)
(** * The CDF quantizer of the [mcquic.rans] extension *)
(* ================================================================== *)

(** Modelled from the spec: [pmfToQuantizedCDF] lives in the compiled
    [mcquic.rans] extension (built from third_party/CompressAI), which is
    not among the sources.  The specification describes its result as "a
    monotonically non-decreasing integer array of length K+2 scaled to 2^16
    total mass; entry i encodes cumulative probability through symbol i
    (plus two sentinel bounds)": a leading sentinel [0], the [K] cumulative
    probabilities scaled by [2 ^ precision] and truncated to integers, and a
    trailing sentinel [2 ^ precision]. *)
Definition pmfToQuantizedCDF (pmf : list Q) (precision : Z) : list Z :=
  0%Z :: map (fun c => Qfloor (c * inject_Z (2 ^ precision))%Q) (cumsum pmf)
      ++ [(2 ^ precision)%Z].

(* ================================================================== *)
(** * Reference instances of the external functions *)
(* ================================================================== *)

(** Index [i] may precede index [j] in a descending ranking of [v]. *)
Definition above (v : list Q) (i j : nat) : Prop :=
  (nth j v 0 <= nth i v 0)%Q.

(** A descending insertion sort on indices, one admissible behaviour of
    [torch.argsort(., descending=True)]. *)
Fixpoint insert_desc (v : list Q) (i : nat) (sorted : list nat) : list nat :=
  match sorted with
  | [] => [i]
  | j :: rest =>
      if Qle_bool (nth j v 0%Q) (nth i v 0%Q) then i :: j :: rest
      else j :: insert_desc v i rest
  end.

Definition argsort_desc (v : list Q) : list nat :=
  fold_right (insert_desc v) [] (seq 0 (length v)).

(** A byte-level coder that ignores the probability model: every symbol
    [s >= 0] is written as [s] bytes [x01] closed by one byte [x00]. *)
Definition unary_encode (symbols _idx : list Z) (_cdf : list (list Z))
    (_sizes _offsets : list Z) : bytes :=
  flat_map (fun s => repeat x01 (Z.to_nat s) ++ [x00]) symbols.

Fixpoint unary_decode_from (run : Z) (b : bytes) : list Z :=
  match b with
  | [] => []
  | x00 :: rest => run :: unary_decode_from 0%Z rest
  | _ :: rest => unary_decode_from (run + 1)%Z rest
  end.

Definition unary_decode (b : bytes) (_idx : list Z) (_cdf : list (list Z))
    (_sizes _offsets : list Z) : list Z :=
  unary_decode_from 0%Z b.

(* ================================================================== *)
(** * Reachable coder states *)
(* ================================================================== *)

Definition nonneg_tensor (t : Tensor Q) : Prop :=
  Forall (fun e => (0 <= e)%Q) (data t).

Definition nonneg_matrix (a : Matrix Q) : Prop :=
  Forall (Forall (fun e => (0 <= e)%Q)) a.

(** The states an [EntropyCoder(m, k, ema)] with [0 <= ema <= 1] goes
    through: construction, frequency updates with non-negative counts, and
    reads of the two cached properties ([compress] and [decompress] touch
    the state only by reading [CDFs]). *)
Inductive reachable (pmf : list Q -> Z -> list Z) (m : nat) (k : list nat)
  : EntropyCoder -> Prop :=
| reach_init (ema : Q) :
    (0 <= ema)%Q -> (ema <= 1)%Q -> reachable pmf m k (init m k ema)
| reach_forward (self self' : EntropyCoder) (oneHotCodes : list (Tensor Q))
    (peers : list (list (Matrix Q))) :
    reachable pmf m k self ->
    Forall nonneg_tensor oneHotCodes ->
    Forall (Forall nonneg_matrix) peers ->
    forward self oneHotCodes peers = Ok self' ->
    reachable pmf m k self'
| reach_Freq (self : EntropyCoder) :
    reachable pmf m k self -> reachable pmf m k (snd (Freq self))
| reach_CDFs (self : EntropyCoder) :
    reachable pmf m k self -> reachable pmf m k (snd (CDFs pmf self)).

(* ================================================================== *)
(** * Predicates used by the statements *)
(* ================================================================== *)

(** What [compress] refuses: no level at all, a first level with an empty
    batch, or a level whose batch size or group count is not that of the
    first level. *)
Definition malformed (codes : list (Tensor Z)) : Prop :=
  match codes with
  | [] => True
  | c0 :: _ =>
      dim c0 0 = Ok 0 \/
      Exists (fun c => dim c 0 <> dim c0 0 \/ dim c 1 <> dim c0 1) codes
  end.


(** The count of entry [ki] of group [mi] in one worker's one-hot tensor
    [n, m, h, w, k]: the sum over images and positions. *)
Definition localCount (code : Tensor Q) (mi ki : nat) : Q :=
  match shape code with
  | [n; m; h; w; k] =>
      Qsum (map (fun ni =>
        Qsum (map (fun hi =>
          Qsum (map (fun wi => entry5 code m h w k ni mi hi wi ki)
                    (seq 0 w)))
          (seq 0 h)))
        (seq 0 n))
  | _ => 0%Q
  end.

(** The batch count of an entry summed across all workers. *)
Definition batchCount (code : Tensor Q) (peers : list (Matrix Q))
    (mi ki : nat) : Q :=
  (localCount code mi ki
   + Qsum (map (fun p => nth ki (nth mi p []) 0%Q) peers))%Q.

Definition entryOf (freqEMA : list (Matrix Q)) (lv mi ki : nat) : Q :=
  nth ki (nth mi (nth lv freqEMA []) []) 0%Q.

(** Inputs of [forward] whose shapes fit the tracker: no more levels than
    the tracker has, each one-hot tensor [n, m, h, w, k] over a histogram
    [m, k], and count matrices of the peers of that same shape. *)
Definition forward_input_ok (self : EntropyCoder)
    (oneHotCodes : list (Tensor Q)) (peers : list (list (Matrix Q))) : Prop :=
  length oneHotCodes <= length (_freqEMA self) /\
  forall lv code,
    nth_error oneHotCodes lv = Some code ->
    exists n m h w k,
      shape code = [n; m; h; w; k] /\
      mat_shape (nth lv (_freqEMA self) []) = repeat k m /\
      Forall (fun p => mat_shape p = repeat k m) (nth lv peers []).

(** What holds of every reachable coder state. *)
Definition coder_inv (m : nat) (k : list nat) (self : EntropyCoder) : Prop :=
  _k self = k /\
  needUpdate self = true /\
  Forall2 (fun F ki => mat_shape F = repeat ki m) (_freqEMA self) k /\
  Forall nonneg_matrix (_freqEMA self) /\
  (0 <= _decay self)%Q /\ (_decay self <= 1)%Q.

(** Appending one item to each row: what a loop of
    [rows[i].append(col[i])] computes. *)
Definition appendCol {A : Type} (rows : list (list A)) (col : list A)
  : list (list A) :=
  map2 (fun r x => r ++ [x]) rows col.

(** The precondition of the entropy coder, as the specification words it:
    symbols with a parallel sequence of group indices, one alphabet size
    per CDF table, each symbol within the [size - 2] symbols of its group,
    and zero offsets. *)
Definition coder_input_ok (symbols idx : list Z) (cdf : list (list Z))
    (cdfSizes offsets : list Z) : Prop :=
  length cdfSizes = length cdf /\
  offsets = repeat 0%Z (length symbols) /\
  Forall2 (fun s g =>
             (0 <= g < Z.of_nat (length cdf))%Z /\
             (0 <= s < nth (Z.to_nat g) cdfSizes 0 - 2)%Z)
          symbols idx.

(** A level's code tensor that [compress] can take: [n, m, h, w] for some
    [h] and [w], stored contiguously, every value in [[0, K)]. *)
Definition code_ok (n m : nat) (code : Tensor Z) (K : nat) : Prop :=
  (exists h w, shape code = [n; m; h; w]) /\
  wf_tensor code /\
  Forall (fun s => (0 <= s < Z.of_nat K)%Z) (data code).

(** The binaries of all images of one level; a level is a code tensor with
    its alphabet size and its CDF tables. *)
Definition levelBinaries
    (enc : list Z -> list Z -> list (list Z) -> list Z -> list Z -> bytes)
    (m : nat) (lvl : Tensor Z * (nat * list (list Z))) : list bytes :=
  match mapM (encodeImage enc m (fst (snd lvl)) (snd (snd lvl)))
             (unbind (fst lvl)) with
  | Ok E => E
  | Raise _ => []
  end.

Definition heightOf (code : Tensor Z) : nat := nth 2 (shape code) 0.
Definition widthOf (code : Tensor Z) : nat := nth 3 (shape code) 0.

(** A level whose code tensor fits the coder and whose tables cover the
    [m] groups. *)
Definition level_ok (n m : nat) (lvl : Tensor Z * (nat * list (list Z)))
  : Prop :=
  code_ok n m (fst lvl) (fst (snd lvl)) /\ length (snd (snd lvl)) = m.

Fixpoint nondecreasing (l : list Z) : Prop :=
  match l with
  | a :: (b :: _) as rest => (a <= b)%Z /\ nondecreasing rest
  | _ => True
  end.

(** A quantized CDF over [K] symbols: [K + 2] non-decreasing integers from
    [0] to [2^16]. *)
Definition valid_cdf (K : nat) (cdf : list Z) : Prop :=
  length cdf = K + 2 /\
  hd 0%Z cdf = 0%Z /\
  last cdf 0%Z = 65536%Z /\
  nondecreasing cdf.

(** The gaps of the [K] symbols are equal within integer rounding: each is
    [65536 / K] rounded down or up. *)
Definition uniform_gaps (K : nat) (cdf : list Z) : Prop :=
  forall i, i < K ->
    let gap := (nth (S i) cdf 0 - nth i cdf 0)%Z in
    gap = (65536 / Z.of_nat K)%Z \/ gap = (65536 / Z.of_nat K + 1)%Z.

(** The uniform distribution over [K] symbols. *)
Definition uniform (K : nat) : list Q :=
  repeat (1 / inject_Z (Z.of_nat K))%Q K.





(** The usage of entry [j] of group [g] at level [lv]; an entry for which
    no usage is given counts as used. *)
Definition usageAt (Eps : Q) (freqs : list (Matrix Q)) (lv g j : nat) : Q :=
  nth j (nth g (nth lv freqs []) []) Eps.

Definition entryAt (encoders : list (nat * list (Matrix Q))) (lv g j : nat)
  : list Q :=
  nth j (nth g (snd (nth lv encoders (0, []))) []) [].

(** The shape of a codebook: per group, the widths of its entries. *)
Definition cb_shape (cb : list (Matrix Q)) : list (list nat) :=
  map (map (@length Q)) cb.

(** The flags [entryMoved] of all entries of all levels. *)
Definition movedFlags (new old : list (nat * list (Matrix Q))) : list bool :=
  concat (map2 (fun e' e => concat (map2 (map2 entryMoved) (snd e') (snd e)))
               new old).

(** An entry whose value actually changed. *)
Definition entryChanged (new old : list Q) : bool :=
  negb ((length new =? length old)
        && forallb (fun p => Qeq_bool (fst p) (snd p)) (combine new old)).

Definition changedFlags (new old : list (nat * list (Matrix Q))) : list bool :=
  concat (map2 (fun e' e => concat (map2 (map2 entryChanged) (snd e') (snd e)))
               new old).

(** A level whose codebook is [m, k, d] and whose usage matrix is [m, k]. *)
Definition level_shapes_ok (enc : nat * list (Matrix Q)) (f : Matrix Q)
  : Prop :=
  Forall2 (fun cg fg =>
             length cg = fst enc /\ length fg = fst enc /\
             exists d, Forall (fun e => length e = d) cg)
          (snd enc) f.

(** Never-assigned entries that the protection step excludes from
    replacement. *)
Definition protectedSlots (never loc : list bool) : list bool :=
  map2 (fun a b => a && negb b) never loc.

(** The contract of [torch.argsort(., descending=True)]: a permutation of
    the indices along which the values do not increase. *)
Definition argsort_spec (argsort : list Q -> list nat) : Prop :=
  forall v,
    Permutation (argsort v) (seq 0 (length v)) /\
    forall a b, a <= b -> b < length v ->
      (nth (nth b (argsort v) 0%nat) v 0 <= nth (nth a (argsort v) 0%nat) v 0)%Q.

(** The reconstruction that starts from the coarsest (last) level and adds
    each finer level on the way out: level [i] is decoded on top of the
    reconstruction of the levels after it. *)
Fixpoint UMGM_reconstruct (decoders : list QuantizerDecoder)
    (codes : list (Tensor Z)) : result (option (Tensor Q)) :=
  match decoders, codes with
  | decoder :: decoders', code :: codes' =>
      formerLevel <- UMGM_reconstruct decoders' codes' ;;
      r <- qd_decode decoder code formerLevel ;;
      Ok (Some r)
  | _, _ => Ok None
  end.

(** The same for the backward-residual variant; [codesByLevel] lists the
    codes by level index. *)
Fixpoint RB_reconstruct (levels : list BackwardLevel)
    (codesByLevel : list (Tensor Z)) : result (option (Tensor Q)) :=
  match levels, codesByLevel with
  | level :: levels', code :: codes' =>
      formerLevel <- RB_reconstruct levels' codes' ;;
      quantized <- dequantize (bl_codebook level) code ;;
      match formerLevel with
      | None => Ok (Some (bl_decoder level quantized))
      | Some former =>
          s <- tadd quantized former ;;
          Ok (Some (bl_decoder level s))
      end
  | _, _ => Ok None
  end.

(** A coder whose only group holds the histogram [[3/8, 1/8]], of total
    [1/2]: built with [ema = 0] (decay 1) and updated once with these
    counts. *)
Definition low_total_counts : Tensor Q :=
  mkTensor [1; 1; 1; 1; 2] [(3 # 8)%Q; (1 # 8)%Q].

Definition low_total_state : EntropyCoder :=
  match forward (init 1 [2] 0) [low_total_counts] [] with
  | Ok self => self
  | Raise _ => init 1 [2] 0
  end.




(** Two levels with identity head networks over one-dimensional codebooks
    of 8 and 4 entries. *)
Definition level0_decoder : QuantizerDecoder :=
  mkQuantizerDecoder
    [[[0%Q]; [1%Q]; [2%Q]; [3%Q]; [4%Q]; [5%Q]; [6%Q]; [7%Q]]]
    (fun x => x) (Some (fun x => x)) (fun x => x).

Definition level1_decoder : QuantizerDecoder :=
  mkQuantizerDecoder [[[0%Q]; [10%Q]; [20%Q]; [30%Q]]]
    (fun x => x) None (fun x => x).

Definition backward_level0 : BackwardLevel :=
  mkBackwardLevel (fun x => x)
    [[[0%Q]; [1%Q]; [2%Q]; [3%Q]; [4%Q]; [5%Q]; [6%Q]; [7%Q]]].

Definition backward_level1 : BackwardLevel :=
  mkBackwardLevel (fun x => x) [[[0%Q]; [10%Q]; [20%Q]; [30%Q]]].


(* ================================================================== *)
(** * [mcquic/modules/quantizer.py]: level-wise reconstruction *)
(* ================================================================== *)

(** [ResidualBackwardQuantizer.residual_forward]; [levels] pairs
    [self._decoders] with [self._dequantizers], as for [RB_decode]. *)
Definition residual_forward (levels : list BackwardLevel) (code : Tensor Z)
    (formerLevel : option (Tensor Q)) (level : Z) : result (Tensor Q) :=
  match formerLevel with
  | None =>
      if (0 <? level)%Z then
        Raise "For reconstruction after level-0, you should provide not None formerLevel as input."
      else
        lvl <- pyindex levels (- (level + 1))%Z ;;
        quantized <- dequantize (bl_codebook lvl) code ;;
        Ok (bl_decoder lvl quantized)
  | Some former =>
      if (level =? 0)%Z then
        Raise "For reconstruction at level-0, you should provide None formerLevel as input."
      else
        lvl <- pyindex levels (- (level + 1))%Z ;;
        quantized <- dequantize (bl_codebook lvl) code ;;
        s <- tadd quantized former ;;
        Ok (bl_decoder lvl s)
  end.

(** Reconstruction one level at a time: level [0] from nothing, level
    [j + 1] on top of the reconstruction of level [j]. *)
Definition residual_forward_chain (levels : list BackwardLevel)
    (codes : list (Tensor Z)) : result (option (Tensor Q)) :=
  foldM (fun formerLevel (it : nat * Tensor Z) =>
           r <- residual_forward levels (snd it) formerLevel
                                 (Z.of_nat (fst it)) ;;
           Ok (Some r))
        (enumerate codes) None.

(* ================================================================== *)
(** * [mcquic/modules/quantizer.py]: quantization *)
(* ================================================================== *)

(** The items, in row-major order, of the contiguous tensor [n, m, h, w, k]
    whose item at [ni, mi, hi, wi, ki] is [F ni mi hi wi ki]. *)
Definition tabulate5 {B : Type} (F : nat -> nat -> nat -> nat -> nat -> B)
    (n m h w k : nat) : list B :=
  flat_map (fun ni =>
    flat_map (fun mi =>
      flat_map (fun hi =>
        flat_map (fun wi => map (fun ki => F ni mi hi wi ki) (seq 0 k))
                 (seq 0 w))
        (seq 0 h))
      (seq 0 m))
    (seq 0 n).

(** [_multiCodebookQuantization._distance] for a codebook [m, k, d] and a
    feature tensor [n, c, h, w]: the tensor [n, m, h, w, k] of
    [x2 + c2 - 2 * inter], where, with [x] reshaped to [n, m, d, h, w],
    [x2] sums the squares of [x] over [d], [c2] sums the squares of each
    codebook entry, and [inter] is the batched matrix product of the
    source (the contraction of [x] and the codebook over [d]). *)
Definition _distance (_codebook : list (Matrix Q)) (x : Tensor Q)
  : result (Tensor Q) :=
  let m := length _codebook in
  let k := length (nth 0 _codebook []) in
  let d := length (nth 0 (nth 0 _codebook []) []) in
  match shape x with
  | [n; c; h; w] =>
      if numel [n; c; h; w] =? numel [n; m; d; h; w] then
        let x5 := fun ni mi di hi wi =>
          nth ((((ni * m + mi) * d + di) * h + hi) * w + wi) (data x) 0%Q in
        let x2 := fun ni mi hi wi =>
          Qsum (map (fun di => (x5 ni mi di hi wi * x5 ni mi di hi wi)%Q)
                    (seq 0 d)) in
        let c2 := fun mi ki =>
          Qsum (map (fun e => (e * e)%Q) (nth ki (nth mi _codebook []) [])) in
        let inter := fun ni mi ki hi wi =>
          Qsum (map (fun di =>
                       (x5 ni mi di hi wi
                        * nth di (nth ki (nth mi _codebook []) []) 0)%Q)
                    (seq 0 d)) in
        Ok (mkTensor [n; m; h; w; k]
              (tabulate5 (fun ni mi hi wi ki =>
                            (x2 ni mi hi wi + c2 mi ki
                             - 2 * inter ni mi ki hi wi)%Q)
                         n m h w k))
      else Raise "shape is invalid for input size"
  | _ => Raise "not enough values to unpack"
  end.

(** The index of the first least item of [l], given the least item so far
    ([bestv], at index [best]) and the index [i] of the head of [l]. *)
Fixpoint argmin_from (best : nat) (bestv : Q) (i : nat) (l : list Q) : nat :=
  match l with
  | [] => best
  | v :: rest =>
      if Qltb v bestv then argmin_from i v (S i) rest
      else argmin_from best bestv (S i) rest
  end.

(** [torch.argmin] along one row: the index of the first minimal value. *)
Definition argmin (l : list Q) : nat :=
  match l with
  | [] => 0
  | v :: rest => argmin_from 0 v 1 rest
  end.

(** [_multiCodebookQuantization.encode]: [distance.argmin(-1)]; the rows
    along the last dimension of the contiguous distance tensor are its
    consecutive runs of [k] items. *)
Definition quantize (_codebook : list (Matrix Q)) (x : Tensor Q)
  : result (Tensor Z) :=
  distance <- _distance _codebook x ;;
  match shape distance with
  | [n; m; h; w; k] =>
      if k =? 0 then Raise "Expected reduction dim to have non-zero size"
      else
        Ok (mkTensor [n; m; h; w]
              (map (fun r =>
                      Z.of_nat (argmin (firstn k (skipn (r * k)
                                                        (data distance)))))
                   (seq 0 (numel [n; m; h; w]))))
  | _ => Raise "Dimension out of range"
  end.

(** The items, in row-major order, of the contiguous tensor [n, c, h, w]
    whose item at [ni, ci, hi, wi] is [F ni ci hi wi]. *)
Definition tabulate4 {B : Type} (F : nat -> nat -> nat -> nat -> B)
    (n c h w : nat) : list B :=
  flat_map (fun ni =>
    flat_map (fun ci =>
      flat_map (fun hi => map (fun wi => F ni ci hi wi) (seq 0 w))
               (seq 0 h))
      (seq 0 c))
    (seq 0 n).

(** [_multiCodebookDeQuantization.forward] for a codebook [m, k, d] and a
    sample [n, m, h, w, k]: the batched matrix product of the sample,
    reshaped to [n * m, h * w, k], with the codebook, brought to
    [n, m * d, h, w].  The final [reshape(n, -1, h, w)] raises on a tensor
    without elements when [n * h * w = 0]. *)
Definition dequantize_forward (_codebook : list (Matrix Q)) (sample : Tensor Q)
  : result (Tensor Q) :=
  let m := length _codebook in
  let k := length (nth 0 _codebook []) in
  let d := length (nth 0 (nth 0 _codebook []) []) in
  match shape sample with
  | [n; m'; h; w; k'] =>
      if numel [n; m'; h; w; k'] =? numel [n * m; h * w; k] then
        if n * (h * w) =? 0 then
          Raise "cannot reshape tensor of 0 elements: the unspecified dimension size -1 can be any value"
        else
          let left := fun ni mi hi wi ki =>
            nth ((((ni * m + mi) * h + hi) * w + wi) * k + ki)
                (data sample) 0%Q in
          Ok (mkTensor [n; m * d; h; w]
                (tabulate4
                   (fun ni c hi wi =>
                      let mi := c / d in
                      let di := c mod d in
                      Qsum (map (fun ki =>
                                   (left ni mi hi wi ki
                                    * nth di (nth ki (nth mi _codebook []) [])
                                          0)%Q)
                                (seq 0 k)))
                   n (m * d) h w))
      else Raise "shape is invalid for input size"
  | _ => Raise "not enough values to unpack"
  end.

(** [torch.zeros_like(logit).scatter_(-1, code, 1)] of
    [_multiCodebookQuantization.forward], for codes [n, m, h, w] and [k]
    classes: the one-hot tensor [n, m, h, w, k].  An index outside
    [[0, k)] raises. *)
Definition one_hot (k : nat) (code : Tensor Z) : result (Tensor Q) :=
  if forallb (fun s => (0 <=? s)%Z && (s <? Z.of_nat k)%Z) (data code) then
    Ok (mkTensor (shape code ++ [k])
          (flat_map (fun s =>
                       map (fun ki => if (Z.of_nat ki =? s)%Z then 1%Q
                                      else 0%Q)
                           (seq 0 k))
                    (data code)))
  else Raise "index out of bounds".

(** [a - b] on feature tensors of equal shape. *)
Definition tsub (a b : Tensor Q) : result (Tensor Q) :=
  if shape_eqb (shape a) (shape b)
  then Ok (mkTensor (shape a) (map2 Qminus (data a) (data b)))
  else Raise "The size of tensor a must match the size of tensor b".

(** [_quantizerEncoder]: the codebook shared by its quantizer and its
    dequantizer, and its three networks (opaque functions on feature
    tensors); the last level has no latent head. *)
Record QuantizerEncoder : Type := mkQuantizerEncoder {
  qe_codebook : list (Matrix Q);
  _latentStageEncoder : Tensor Q -> Tensor Q;
  _quantizationHead : Tensor Q -> Tensor Q;
  _latentHead : option (Tensor Q -> Tensor Q)
}.

(** [_quantizerEncoder.encode]: the residual for the next level ([None]
    without a latent head) and the code.  A network applied to [None]
    raises. *)
Definition qe_encode (self : QuantizerEncoder) (x : option (Tensor Q))
  : result (option (Tensor Q) * Tensor Z) :=
  match x with
  | None => Raise "latentStageEncoder called on None"
  | Some x =>
      let z := _latentStageEncoder self x in
      code <- quantize (qe_codebook self) (_quantizationHead self z) ;;
      match _latentHead self with
      | None => Ok (None, code)
      | Some latentHead =>
          let z := latentHead z in
          dq <- dequantize (qe_codebook self) code ;;
          residual <- tsub z dq ;;
          Ok (Some residual, code)
      end
  end.

(** [UMGMQuantizer.encode]. *)
Definition UMGM_encode (_encoders : list QuantizerEncoder) (x : Tensor Q)
  : result (list (Tensor Z)) :=
  r <- foldM (fun (acc : option (Tensor Q) * list (Tensor Z)) encoder =>
                let (x, codes) := acc in
                r <- qe_encode encoder x ;;
                let (x', code) := r in
                Ok (x', codes ++ [code]))
             _encoders (Some x, []) ;;
  Ok (snd r).

(** One level of the encoding side of a [ResidualBackwardQuantizer]: its
    latent network ([self._encoders]), the codebook that its quantizer and
    its dequantizer share, and its backward network ([self._backwards]). *)
Record ResidualStage : Type := mkResidualStage {
  rs_encoder : Tensor Q -> Tensor Q;
  rs_codebook : list (Matrix Q);
  rs_backward : Tensor Q -> Tensor Q
}.

(** [ResidualBackwardQuantizer.residual_backward]. *)
Definition residual_backward (stages : list ResidualStage) (code : Tensor Z)
    (level : Z) : result (Tensor Q) :=
  stage <- pyindex stages (- level)%Z ;;
  quantized <- dequantize (rs_codebook stage) code ;;
  Ok (rs_backward stage quantized).

(** The first loop of [ResidualBackwardQuantizer.encode]: the latents of
    all levels, each computed from the one before. *)
Fixpoint allLatents (stages : list ResidualStage) (x : Tensor Q)
  : list (Tensor Q) :=
  match stages with
  | [] => []
  | stage :: rest =>
      let x := rs_encoder stage x in
      x :: allLatents rest x
  end.

(** [torch.zeros_like]. *)
Definition zeros_like (t : Tensor Q) : Tensor Q :=
  mkTensor (shape t) (map (fun _ => 0%Q) (data t)).

(** [ResidualBackwardQuantizer.encode]. *)
Definition RB_encode (stages : list ResidualStage) (x : Tensor Q)
  : result (list (Tensor Z)) :=
  let latents := allLatents stages x in
  match rev latents with
  | [] => Raise "list index out of range"
  | lastLatent :: _ =>
      r <- foldM (fun (acc : Tensor Q * list (Tensor Z))
                      (it : ResidualStage * Tensor Q) =>
                    let (currentLatent, codes) := acc in
                    let (stage, latent) := it in
                    residual <- tsub latent currentLatent ;;
                    code <- quantize (rs_codebook stage) residual ;;
                    quantized <- dequantize (rs_codebook stage) code ;;
                    Ok (rs_backward stage quantized, codes ++ [code]))
                 (combine (rev stages) (rev latents))
                 (zeros_like lastLatent, []) ;;
      Ok (snd r)
  end.

Section BaseQuantizerOps.

(** The functions of the compiled [mcquic.rans] module, and the [encode]
    and [decode] methods that the subclasses of [BaseQuantizer] provide. *)
Variable pmf : list Q -> Z -> list Z.
Variable enc : list Z -> list Z -> list (list Z) -> list Z -> list Z -> bytes.
Variable dec : bytes -> list Z -> list (list Z) -> list Z -> list Z -> list Z.
Variable encode : Tensor Q -> result (list (Tensor Z)).
Variable decode : list (Tensor Z) -> result (option (Tensor Q)).

(** [BaseQuantizer.compress]; [coder] is [self._entropyCoder]. *)
Definition BaseQuantizer_compress (coder : EntropyCoder) (x : Tensor Q)
  : result (list (Tensor Z) * list (list bytes) * list CodeSize)
    * EntropyCoder :=
  match encode x with
  | Raise msg => (Raise msg, coder)
  | Ok codes =>
      let (r, coder') := compress pmf enc coder codes in
      (bc <- r ;; Ok (codes, fst bc, snd bc), coder')
  end.

(** [BaseQuantizer.decompress]. *)
Definition BaseQuantizer_decompress (coder : EntropyCoder)
    (binaries : list (list bytes)) (codeSize : list CodeSize)
  : result (option (Tensor Q)) * EntropyCoder :=
  let (r, coder') := decompress pmf dec coder binaries codeSize in
  (decompressed <- r ;; decode decompressed, coder').

End BaseQuantizerOps.

(* ================================================================== *)
(** * Predicates used by the further statements *)
(* ================================================================== *)

(** Element [ni, ci, hi, wi] of a contiguous [n, c, h, w] tensor. *)
Definition entry4 {A : Type} (d0 : A) (t : Tensor A) (c h w : nat)
    (ni ci hi wi : nat) : A :=
  nth (((ni * c + ci) * h + hi) * w + wi) (data t) d0.

(** The squared Euclidean distance of two vectors. *)
Definition sqdist (u v : list Q) : Q :=
  Qsum (map2 (fun a b => ((a - b) * (a - b))%Q) u v).

(** The [d] channels of group [mi] at position [hi, wi] of image [ni] in a
    feature tensor [n, m * d, h, w]: the vector that is quantized there. *)
Definition featureAt (x : Tensor Q) (m d h w : nat) (ni mi hi wi : nat)
  : list Q :=
  map (fun di => entry4 0%Q x (m * d) h w ni (mi * d + di) hi wi) (seq 0 d).

(** A codebook of [m] groups of [k] entries of [d] components. *)
Definition cb_dims (cb : list (Matrix Q)) (m k d : nat) : Prop :=
  length cb = m /\
  Forall (fun g => length g = k /\ Forall (fun e => length e = d) g) cb.

(** Entry [j] of group [mi]. *)
Definition cb_entry (cb : list (Matrix Q)) (mi j : nat) : list Q :=
  nth j (nth mi cb []) [].

(** [r] is the index of the first least item of [l]. *)
Definition first_min (l : list Q) (r : nat) : Prop :=
  r < length l /\
  (forall j, j < length l -> (nth r l 0 <= nth j l 0)%Q) /\
  (forall j, j < r -> (nth r l 0 < nth j l 0)%Q).

(** A code tensor that a level with codebook [cb] can have produced:
    contiguous, of shape [n, m, h, w] with [m] the number of groups of
    [cb], every value within the entries of a group. *)
Definition code_of (cb : list (Matrix Q)) (code : Tensor Z) : Prop :=
  wf_tensor code /\
  (exists n h w, shape code = [n; length cb; h; w]) /\
  Forall (fun s => (0 <= s < Z.of_nat (length (nth 0 cb [])))%Z) (data code).

(** The list position that a Python index [i] into a list of [len] items
    denotes: negative indices count from the end. *)
Definition pywrap (len : nat) (i : Z) : nat :=
  Z.to_nat (if (i <? 0)%Z then Z.of_nat len + i else i)%Z.

(** A codebook of one group with the two entries [(0, 0)] and [(3, 4)], and
    a feature tensor [1, 2, 1, 1] holding the vector [(3, 0)]. *)
Definition example_codebook : list (Matrix Q) := [[[0; 0]%Q; [3; 4]%Q]].

Definition example_feature : Tensor Q := mkTensor [1; 2; 1; 1] [3; 0]%Q.

(** A one-level quantizer over [example_codebook] whose networks are the
    identity. *)
Definition example_encoder : QuantizerEncoder :=
  mkQuantizerEncoder example_codebook (fun x => x) (fun x => x) None.

Definition example_decoder : QuantizerDecoder :=
  mkQuantizerDecoder example_codebook (fun x => x) None (fun x => x).

(** A one-level residual quantizer over [example_codebook] whose networks
    are the identity. *)
Definition example_stage : ResidualStage :=
  mkResidualStage (fun x => x) example_codebook (fun x => x).
(* ================================================================== *)
(** * Generic lemmas *)
(* ================================================================== *)

Unset Implicit Arguments.

Lemma bind_ok {A B : Type} (r : result A) (f : A -> result B) (b : B) :
  bind r f = Ok b -> exists a, r = Ok a /\ f a = Ok b.
Proof. destruct r as [a|msg]; simpl; intros H; [eauto | discriminate]. Qed.

Lemma foldM_ext {A S : Type} (f g : S -> A -> result S) (l : list A) :
  (forall s a, In a l -> f s a = g s a) ->
  forall s, foldM f l s = foldM g l s.
Proof.
  induction l as [|a l IH]; intros Hfg s; simpl; [reflexivity|].
  rewrite (Hfg s a) by (left; reflexivity).
  destruct (g s a); simpl; [|reflexivity].
  apply IH. intros; apply Hfg; right; assumption.
Qed.

Lemma checkBody_ok n m u code :
  checkBody n m u code = Ok tt <->
  (1 <= n /\ dim code 0 = Ok n /\ dim code 1 = Ok m).
Proof.
  unfold checkBody. split.
  - intros H. destruct (dim code 0) as [newN|]; simpl in H; [|discriminate].
    destruct (dim code 1) as [newM|]; simpl in H; [|discriminate].
    destruct (n <? 1) eqn:E1; [discriminate|].
    destruct (m =? newM) eqn:E2; simpl in H; [|discriminate].
    destruct (n =? newN) eqn:E3; simpl in H; [|discriminate].
    apply Nat.ltb_ge in E1. apply Nat.eqb_eq in E2, E3. subst. auto.
  - intros (Hn & H0 & H1). rewrite H0, H1. simpl.
    apply Nat.ltb_ge in Hn. rewrite Hn. rewrite !Nat.eqb_refl. reflexivity.
Qed.

Lemma checkLoop_ok n m codes :
  foldM (checkBody n m) codes tt = Ok tt <->
  (codes = [] \/ 1 <= n) /\
  Forall (fun c => dim c 0 = Ok n /\ dim c 1 = Ok m) codes.
Proof.
  induction codes as [|c codes IH]; simpl.
  - split; auto.
  - split.
    + intros H. apply bind_ok in H. destruct H as ([] & Hc & Hrest).
      apply checkBody_ok in Hc. apply IH in Hrest.
      destruct Hc as (Hn & H0 & H1). destruct Hrest as (_ & Hall).
      split; [right; assumption | constructor; auto].
    + intros ([Hnil | Hn] & Hall); [discriminate|].
      inversion Hall as [|? ? [H0 H1] Hall']; subst.
      assert (Hc : checkBody n m tt c = Ok tt) by (apply checkBody_ok; auto).
      rewrite Hc. simpl. apply IH. auto.
Qed.

(** [_checkShape] accepts exactly the non-empty lists all of whose levels
    share the batch size [n >= 1] and the group count [m] of the first. *)
Lemma checkShape_ok codes n m :
  _checkShape codes = Ok (n, m) <->
  codes <> [] /\ 1 <= n /\
  Forall (fun c => dim c 0 = Ok n /\ dim c 1 = Ok m) codes.
Proof.
  unfold _checkShape. destruct codes as [|c0 rest].
  - split; [discriminate | intros (H & _); congruence].
  - split.
    + intros H.
      apply bind_ok in H. destruct H as (n0 & Hd0 & H).
      apply bind_ok in H. destruct H as (m0 & Hd1 & H).
      apply bind_ok in H. destruct H as ([] & Hloop & H).
      inversion H; subst n0 m0.
      apply checkLoop_ok in Hloop. destruct Hloop as ([Hnil | Hn] & Hall);
        [discriminate|].
      split; [discriminate | split; assumption].
    + intros (_ & Hn & Hall).
      assert (Hloop : foldM (checkBody n m) (c0 :: rest) tt = Ok tt)
        by (apply checkLoop_ok; auto).
      inversion Hall as [|? ? [H0 H1] Hall']; subst.
      rewrite H0, H1. cbn [bind]. rewrite Hloop. reflexivity.
Qed.

Lemma checkShape_raises codes :
  (forall n m, _checkShape codes <> Ok (n, m)) ->
  exists msg, _checkShape codes = Raise msg.
Proof.
  intros H. destruct (_checkShape codes) as [[n m]|msg] eqn:E; eauto.
  exfalso. apply (H n m). reflexivity.
Qed.

(** C10. [EntropyCoder.compress] fails fast: on an empty list of codes, on
    a batch size [n < 1], or when some level's batch size [n] or group
    count [m] differs from the first level's, it raises before anything is
    encoded and leaves the coder untouched. *)
Theorem compress_fails_fast :
  forall (pmf : list Q -> Z -> list Z)
         (enc : list Z -> list Z -> list (list Z) -> list Z -> list Z -> bytes)
         (self : EntropyCoder) (codes : list (Tensor Z)),
    malformed codes ->
    exists msg, compress pmf enc self codes = (Raise msg, self).
Proof.
  intros pmf enc self codes Hbad.
  destruct (checkShape_raises codes) as [msg Hmsg].
  - intros n m Hok. apply checkShape_ok in Hok.
    destruct Hok as (Hne & Hn & Hall).
    destruct codes as [|c0 rest]; [congruence|].
    pose proof Hall as Hall0.
    inversion Hall0 as [|? ? [H0 H1] _]; subst.
    simpl in Hbad. destruct Hbad as [Hzero | Hex].
    + rewrite H0 in Hzero. inversion Hzero. lia.
    + apply Exists_exists in Hex. destruct Hex as (c & Hin & Hc).
      rewrite Forall_forall in Hall. destruct (Hall c Hin) as [Hc0 Hc1].
      rewrite H0, H1 in Hc. destruct Hc as [Hc | Hc]; congruence.
  - exists msg. unfold compress. rewrite Hmsg. reflexivity.
Qed.

Lemma compress_fails_fast_witness :
  exists msg,
    compress pmfToQuantizedCDF unary_encode (init 2 [4; 4] (99 # 100))
      [mkTensor [1; 2; 1; 1] [0; 3]%Z; mkTensor [1; 3; 1; 1] [0; 1; 2]%Z]
    = (Raise msg, init 2 [4; 4] (99 # 100)).
Proof.
  apply compress_fails_fast.
  right. right. left. right. simpl. discriminate.
Defined.

Lemma length_map2 {A B C : Type} (f : A -> B -> C) l1 l2 :
  length (map2 f l1 l2) = Nat.min (length l1) (length l2).
Proof.
  revert l2. induction l1 as [|a l1 IH]; intros [|b l2]; simpl; auto.
Qed.

Lemma nth_map2 {A B C : Type} (f : A -> B -> C) l1 l2 i d1 d2 d :
  i < length l1 -> i < length l2 ->
  nth i (map2 f l1 l2) d = f (nth i l1 d1) (nth i l2 d2).
Proof.
  revert l2 i. induction l1 as [|a l1 IH]; intros [|b l2] [|i]; simpl;
    intros H1 H2; try lia; auto.
  apply IH; lia.
Qed.

Lemma length_setitem {A : Type} (l : list A) i x :
  length (setitem l i x) = length l.
Proof.
  revert i. induction l as [|a l IH]; intros [|i]; simpl; auto.
Qed.

Lemma nth_error_setitem_eq {A : Type} (l : list A) i x :
  i < length l -> nth_error (setitem l i x) i = Some x.
Proof.
  revert i. induction l as [|a l IH]; intros [|i]; simpl; intros H;
    try lia; auto.
  apply IH; lia.
Qed.

Lemma nth_error_setitem_ne {A : Type} (l : list A) i j x :
  i <> j -> nth_error (setitem l i x) j = nth_error l j.
Proof.
  revert i j. induction l as [|a l IH]; intros [|i] [|j]; simpl; intros H;
    try congruence; auto.
Qed.

Lemma getitem_ok {A : Type} (l : list A) i a :
  getitem l i = Ok a <-> nth_error l i = Some a.
Proof.
  unfold getitem. destruct (nth_error l i); split; intros H;
    inversion H; reflexivity.
Qed.

Lemma shape_eqb_true s1 s2 : shape_eqb s1 s2 = true <-> s1 = s2.
Proof.
  unfold shape_eqb. destruct (list_eq_dec Nat.eq_dec s1 s2); split;
    intros; congruence.
Qed.

Lemma mat_shape_rows {A : Type} (a : Matrix A) m k :
  mat_shape a = repeat k m <->
  length a = m /\ Forall (fun r => length r = k) a.
Proof.
  unfold mat_shape. revert m. induction a as [|r a IH]; intros [|m]; simpl.
  - split; auto.
  - split; [discriminate | intros [H _]; discriminate].
  - split; [discriminate | intros [H _]; discriminate].
  - split.
    + intros H. injection H as Hk Hrest. apply IH in Hrest.
      destruct Hrest as [Hl Hall]. split; [congruence | constructor; auto].
    + intros [H1 H2]. inversion H2 as [|? ? Hr Ha]; subst. f_equal.
      apply IH. split; [lia | assumption].
Qed.

Lemma mat_shape_nth {A : Type} (a : Matrix A) m k mi :
  mat_shape a = repeat k m -> mi < m -> length (nth mi a []) = k.
Proof.
  intros H Hmi. apply mat_shape_rows in H. destruct H as [Hl Hall].
  rewrite Forall_forall in Hall. apply Hall. apply nth_In. lia.
Qed.

Lemma mat_shape_add a b m k :
  mat_shape a = repeat k m -> mat_shape b = repeat k m ->
  mat_shape (mat_add a b) = repeat k m.
Proof.
  unfold mat_add, mat_shape. revert b m.
  induction a as [|ra a IH]; intros [|rb b] [|m]; simpl; intros Ha Hb;
    try discriminate; auto.
  injection Ha as Hka Ha. injection Hb as Hkb Hb. f_equal.
  - rewrite length_map2. lia.
  - apply IH; assumption.
Qed.

Lemma mat_shape_scale c a : mat_shape (mat_scale c a) = mat_shape a.
Proof.
  unfold mat_scale, mat_shape. rewrite map_map. apply map_ext.
  intros r. apply length_map.
Qed.

Lemma mat_add_entry a b m k mi ki :
  mat_shape a = repeat k m -> mat_shape b = repeat k m ->
  mi < m -> ki < k ->
  nth ki (nth mi (mat_add a b) []) 0%Q
  = (nth ki (nth mi a []) 0 + nth ki (nth mi b []) 0)%Q.
Proof.
  intros Ha Hb Hmi Hki. unfold mat_add.
  pose proof (mat_shape_nth a m k mi Ha Hmi) as Hra.
  pose proof (mat_shape_nth b m k mi Hb Hmi) as Hrb.
  apply mat_shape_rows in Ha, Hb. destruct Ha as [Hla _], Hb as [Hlb _].
  rewrite (nth_map2 (map2 Qplus) a b mi [] [] []) by lia.
  apply nth_map2; lia.
Qed.

Lemma mat_scale_entry c a m k mi ki :
  mat_shape a = repeat k m -> mi < m -> ki < k ->
  nth ki (nth mi (mat_scale c a) []) 0%Q = (c * nth ki (nth mi a []) 0)%Q.
Proof.
  intros Ha Hmi Hki. unfold mat_scale.
  pose proof (mat_shape_nth a m k mi Ha Hmi) as Hra.
  apply mat_shape_rows in Ha. destruct Ha as [Hla _].
  rewrite (nth_indep _ [] (map (Qmult c) [])) by (rewrite length_map; lia).
  rewrite map_nth.
  rewrite (nth_indep _ 0%Q (c * 0)%Q) by (rewrite length_map; lia).
  apply map_nth.
Qed.

(** What the all-reduce leaves in each cell: the local count plus the
    counts of the peers. *)
Lemma all_reduce_spec peers : forall local m k,
  mat_shape local = repeat k m ->
  Forall (fun p => mat_shape p = repeat k m) peers ->
  mat_shape (all_reduce local peers) = repeat k m /\
  forall mi ki, mi < m -> ki < k ->
    (nth ki (nth mi (all_reduce local peers) []) 0
     == nth ki (nth mi local []) 0
        + Qsum (map (fun p => nth ki (nth mi p []) 0%Q) peers))%Q.
Proof.
  unfold all_reduce.
  induction peers as [|p peers IH]; intros local m k Hl Hp; simpl.
  - split; [assumption|]. intros. ring.
  - inversion Hp as [|? ? Hp0 Hps]; subst.
    destruct (IH (mat_add local p) m k) as [Hs He];
      [apply mat_shape_add; assumption | assumption |].
    split; [assumption|].
    intros mi ki Hmi Hki. rewrite (He mi ki Hmi Hki).
    rewrite (mat_add_entry local p m k mi ki Hl Hp0 Hmi Hki). ring.
Qed.

Lemma nth_map_seq {A : Type} (f : nat -> A) n i d :
  i < n -> nth i (map f (seq 0 n)) d = f i.
Proof.
  intros H. rewrite (nth_indep _ d (f 0)) by (rewrite length_map, length_seq; lia).
  rewrite map_nth. rewrite seq_nth by lia. reflexivity.
Qed.

Lemma nth_setitem_ne {A : Type} (l : list A) i j x d :
  i <> j -> nth j (setitem l i x) d = nth j l d.
Proof.
  revert i j. induction l as [|a l IH]; intros [|i] [|j]; simpl; intros H;
    try congruence; auto.
Qed.

Lemma sum023_spec code n m h w k :
  shape code = [n; m; h; w; k] ->
  exists L, sum023 code = Ok L /\ mat_shape L = repeat k m /\
    forall mi ki, mi < m -> ki < k ->
      nth ki (nth mi L []) 0%Q = localCount code mi ki.
Proof.
  intros Hs. unfold sum023, localCount. rewrite Hs.
  eexists. split; [reflexivity|]. split.
  - apply mat_shape_rows. split.
    + rewrite length_map, length_seq. reflexivity.
    + apply Forall_forall. intros r Hr. apply in_map_iff in Hr.
      destruct Hr as (mi & <- & _). rewrite length_map, length_seq.
      reflexivity.
  - intros mi ki Hmi Hki. rewrite nth_map_seq by assumption.
    rewrite nth_map_seq by assumption. reflexivity.
Qed.

(** The loop of [forward] over levels [s, s + 1, ...]. *)
Lemma forward_loop d peers : forall codes s F,
  s + length codes <= length F ->
  (forall j code, nth_error codes j = Some code ->
     exists n m h w k,
       shape code = [n; m; h; w; k] /\
       mat_shape (nth (s + j) F []) = repeat k m /\
       Forall (fun p => mat_shape p = repeat k m) (nth (s + j) peers [])) ->
  exists F',
    foldM (forwardLevel d peers) (combine (seq s (length codes)) codes) F
    = Ok F' /\
    length F' = length F /\
    (forall i, i < s -> nth_error F' i = nth_error F i) /\
    (forall j code, nth_error codes j = Some code ->
       exists L, sum023 code = Ok L /\
         nth_error F' (s + j)
         = Some (emaUpdate d (all_reduce L (nth (s + j) peers []))
                           (nth (s + j) F []))).
Proof.
  induction codes as [|c codes IH]; intros s F Hlen Hshape.
  - exists F. simpl. repeat split; auto.
    intros j code H. destruct j; discriminate.
  - simpl in Hlen.
    destruct (Hshape 0 c eq_refl) as (n & m & h & w & k & Hs & Hold & Hp).
    rewrite Nat.add_0_r in Hold, Hp.
    destruct (sum023_spec c n m h w k Hs) as (L & HL & HLs & _).
    destruct (all_reduce_spec (nth s peers []) L m k HLs Hp) as [Hts _].
    assert (Hget : getitem F s = Ok (nth s F [])).
    { apply getitem_ok. apply nth_error_nth'. lia. }
    set (new := emaUpdate d (all_reduce L (nth s peers [])) (nth s F [])).
    assert (Hstep : forwardLevel d peers F (s, c) = Ok (setitem F s new)).
    { unfold forwardLevel. rewrite HL. cbn [bind]. rewrite Hget. cbn [bind].
      rewrite Hts, Hold.
      replace (shape_eqb (repeat k m) (repeat k m)) with true
        by (symmetry; apply shape_eqb_true; reflexivity).
      reflexivity. }
    destruct (IH (S s) (setitem F s new)) as (F' & Hrun & HlenF & Hlow & Hup).
    + rewrite length_setitem. lia.
    + intros j code Hj.
      destruct (Hshape (S j) code Hj) as (n' & m' & h' & w' & k' & H1 & H2 & H3).
      exists n', m', h', w', k'.
      rewrite nth_setitem_ne by lia.
      replace (S s + j) with (s + S j) by lia. auto.
    + exists F'. cbn [length seq combine foldM]. rewrite Hstep. cbn [bind].
      split; [exact Hrun|]. split; [rewrite HlenF; apply length_setitem|].
      split.
      * intros i Hi. rewrite Hlow by lia. apply nth_error_setitem_ne. lia.
      * intros [|j] code Hj.
        -- simpl in Hj. inversion Hj; subst code.
           exists L. split; [assumption|].
           rewrite Nat.add_0_r. rewrite Hlow by lia.
           apply nth_error_setitem_eq. lia.
        -- simpl in Hj. destruct (Hup j code Hj) as (L' & HL' & Hn).
           exists L'. split; [assumption|].
           replace (s + S j) with (S s + j) by lia. rewrite Hn.
           rewrite nth_setitem_ne by lia. reflexivity.
Qed.

(** C6. A frequency update with decay [d] leaves, in every level, group
    and entry, [d * c + (1 - d) * p], where [c] is the entry's batch count
    summed across all workers and [p] the prior EMA value; with [d = 0] the
    value stays [p], with [d = 1] it becomes [c]. *)
Theorem forward_is_ema :
  forall (self : EntropyCoder) (oneHotCodes : list (Tensor Q))
         (peers : list (list (Matrix Q))),
    forward_input_ok self oneHotCodes peers ->
    exists self',
      forward self oneHotCodes peers = Ok self' /\
      forall lv code mi ki,
        nth_error oneHotCodes lv = Some code ->
        mi < length (nth lv (_freqEMA self) []) ->
        ki < length (nth mi (nth lv (_freqEMA self) []) []) ->
        let d := _decay self in
        let c := batchCount code (nth lv peers []) mi ki in
        let p := entryOf (_freqEMA self) lv mi ki in
        let new := entryOf (_freqEMA self') lv mi ki in
        (new == d * c + (1 - d) * p)%Q /\
        ((d == 0)%Q -> (new == p)%Q) /\
        ((d == 1)%Q -> (new == c)%Q).
Proof.
  intros self codes peers [Hlen Hshape].
  destruct (forward_loop (_decay self) peers codes 0 (_freqEMA self))
    as (F' & Hrun & HlenF & _ & Hup); [simpl; lia | exact Hshape |].
  eexists. split.
  - unfold forward, enumerate. rewrite Hrun. cbn [bind]. reflexivity.
  - intros lv code mi ki Hcode Hmi Hki d c p new. cbn [_freqEMA] in new.
    destruct (Hshape lv code Hcode) as (n & m & h & w & k & Hs & Hold & Hp).
    destruct (Hup lv code Hcode) as (L & HL & Hnew). simpl in Hnew.
    destruct (sum023_spec code n m h w k Hs) as (L' & HL' & HLs & HLe).
    rewrite HL in HL'. inversion HL'; subst L'. clear HL'.
    destruct (all_reduce_spec (nth lv peers []) L m k HLs Hp) as [Hts Hte].
    pose proof Hold as Hrows. apply mat_shape_rows in Hrows.
    destruct Hrows as [Hm _]. rewrite Hm in Hmi.
    rewrite (mat_shape_nth _ m k mi Hold Hmi) in Hki.
    assert (Hformula : (new == d * c + (1 - d) * p)%Q).
    { subst new c p d. unfold entryOf, batchCount.
      rewrite (nth_error_nth _ _ _ Hnew). unfold emaUpdate.
      rewrite (mat_add_entry _ _ m k mi ki); try assumption;
        try (rewrite mat_shape_scale; assumption).
      rewrite (mat_scale_entry _ _ m k mi ki Hts Hmi Hki).
      rewrite (mat_scale_entry _ _ m k mi ki Hold Hmi Hki).
      rewrite (Hte mi ki Hmi Hki). rewrite (HLe mi ki Hmi Hki).
      reflexivity. }
    split; [exact Hformula|]. split; intros Hd; rewrite Hformula, Hd; ring.
Qed.

Lemma forward_is_ema_witness :
  exists self',
    forward (init 1 [2] (1 # 2)) [mkTensor [1; 1; 1; 1; 2] [1; 0]%Q]
            [[ [[0; 1]%Q] ]] = Ok self' /\
    (entryOf (_freqEMA self') 0 0 1 == (1 # 2) * (0 + 1) + (1 - (1 # 2)) * 1)%Q.
Proof.
  destruct (forward_is_ema (init 1 [2] (1 # 2))
              [mkTensor [1; 1; 1; 1; 2] [1; 0]%Q] [[ [[0; 1]%Q] ]])
    as (self' & Hrun & Hval).
  - split; [simpl; lia|].
    intros [|[|lv]] code H; simpl in H; inversion H; subst.
    exists 1, 1, 1, 1, 2. repeat split. repeat constructor.
  - exists self'. split; [exact Hrun|].
    destruct (Hval 0 _ 0 1 eq_refl) as [Hnew _]; [simpl; lia | simpl; lia |].
    rewrite Hnew. vm_compute. reflexivity.
Defined.

(* ================================================================== *)
(** * The cached properties *)
(* ================================================================== *)

Lemma needUpdate_Freq self : needUpdate (snd (Freq self)) = needUpdate self.
Proof.
  unfold Freq. destruct (cache_hit (freq self) (needUpdate self));
    reflexivity.
Qed.

Lemma needUpdate_CDFs pmf self :
  needUpdate (snd (CDFs pmf self)) = needUpdate self.
Proof.
  unfold CDFs. destruct (cache_hit (cdfs self) (needUpdate self));
    [reflexivity|].
  pose proof (needUpdate_Freq self) as H.
  destruct (Freq self) as [f self1]. simpl in *. assumption.
Qed.

Lemma needUpdate_forward self codes peers self' :
  forward self codes peers = Ok self' -> needUpdate self' = true.
Proof.
  unfold forward. intros H. apply bind_ok in H.
  destruct H as (F' & _ & H). inversion H. reflexivity.
Qed.

Lemma cache_hit_dirty {A : Type} (cache : option A) :
  cache_hit cache true = None.
Proof. destruct cache; reflexivity. Qed.

(** A dirty coder rebuilds both properties from the histogram. *)
Lemma Freq_dirty self :
  needUpdate self = true ->
  Freq self
  = (map (map normalize16) (_freqEMA self),
     {| _freqEMA := _freqEMA self; _k := _k self; _decay := _decay self;
        cdfs := cdfs self;
        freq := Some (map (map normalize16) (_freqEMA self));
        needUpdate := true |}).
Proof.
  intros H. unfold Freq. rewrite H, cache_hit_dirty. reflexivity.
Qed.

Lemma CDFs_dirty pmf self :
  needUpdate self = true ->
  CDFs pmf self
  = (buildCDFs pmf (map (map normalize16) (_freqEMA self)),
     {| _freqEMA := _freqEMA self; _k := _k self; _decay := _decay self;
        cdfs := Some (buildCDFs pmf (map (map normalize16) (_freqEMA self)));
        freq := Some (map (map normalize16) (_freqEMA self));
        needUpdate := true |}).
Proof.
  intros H. unfold CDFs. rewrite H, cache_hit_dirty.
  rewrite (Freq_dirty self H). reflexivity.
Qed.

(** C3 (evidence). The dirty flag is set by the constructor and by
    [forward] and nothing clears it: after a first read of [CDFs] the
    tables are stored but the flag is still set, so the guard of the cache
    fails and the second read, with no frequency update in between, takes
    the rebuilding branch again. *)
Theorem CDFs_second_read_rebuilds :
  forall (pmf : list Q -> Z -> list Z) (m : nat) (k : list nat) (ema : Q),
    let self1 := snd (CDFs pmf (init m k ema)) in
    cdfs self1
    = Some (buildCDFs pmf (map (map normalize16) (_freqEMA self1))) /\
    needUpdate self1 = true /\
    cache_hit (cdfs self1) (needUpdate self1) = None.
Proof.
  intros pmf m k ema self1. subst self1.
  rewrite (CDFs_dirty pmf (init m k ema) eq_refl). simpl.
  repeat split.
Qed.

(* ================================================================== *)
(** * Invariants of the reachable states *)
(* ================================================================== *)

Lemma foldM_inv {A S : Type} (I : S -> Prop) (f : S -> A -> result S) l :
  (forall s a s', I s -> In a l -> f s a = Ok s' -> I s') ->
  forall s s', I s -> foldM f l s = Ok s' -> I s'.
Proof.
  induction l as [|a l IH]; intros Hstep s s' Hs Hrun; simpl in Hrun.
  - inversion Hrun; subst; assumption.
  - apply bind_ok in Hrun. destruct Hrun as (s1 & H1 & Hrest).
    apply (IH (fun s a s' Hi Hin => Hstep s a s' Hi (or_intror Hin)) s1 s');
      [|assumption].
    apply (Hstep s a s1 Hs (or_introl eq_refl) H1).
Qed.

Lemma Forall_map2 {A B C : Type} (P : A -> Prop) (R : B -> Prop)
    (T : C -> Prop) (f : A -> B -> C) :
  (forall a b, P a -> R b -> T (f a b)) ->
  forall l1 l2, Forall P l1 -> Forall R l2 -> Forall T (map2 f l1 l2).
Proof.
  intros Hf. induction l1 as [|a l1 IH]; intros [|b l2] H1 H2; simpl;
    try constructor.
  - inversion H1; inversion H2; subst. auto.
  - inversion H1; inversion H2; subst. auto.
Qed.

Lemma Forall_setitem {A : Type} (P : A -> Prop) l i x :
  Forall P l -> P x -> Forall P (setitem l i x).
Proof.
  revert i. induction l as [|a l IH]; intros [|i] Hl Hx; simpl;
    inversion Hl; subst; constructor; auto.
Qed.

Lemma Forall2_setitem {A B : Type} (R : A -> B -> Prop) l l' i old x :
  Forall2 R l l' -> nth_error l i = Some old ->
  (forall b, R old b -> R x b) -> Forall2 R (setitem l i x) l'.
Proof.
  intros H. revert i. induction H as [|a b l l' Hab Hl IH]; intros [|i];
    simpl; intros Hn Hx; try discriminate.
  - inversion Hn; subst. constructor; auto.
  - constructor; auto.
Qed.

Lemma Qsum_nonneg l : Forall (fun e => (0 <= e)%Q) l -> (0 <= Qsum l)%Q.
Proof.
  induction 1 as [|e l He Hl IH]; simpl.
  - apply Qle_refl.
  - replace 0%Q with (0 + 0)%Q by reflexivity. apply Qplus_le_compat; auto.
Qed.

Lemma nth_nonneg l i :
  Forall (fun e => (0 <= e)%Q) l -> (0 <= nth i l 0)%Q.
Proof.
  intros H. revert i. induction H as [|e l He Hl IH]; intros [|i]; simpl;
    auto; apply Qle_refl.
Qed.

Lemma Qsum_map_nonneg {A : Type} (f : A -> Q) l :
  (forall a, (0 <= f a)%Q) -> (0 <= Qsum (map f l))%Q.
Proof.
  intros H. apply Qsum_nonneg. apply Forall_forall. intros e He.
  apply in_map_iff in He. destruct He as (a & <- & _). apply H.
Qed.

Lemma sum023_nonneg code L :
  nonneg_tensor code -> sum023 code = Ok L -> nonneg_matrix L.
Proof.
  unfold sum023, nonneg_tensor, nonneg_matrix. intros Hc H.
  destruct (shape code) as [|n [|m [|h [|w [|k [|]]]]]]; try discriminate.
  inversion H; subst L. clear H.
  apply Forall_forall. intros row Hrow. apply in_map_iff in Hrow.
  destruct Hrow as (mi & <- & _).
  apply Forall_forall. intros e He. apply in_map_iff in He.
  destruct He as (ki & <- & _).
  apply Qsum_map_nonneg; intros ni. apply Qsum_map_nonneg; intros hi.
  apply Qsum_map_nonneg; intros wi. unfold entry5. apply nth_nonneg.
  assumption.
Qed.

Lemma mat_add_nonneg a b :
  nonneg_matrix a -> nonneg_matrix b -> nonneg_matrix (mat_add a b).
Proof.
  unfold nonneg_matrix, mat_add. apply Forall_map2.
  intros ra rb. apply Forall_map2. intros x y Hx Hy.
  replace 0%Q with (0 + 0)%Q by reflexivity. apply Qplus_le_compat; auto.
Qed.

Lemma mat_scale_nonneg c a :
  (0 <= c)%Q -> nonneg_matrix a -> nonneg_matrix (mat_scale c a).
Proof.
  unfold nonneg_matrix, mat_scale. intros Hc Ha.
  apply Forall_forall. intros r Hr. apply in_map_iff in Hr.
  destruct Hr as (r0 & <- & Hr0). rewrite Forall_forall in Ha.
  specialize (Ha r0 Hr0). apply Forall_forall. intros e He.
  apply in_map_iff in He. destruct He as (e0 & <- & He0).
  rewrite Forall_forall in Ha. apply Qmult_le_0_compat; auto.
Qed.

Lemma all_reduce_nonneg peers : forall local,
  nonneg_matrix local -> Forall nonneg_matrix peers ->
  nonneg_matrix (all_reduce local peers).
Proof.
  unfold all_reduce. induction peers as [|p peers IH]; intros local Hl Hp;
    simpl; [assumption|].
  inversion Hp; subst. apply IH; [apply mat_add_nonneg|]; assumption.
Qed.

Lemma mat_shape_add_same a : forall b,
  mat_shape a = mat_shape b -> mat_shape (mat_add a b) = mat_shape a.
Proof.
  unfold mat_shape, mat_add.
  induction a as [|ra a IH]; intros [|rb b] H; simpl in *;
    try discriminate; auto.
  injection H as Hr Hrest. f_equal.
  - rewrite length_map2. lia.
  - apply IH. assumption.
Qed.

Lemma emaUpdate_shape d total old :
  mat_shape total = mat_shape old ->
  mat_shape (emaUpdate d total old) = mat_shape old.
Proof.
  intros H. unfold emaUpdate.
  rewrite mat_shape_add_same; rewrite !mat_shape_scale; auto.
Qed.

Lemma forwardLevel_ok d peers F lv code F1 :
  forwardLevel d peers F (lv, code) = Ok F1 ->
  exists L old,
    sum023 code = Ok L /\ nth_error F lv = Some old /\
    mat_shape (all_reduce L (nth lv peers [])) = mat_shape old /\
    F1 = setitem F lv (emaUpdate d (all_reduce L (nth lv peers [])) old).
Proof.
  unfold forwardLevel. intros H.
  apply bind_ok in H. destruct H as (L & HL & H).
  apply bind_ok in H. destruct H as (old & Hold & H).
  destruct (shape_eqb _ _) eqn:E; [|discriminate].
  apply shape_eqb_true in E. apply getitem_ok in Hold.
  inversion H. eauto 10.
Qed.

Lemma nth_Forall_default {A : Type} (P : list A -> Prop) l i :
  P [] -> Forall P l -> P (nth i l []).
Proof.
  intros Hd H. revert i. induction H; intros [|i]; simpl; auto.
Qed.

Lemma init_inv m k ema :
  (0 <= ema)%Q -> (ema <= 1)%Q -> coder_inv m k (init m k ema).
Proof.
  intros H0 H1. unfold coder_inv, init. simpl.
  split; [reflexivity|]. split; [reflexivity|]. split; [|split; [|split]].
  - induction k as [|ki k IH]; simpl; constructor; auto.
    apply mat_shape_rows. split; [apply repeat_length|].
    apply Forall_forall. intros r Hr. apply repeat_spec in Hr. subst r.
    apply repeat_length.
  - apply Forall_forall. intros F HF. apply in_map_iff in HF.
    destruct HF as (ki & <- & _). unfold nonneg_matrix.
    apply Forall_forall. intros r Hr. apply repeat_spec in Hr. subst r.
    apply Forall_forall. intros e He. apply repeat_spec in He. subst e.
    discriminate.
  - unfold Qminus. rewrite <- (Qplus_opp_r ema).
    apply Qplus_le_compat; [assumption | apply Qle_refl].
  - unfold Qminus. rewrite <- (Qplus_0_r 1) at 2.
    apply Qplus_le_compat; [apply Qle_refl|].
    apply (Qopp_le_compat 0 ema). assumption.
Qed.

Lemma forward_inv m k self codes peers self' :
  coder_inv m k self ->
  Forall nonneg_tensor codes ->
  Forall (Forall nonneg_matrix) peers ->
  forward self codes peers = Ok self' ->
  coder_inv m k self'.
Proof.
  intros (Hk & Hdirty & Hshape & Hnn & Hd0 & Hd1) Hcodes Hpeers Hrun.
  unfold forward in Hrun. apply bind_ok in Hrun.
  destruct Hrun as (F' & Hloop & Hself). inversion Hself; subst self'.
  clear Hself. unfold coder_inv. simpl.
  split; [assumption|]. split; [reflexivity|].
  assert (HI : Forall2 (fun F ki => mat_shape F = repeat ki m) F' k /\
               Forall nonneg_matrix F').
  { revert Hloop.
    apply (foldM_inv
             (fun F => Forall2 (fun F ki => mat_shape F = repeat ki m) F k /\
                       Forall nonneg_matrix F));
      [|split; assumption].
    intros F [lv code] F1 [HFs HFn] Hin Hstep.
    apply forwardLevel_ok in Hstep.
    destruct Hstep as (L & old & HL & Hold & Hsh & ->).
    assert (Hcode : nonneg_tensor code).
    { rewrite Forall_forall in Hcodes. apply Hcodes.
      unfold enumerate in Hin. apply in_combine_r in Hin. assumption. }
    split.
    - apply (Forall2_setitem _ F k lv old); auto.
      intros ki Hki. rewrite emaUpdate_shape; assumption.
    - apply Forall_setitem; [assumption|].
      unfold emaUpdate. apply mat_add_nonneg.
      + apply mat_scale_nonneg; [assumption|].
        apply all_reduce_nonneg; [apply (sum023_nonneg code); assumption|].
        apply (nth_Forall_default (Forall nonneg_matrix)); auto.
      + apply mat_scale_nonneg.
        * unfold Qminus. rewrite <- (Qplus_opp_r (_decay self)).
          apply Qplus_le_compat; [assumption | apply Qle_refl].
        * rewrite Forall_forall in HFn. apply HFn.
          apply nth_error_In in Hold. assumption. }
  destruct HI. repeat split; assumption.
Qed.

Lemma Freq_inv m k self :
  coder_inv m k self -> coder_inv m k (snd (Freq self)).
Proof.
  intros H. pose proof H as (_ & Hdirty & _).
  rewrite (Freq_dirty self Hdirty). destruct H as (H1 & H2 & H3).
  unfold coder_inv. simpl. auto.
Qed.

Lemma CDFs_inv pmf m k self :
  coder_inv m k self -> coder_inv m k (snd (CDFs pmf self)).
Proof.
  intros H. pose proof H as (_ & Hdirty & _).
  rewrite (CDFs_dirty pmf self Hdirty). destruct H as (H1 & H2 & H3).
  unfold coder_inv. simpl. auto.
Qed.

Lemma reachable_inv pmf m k self :
  reachable pmf m k self -> coder_inv m k self.
Proof.
  induction 1.
  - apply init_inv; assumption.
  - eapply forward_inv; eassumption.
  - apply Freq_inv; assumption.
  - apply CDFs_inv; assumption.
Qed.

(** Reading [CDFs] again on the state a read leaves yields the same tables
    and the same state. *)
Lemma CDFs_reread pmf m k self :
  coder_inv m k self ->
  CDFs pmf (snd (CDFs pmf self)) = (fst (CDFs pmf self), snd (CDFs pmf self)).
Proof.
  intros (_ & Hdirty & _). rewrite (CDFs_dirty pmf self Hdirty). simpl.
  rewrite CDFs_dirty by reflexivity. reflexivity.
Qed.

(* ================================================================== *)
(** * Loops that append to a list of lists *)
(* ================================================================== *)

Lemma mapM_length {A B : Type} (f : A -> result B) l : forall l',
  mapM f l = Ok l' -> length l' = length l.
Proof.
  induction l as [|a l IH]; intros l' H; simpl in H.
  - inversion H. reflexivity.
  - apply bind_ok in H. destruct H as (b & Hb & H).
    apply bind_ok in H. destruct H as (bs & Hbs & H).
    inversion H. simpl. f_equal. apply IH. assumption.
Qed.

Lemma append_at_app {A : Type} (pre : list (list A)) r rows y :
  append_at (pre ++ r :: rows) (length pre) y
  = Ok (pre ++ (r ++ [y]) :: rows).
Proof.
  induction pre as [|p pre IH]; simpl; [reflexivity|].
  rewrite IH. reflexivity.
Qed.

Lemma length_appendCol {A : Type} (rows : list (list A)) col :
  length rows = length col -> length (appendCol rows col) = length rows.
Proof. intros H. unfold appendCol. rewrite length_map2. lia. Qed.

(** A loop [for i, x in enumerate(xs): rows[i].append(F(x))]. *)
Lemma foldM_appendCol {X Y : Type} (F : X -> result Y) :
  forall xs ys rows pre,
    mapM F xs = Ok ys -> length rows = length xs ->
    foldM (fun acc (it : nat * X) => y <- F (snd it) ;; append_at acc (fst it) y)
          (combine (seq (length pre) (length xs)) xs) (pre ++ rows)
    = Ok (pre ++ appendCol rows ys).
Proof.
  induction xs as [|x xs IH]; intros ys rows pre Hm Hl.
  - simpl in Hm. inversion Hm. destruct rows; [|discriminate]. reflexivity.
  - simpl in Hm. apply bind_ok in Hm. destruct Hm as (y & Hy & Hm).
    apply bind_ok in Hm. destruct Hm as (ys' & Hys & Hm). inversion Hm.
    subst ys. destruct rows as [|r rows]; [discriminate|].
    simpl in Hl. injection Hl as Hl.
    cbn [length seq combine foldM fst snd]. rewrite Hy. cbn [bind].
    rewrite append_at_app. cbn [bind].
    replace (pre ++ (r ++ [y]) :: rows) with ((pre ++ [r ++ [y]]) ++ rows)
      by (rewrite <- app_assoc; reflexivity).
    replace (S (length pre)) with (length (pre ++ [r ++ [y]]))
      by (rewrite length_app; simpl; lia).
    rewrite (IH ys' rows (pre ++ [r ++ [y]]) Hys Hl).
    rewrite <- app_assoc. reflexivity.
Qed.

Lemma foldM_enumerate_appendCol {X Y : Type} (F : X -> result Y) xs ys rows :
  mapM F xs = Ok ys -> length rows = length xs ->
  foldM (fun acc (it : nat * X) => y <- F (snd it) ;; append_at acc (fst it) y)
        (enumerate xs) rows
  = Ok (appendCol rows ys).
Proof.
  intros Hm Hl. exact (foldM_appendCol F xs ys rows [] Hm Hl).
Qed.

Lemma map2_map_seq {A B C : Type} (g : A -> B -> C) (f : nat -> A) d :
  forall r s,
    map2 g (map f (seq s (length r))) r
    = map (fun i => g (f i) (nth (i - s) r d)) (seq s (length r)).
Proof.
  induction r as [|x r IH]; intros s; simpl; [reflexivity|].
  rewrite Nat.sub_diag. f_equal. rewrite IH.
  apply map_ext_in. intros i Hi. apply in_seq in Hi.
  replace (i - s) with (S (i - S s)) by lia. reflexivity.
Qed.

Lemma map_const_seq {A : Type} (x : A) n s :
  map (fun _ => x) (seq s n) = repeat x n.
Proof.
  revert s. induction n as [|n IH]; intros s; simpl; [reflexivity|].
  rewrite IH. reflexivity.
Qed.

(** Appending the columns one after the other to empty rows transposes
    them. *)
Lemma appendCol_closed {A : Type} (d : A) n : forall M,
  Forall (fun r => length r = n) M ->
  fold_left appendCol M (repeat [] n)
  = map (fun i => map (fun r => nth i r d) M) (seq 0 n).
Proof.
  induction M as [|r M IH] using rev_ind; intros H.
  - simpl. rewrite map_const_seq. reflexivity.
  - apply Forall_app in H. destruct H as [HM Hr].
    inversion Hr as [|? ? Hlen _]; subst.
    rewrite fold_left_app. simpl. rewrite (IH HM).
    unfold appendCol.
    rewrite (map2_map_seq (fun r0 x => r0 ++ [x])
               (fun i => map (fun r0 => nth i r0 d) M) d r 0).
    apply map_ext. intros i. rewrite Nat.sub_0_r. rewrite map_app.
    reflexivity.
Qed.

Lemma map_nth_seq {A : Type} (l : list A) d :
  map (fun i => nth i l d) (seq 0 (length l)) = l.
Proof.
  induction l as [|a l IH]; simpl; [reflexivity|].
  f_equal. rewrite <- seq_shift, map_map. exact IH.
Qed.

Lemma combine_map_l {A B C : Type} (f : A -> B) (g : A -> C) l :
  combine (map f l) (map g l) = map (fun x => (f x, g x)) l.
Proof. induction l as [|a l IH]; simpl; [reflexivity | f_equal; exact IH]. Qed.

Lemma combine_map_repeat {A B C : Type} (f : A -> B) (c : C) l :
  combine (map f l) (repeat c (length l)) = map (fun x => (f x, c)) l.
Proof. induction l as [|a l IH]; simpl; [reflexivity | f_equal; exact IH]. Qed.

(* ================================================================== *)
(** * Slicing and stacking tensors *)
(* ================================================================== *)

Lemma Forall_firstn {A : Type} (P : A -> Prop) n l :
  Forall P l -> Forall P (firstn n l).
Proof.
  intros H. revert n. induction H; intros [|n]; simpl; constructor; auto.
Qed.

Lemma Forall_skipn {A : Type} (P : A -> Prop) n l :
  Forall P l -> Forall P (skipn n l).
Proof.
  intros H. revert n. induction H; intros [|n]; simpl; auto.
Qed.

Lemma concat_chunks {A : Type} sz : forall n (l : list A),
  length l = n * sz ->
  concat (map (fun i => firstn sz (skipn (i * sz) l)) (seq 0 n)) = l.
Proof.
  induction n as [|n IH]; intros l Hl.
  - simpl in *. destruct l; [reflexivity | discriminate].
  - cbn [seq map concat]. rewrite <- seq_shift, map_map.
    rewrite (map_ext (fun i => firstn sz (skipn (S i * sz) l))
                     (fun i => firstn sz (skipn (i * sz) (skipn sz l)))).
    + rewrite IH by (rewrite length_skipn; lia).
      simpl. apply firstn_skipn.
    + intros i. rewrite skipn_skipn. f_equal. f_equal. lia.
Qed.

Lemma unbind_rank4 {A : Type} (t : Tensor A) n m h w :
  shape t = [n; m; h; w] ->
  unbind t
  = map (fun i => mkTensor [m; h; w]
                    (firstn (numel [m; h; w])
                            (skipn (i * numel [m; h; w]) (data t))))
        (seq 0 n).
Proof. intros H. unfold unbind. rewrite H. reflexivity. Qed.

Lemma length_unbind {A : Type} (t : Tensor A) n m h w :
  shape t = [n; m; h; w] -> length (unbind t) = n.
Proof.
  intros H. rewrite (unbind_rank4 t n m h w H).
  rewrite length_map, length_seq. reflexivity.
Qed.

Lemma unbind_images {A : Type} (P : A -> Prop) (t : Tensor A) n m h w :
  shape t = [n; m; h; w] -> wf_tensor t -> Forall P (data t) ->
  Forall (fun img => shape img = [m; h; w] /\
                     length (data img) = numel [m; h; w] /\
                     Forall P (data img))
         (unbind t).
Proof.
  intros Hs Hwf HP. rewrite (unbind_rank4 t n m h w Hs).
  apply Forall_forall. intros img Hin. apply in_map_iff in Hin.
  destruct Hin as (i & <- & Hi). apply in_seq in Hi. cbn [shape data].
  split; [reflexivity|]. split.
  - unfold wf_tensor in Hwf. rewrite Hs in Hwf.
    change (numel [n; m; h; w]) with (n * numel [m; h; w]) in Hwf.
    apply firstn_length_le. rewrite length_skipn. nia.
  - apply Forall_firstn, Forall_skipn. assumption.
Qed.

Lemma shape_eqb_refl s : shape_eqb s s = true.
Proof. apply shape_eqb_true. reflexivity. Qed.

Lemma stack_unbind {A : Type} (t : Tensor A) n m h w :
  shape t = [n; m; h; w] -> wf_tensor t -> 1 <= n ->
  stack (unbind t) = Ok t.
Proof.
  intros Hs Hwf Hn. pose proof (length_unbind t n m h w Hs) as Hlen.
  pose proof (unbind_rank4 t n m h w Hs) as Hu.
  unfold stack. destruct (unbind t) as [|t0 ts] eqn:E.
  - simpl in Hlen. lia.
  - assert (Hshapes : forall x, In x (t0 :: ts) -> shape x = [m; h; w]).
    { intros x Hx. rewrite Hu in Hx. apply in_map_iff in Hx.
      destruct Hx as (i & <- & _). reflexivity. }
    replace (forallb (fun t1 => shape_eqb (shape t1) (shape t0)) (t0 :: ts))
      with true.
    + rewrite (Hshapes t0) by (left; reflexivity). rewrite Hlen.
      rewrite Hu, map_map. cbn [data].
      rewrite (concat_chunks (numel [m; h; w]) n (data t)).
      * destruct t as [shp dat]. simpl in Hs. subst shp. reflexivity.
      * unfold wf_tensor in Hwf. rewrite Hs in Hwf. exact Hwf.
    + symmetry. apply forallb_forall. intros x Hx.
      rewrite (Hshapes x Hx), (Hshapes t0) by (left; reflexivity).
      apply shape_eqb_refl.
Qed.

Lemma length_groupIndex (h w : nat) : forall gs : list nat,
  length (concat (map (fun g => repeat (Z.of_nat g) (h * w)) gs))
  = length gs * (h * w).
Proof.
  induction gs as [|g gs IH]; simpl; [reflexivity|].
  rewrite length_app, repeat_length, IH. reflexivity.
Qed.

Lemma expand_indices_same m h w :
  expand_indices m m h w
  = Ok (concat (map (fun g => repeat (Z.of_nat g) (h * w)) (seq 0 m))).
Proof. unfold expand_indices. rewrite Nat.eqb_refl. reflexivity. Qed.

Lemma Forall2_of_Forall {A B : Type} (P : A -> Prop) (R : B -> Prop) :
  forall l1 l2, length l1 = length l2 -> Forall P l1 -> Forall R l2 ->
  Forall2 (fun a b => R b /\ P a) l1 l2.
Proof.
  induction l1 as [|a l1 IH]; intros [|b l2] Hl H1 H2; simpl in Hl;
    try discriminate; constructor.
  - inversion H1; inversion H2; subst. auto.
  - inversion H1; inversion H2; subst. apply IH; auto.
Qed.

(* ================================================================== *)
(** * Round trip of [compress] and [decompress] *)
(* ================================================================== *)

Section RoundTrip.

Variable pmf : list Q -> Z -> list Z.
Variable enc :
  list Z -> list Z -> list (list Z) -> list Z -> list Z -> bytes.
Variable dec :
  bytes -> list Z -> list (list Z) -> list Z -> list Z -> list Z.

(** The contract of the rANS coder (specification, section 4.5):
    decoding with the identical index, CDF, size and offset arrays
    yields exactly the original symbol sequence. *)
Hypothesis rans_roundtrip :
  forall symbols idx cdf cdfSizes offsets,
    coder_input_ok symbols idx cdf cdfSizes offsets ->
    dec (enc symbols idx cdf cdfSizes offsets) idx cdf cdfSizes offsets
    = symbols.

Lemma image_input_ok m h w K (cdf : list (list Z)) (symbols : list Z) :
  length cdf = m ->
  length symbols = numel [m; h; w] ->
  Forall (fun s => (0 <= s < Z.of_nat K)%Z) symbols ->
  coder_input_ok symbols
    (concat (map (fun g => repeat (Z.of_nat g) (h * w)) (seq 0 m)))
    cdf (repeat (Z.of_nat K + 2)%Z m) (repeat 0%Z (length symbols)).
Proof.
  intros Hcdf Hlen Hrange. unfold coder_input_ok.
  split; [rewrite repeat_length; congruence|]. split; [reflexivity|].
  assert (H2 : Forall2
                 (fun s g =>
                    ((0 <= g < Z.of_nat m)%Z /\
                     nth (Z.to_nat g) (repeat (Z.of_nat K + 2)%Z m) 0%Z
                     = (Z.of_nat K + 2)%Z) /\
                    (0 <= s < Z.of_nat K)%Z)
                 symbols
                 (concat (map (fun g => repeat (Z.of_nat g) (h * w))
                              (seq 0 m)))).
  { apply Forall2_of_Forall.
    - rewrite length_groupIndex, length_seq, Hlen. simpl. lia.
    - assumption.
    - apply Forall_concat. apply Forall_forall. intros l Hl.
      apply in_map_iff in Hl. destruct Hl as (g & <- & Hg).
      apply in_seq in Hg. apply Forall_forall. intros x Hx.
      apply repeat_spec in Hx. subst x. split; [lia|].
      rewrite Nat2Z.id. apply nth_repeat_lt. lia. }
  revert H2. apply Forall2_impl.
  intros s g ((Hg & Hsize) & Hs). rewrite Hcdf, Hsize. lia.
Qed.

(** One image of one level survives encoding and decoding. *)
Lemma image_roundtrip m h w K cdf codeSize img :
  cs_m codeSize = m ->
  length cdf = m ->
  shape img = [m; h; w] ->
  length (data img) = numel [m; h; w] ->
  Forall (fun s => (0 <= s < Z.of_nat K)%Z) (data img) ->
  exists b,
    encodeImage enc m K cdf img = Ok b /\
    decodeImage dec m codeSize (b, (cdf, (K, (h, w)))) = Ok img.
Proof.
  intros Hm Hcdf Hs Hlen Hrange.
  unfold encodeImage. rewrite Hs, expand_indices_same. cbn [bind].
  eexists. split; [reflexivity|].
  unfold decodeImage. rewrite Hm, expand_indices_same. cbn [bind].
  rewrite <- Hlen.
  rewrite rans_roundtrip by (apply image_input_ok; assumption).
  unfold reshape. rewrite Hlen, Nat.eqb_refl.
  destruct img as [shp dat]. simpl in Hs. subst shp. reflexivity.
Qed.

Lemma mapM_Forall2 {A B : Type} (f : A -> result B) (R : B -> A -> Prop) l :
  Forall (fun a => exists b, f a = Ok b /\ R b a) l ->
  exists l', mapM f l = Ok l' /\ Forall2 R l' l.
Proof.
  induction 1 as [|a l (b & Hb & HR) Hl (l' & Hl' & HF)]; simpl.
  - exists []. split; [reflexivity | constructor].
  - exists (b :: l'). rewrite Hb, Hl'. split; [reflexivity|].
    constructor; assumption.
Qed.

Lemma Forall2_nth {A B : Type} (R : A -> B -> Prop) l1 l2 d1 d2 i :
  Forall2 R l1 l2 -> i < length l1 -> R (nth i l1 d1) (nth i l2 d2).
Proof.
  intros H. revert i. induction H; intros [|i] Hi; simpl in *;
    try lia; auto. apply IHForall2. lia.
Qed.

(** All images of one level survive encoding and decoding. *)
Lemma level_roundtrip n m codeSize lvl d :
  level_ok n m lvl -> cs_m codeSize = m ->
  mapM (encodeImage enc m (fst (snd lvl)) (snd (snd lvl)))
       (unbind (fst lvl)) = Ok (levelBinaries enc m lvl) /\
  length (levelBinaries enc m lvl) = n /\
  forall i, i < n ->
    decodeImage dec m codeSize
      (nth i (levelBinaries enc m lvl) [],
       (snd (snd lvl),
        (fst (snd lvl), (heightOf (fst lvl), widthOf (fst lvl)))))
    = Ok (nth i (unbind (fst lvl)) d).
Proof.
  destruct lvl as [code [K cdf]]. unfold level_ok, code_ok. cbn [fst snd].
  intros (((h & w & Hs) & Hwf & Hrange) & Hcdf) Hm.
  unfold heightOf, widthOf. rewrite Hs. cbn [nth].
  destruct (mapM_Forall2 (encodeImage enc m K cdf)
              (fun b img =>
                 decodeImage dec m codeSize (b, (cdf, (K, (h, w))))
                 = Ok img)
              (unbind code)) as (E & HE & HF).
  { pose proof (unbind_images _ code n m h w Hs Hwf Hrange) as Himgs.
    revert Himgs. apply Forall_impl. intros img (H1 & H2 & H3).
    apply image_roundtrip; assumption. }
  unfold levelBinaries. cbn [fst snd]. rewrite HE.
  pose proof (mapM_length _ _ _ HE) as HlenE.
  rewrite (length_unbind code n m h w Hs) in HlenE.
  split; [reflexivity|]. split; [assumption|].
  intros i Hi. apply (Forall2_nth _ E (unbind code) [] d i HF). lia.
Qed.

Lemma compressImage_body m K cdf acc (it : nat * Tensor Z) :
  compressImage enc m K cdf acc it
  = (y <- encodeImage enc m K cdf (snd it) ;; append_at acc (fst it) y).
Proof. destruct it. reflexivity. Qed.

Lemma decompressLevel_body m codeSize acc
    (it : nat * (bytes * (list (list Z) * (nat * (nat * nat))))) :
  decompressLevel dec m codeSize acc it
  = (y <- decodeImage dec m codeSize (snd it) ;; append_at acc (fst it) y).
Proof. destruct it. reflexivity. Qed.

(** The loop of [compress] over the levels. *)
Lemma compress_loop n m : forall LV compressed hs ws,
  Forall (level_ok n m) LV -> length compressed = n ->
  foldM (compressLevel enc m) LV (compressed, hs, ws)
  = Ok (fold_left appendCol (map (levelBinaries enc m) LV) compressed,
        hs ++ map (fun lvl => heightOf (fst lvl)) LV,
        ws ++ map (fun lvl => widthOf (fst lvl)) LV).
Proof.
  induction LV as [|lvl LV IH]; intros compressed hs ws Hok Hlen.
  - simpl. rewrite !app_nil_r. reflexivity.
  - apply Forall_cons_iff in Hok. destruct Hok as [Hlvl HLV].
    destruct (level_roundtrip n m (mkCodeSize m [] [] []) lvl
                (mkTensor [] []) Hlvl eq_refl) as (HE & HlenE & _).
    destruct lvl as [code [K cdf]].
    pose proof Hlvl as (((h & w & Hs) & _) & _). cbn [fst snd] in *.
    cbn [foldM]. unfold compressLevel at 1. rewrite Hs.
    rewrite (foldM_ext _ _ _ (fun s a _ => compressImage_body m K cdf s a)).
    rewrite (foldM_enumerate_appendCol _ _ _ _ HE)
      by (rewrite (length_unbind code n m h w Hs); assumption).
    cbn [bind].
    rewrite IH by (try assumption;
                   rewrite length_appendCol; congruence).
    unfold heightOf, widthOf. cbn [map fold_left fst]. rewrite Hs.
    cbn [nth]. rewrite <- !app_assoc. reflexivity.
Qed.

Lemma decompressLoop_const m st tables :
  CDFs pmf st = (tables, st) ->
  forall items codes,
    decompressLoop pmf dec m st items codes
    = (foldM (fun acc (it : list bytes * CodeSize) =>
                foldM (decompressLevel dec m (snd it))
                      (enumerate
                         (combine (fst it)
                            (combine tables
                               (combine (_k st)
                                  (combine (cs_heights (snd it))
                                           (cs_widths (snd it)))))))
                      acc)
             items codes,
       st).
Proof.
  intros HC. induction items as [|[binary codeSize] items IH];
    intros codes; cbn [decompressLoop foldM fst snd].
  - reflexivity.
  - rewrite HC.
    destruct (foldM (decompressLevel dec m codeSize) _ codes)
      as [codes'|msg]; cbn [bind]; [apply IH | reflexivity].
Qed.

Lemma mapM_map_map {A B C : Type} (f : B -> result C) (g : A -> B)
    (h : A -> C) l :
  (forall a, In a l -> f (g a) = Ok (h a)) ->
  mapM f (map g l) = Ok (map h l).
Proof.
  induction l as [|a l IH]; intros H; simpl; [reflexivity|].
  rewrite (H a) by (left; reflexivity). cbn [bind].
  rewrite IH by (intros; apply H; right; assumption). reflexivity.
Qed.

(** The inner loop of [decompress] on the binaries of image [i]. *)
Lemma decode_row n m LV i codes d :
  Forall (level_ok n m) LV -> i < n -> length codes = length LV ->
  let codeSize :=
    mkCodeSize m (map (fun lvl => heightOf (fst lvl)) LV)
               (map (fun lvl => widthOf (fst lvl)) LV)
               (map (fun lvl => fst (snd lvl)) LV) in
  foldM (decompressLevel dec m codeSize)
        (enumerate
           (combine (map (fun lvl => nth i (levelBinaries enc m lvl) []) LV)
              (combine (map (fun lvl => snd (snd lvl)) LV)
                 (combine (map (fun lvl => fst (snd lvl)) LV)
                    (combine (cs_heights codeSize) (cs_widths codeSize))))))
        codes
  = Ok (appendCol codes (map (fun lvl => nth i (unbind (fst lvl)) d) LV)).
Proof.
  intros Hok Hi Hlen codeSize. cbn [cs_heights cs_widths codeSize].
  rewrite !combine_map_l.
  rewrite (foldM_ext _ _ _
             (fun s a _ => decompressLevel_body m codeSize s a)).
  apply foldM_enumerate_appendCol; [|rewrite length_map; assumption].
  apply mapM_map_map. intros lvl Hin.
  rewrite Forall_forall in Hok.
  destruct (level_roundtrip n m codeSize lvl d (Hok lvl Hin) eq_refl)
    as (_ & _ & Hdec).
  apply Hdec. assumption.
Qed.

(** The loop of [decompress] over the images. *)
Lemma decode_rows n m LV tables kk d :
  Forall (level_ok n m) LV ->
  tables = map (fun lvl => snd (snd lvl)) LV ->
  kk = map (fun lvl => fst (snd lvl)) LV ->
  let codeSize :=
    mkCodeSize m (map (fun lvl => heightOf (fst lvl)) LV)
               (map (fun lvl => widthOf (fst lvl)) LV) kk in
  forall (images : list nat) codes,
    Forall (fun i => i < n) images -> length codes = length LV ->
    foldM (fun acc (it : list bytes * CodeSize) =>
             foldM (decompressLevel dec m (snd it))
                   (enumerate
                      (combine (fst it)
                         (combine tables
                            (combine kk
                               (combine (cs_heights (snd it))
                                        (cs_widths (snd it)))))))
                   acc)
          (map (fun i =>
                  (map (fun lvl => nth i (levelBinaries enc m lvl) []) LV,
                   codeSize))
               images)
          codes
    = Ok (fold_left appendCol
            (map (fun i => map (fun lvl => nth i (unbind (fst lvl)) d) LV)
                 images)
            codes).
Proof.
  intros Hok -> -> codeSize. subst codeSize.
  induction images as [|i images IH]; intros codes Hi Hlen;
    [reflexivity|].
  apply Forall_cons_iff in Hi. destruct Hi as [Hi His].
  cbn [map foldM fst snd].
  pose proof (decode_row n m LV i codes d Hok Hi Hlen) as Hrow.
  cbv zeta in Hrow. rewrite Hrow. cbn [bind].
  apply IH; [assumption|].
  rewrite length_appendCol; rewrite ?length_map; congruence.
Qed.

Lemma combine3_Forall {A B C : Type} (R : A -> B -> Prop) (P : C -> Prop) :
  forall l1 l2 l3,
    Forall2 R l1 l2 -> Forall P l3 ->
    Forall (fun x => R (fst x) (fst (snd x)) /\ P (snd (snd x)))
           (combine l1 (combine l2 l3)).
Proof.
  intros l1 l2 l3 H. revert l3.
  induction H as [|a b l1 l2 Hab H IH]; intros [|c l3] HP; simpl;
    try constructor.
  - inversion HP; subst. simpl. auto.
  - inversion HP; subst. apply IH. assumption.
Qed.

Lemma combine3_maps {A B C : Type} : forall (l1 : list A) (l2 : list B)
    (l3 : list C),
  length l1 = length l2 -> length l2 = length l3 ->
  map fst (combine l1 (combine l2 l3)) = l1 /\
  map (fun x => fst (snd x)) (combine l1 (combine l2 l3)) = l2 /\
  map (fun x => snd (snd x)) (combine l1 (combine l2 l3)) = l3.
Proof.
  induction l1 as [|a l1 IH]; intros [|b l2] [|c l3] H1 H2;
    simpl in *; try discriminate; auto.
  injection H1 as H1. injection H2 as H2.
  destruct (IH l2 l3 H1 H2) as (E1 & E2 & E3).
  rewrite E1, E2, E3. auto.
Qed.

Lemma Forall2_In_l {A B : Type} (R : A -> B -> Prop) l1 l2 a :
  Forall2 R l1 l2 -> In a l1 -> exists b, In b l2 /\ R a b.
Proof.
  induction 1 as [|x y l1 l2 Hxy H IH]; intros Hin; [contradiction|].
  destruct Hin as [<- | Hin].
  - exists y. split; [left; reflexivity | assumption].
  - destruct (IH Hin) as (b & Hb & HR). exists b. split; [right|]; auto.
Qed.

Lemma cols_to_rows {X : Type} (XS : list (list X)) n td :
  Forall (fun xs => length xs = n) XS ->
  map (fun l =>
         map (fun c => nth l c td)
             (map (fun i => map (fun xs => nth i xs td) XS) (seq 0 n)))
      (seq 0 (length XS))
  = XS.
Proof.
  intros H.
  transitivity (map (fun l => nth l XS []) (seq 0 (length XS)));
    [|apply map_nth_seq].
  apply map_ext_in. intros l Hl. apply in_seq in Hl.
  rewrite map_map.
  assert (Hn : length (nth l XS []) = n).
  { rewrite Forall_forall in H. apply H. apply nth_In. lia. }
  transitivity (map (fun i => nth i (nth l XS []) td) (seq 0 n));
    [|rewrite <- Hn; apply map_nth_seq].
  apply map_ext. intros i.
  rewrite (nth_indep _ td (nth i [] td)) by (rewrite length_map; lia).
  rewrite (map_nth (fun xs => nth i xs td) XS []). reflexivity.
Qed.

(** C1. For a reachable coder and a non-empty list of code tensors, one
    per level, each of shape [n, m, h, w] with [n >= 1] and every value
    within its level's alphabet, [compress] succeeds and [decompress],
    given the returned binaries and headers under the same CDF state,
    returns exactly the original code tensors. *)
Theorem compress_decompress_roundtrip :
  forall (m : nat) (k : list nat) (self : EntropyCoder) (n : nat)
         (codes : list (Tensor Z)),
    reachable pmf m k self ->
    1 <= n ->
    codes <> [] ->
    Forall2 (code_ok n m) codes k ->
    exists binaries codeSizes self',
      compress pmf enc self codes = (Ok (binaries, codeSizes), self') /\
      decompress pmf dec self' binaries codeSizes = (Ok codes, self').
Proof.
  intros m k self n codes Hreach Hn Hne Hcodes.
  pose proof (reachable_inv pmf m k self Hreach)
    as (Hk & Hdirty & Hshape & _).
  set (tables := buildCDFs pmf (map (map normalize16) (_freqEMA self))).
  set (LV := combine codes (combine k tables)).
  assert (Hlt : length k = length tables).
  { unfold tables, buildCDFs. rewrite !length_map. symmetry.
    apply (Forall2_length Hshape). }
  assert (Hlc : length codes = length k) by apply (Forall2_length Hcodes).
  assert (Htab : Forall (fun c : list (list Z) => length c = m) tables).
  { unfold tables, buildCDFs. apply Forall_forall. intros c Hc.
    apply in_map_iff in Hc. destruct Hc as (f & <- & Hf).
    apply in_map_iff in Hf. destruct Hf as (F & <- & HF).
    rewrite !length_map.
    destruct (Forall2_In_l _ _ _ F Hshape HF) as (ki & _ & HFs).
    apply mat_shape_rows in HFs. tauto. }
  assert (HLV : Forall (level_ok n m) LV).
  { unfold LV.
    apply (combine3_Forall (code_ok n m)
             (fun c : list (list Z) => length c = m)); assumption. }
  destruct (combine3_maps codes k tables Hlc Hlt) as (E1 & E2 & E3).
  fold LV in E1, E2, E3.
  assert (Hcheck : _checkShape codes = Ok (n, m)).
  { apply checkShape_ok. split; [assumption|]. split; [assumption|].
    apply Forall_forall. intros c Hc.
    destruct (Forall2_In_l _ _ _ c Hcodes Hc) as (K & _ & (h & w & Hs) & _).
    unfold dim. rewrite Hs. split; reflexivity. }
  set (self' := {| _freqEMA := _freqEMA self; _k := _k self;
                   _decay := _decay self; cdfs := Some tables;
                   freq := Some (map (map normalize16) (_freqEMA self));
                   needUpdate := true |}).
  set (codeSize := mkCodeSize m (map (fun lvl => heightOf (fst lvl)) LV)
                     (map (fun lvl => widthOf (fst lvl)) LV) k).
  set (row := fun i : nat =>
                map (fun lvl => nth i (levelBinaries enc m lvl) []) LV).
  exists (map row (seq 0 n)), (repeat codeSize n), self'.
  assert (Hbin : fold_left appendCol (map (levelBinaries enc m) LV)
                           (repeat [] n)
                 = map row (seq 0 n)).
  { rewrite (appendCol_closed [] n).
    - apply map_ext. intros i. unfold row. apply map_map.
    - apply Forall_forall. intros E HE. apply in_map_iff in HE.
      destruct HE as (lvl & <- & Hlvl). rewrite Forall_forall in HLV.
      destruct (level_roundtrip n m codeSize lvl (mkTensor [] [])
                  (HLV lvl Hlvl) eq_refl) as (_ & Hlen & _).
      exact Hlen. }
  split.
  - unfold compress. rewrite Hcheck. rewrite (CDFs_dirty pmf self Hdirty).
    fold tables. fold self'. rewrite Hk. fold LV.
    rewrite (compress_loop n m LV (repeat [] n) [] [] HLV)
      by apply repeat_length.
    cbn [bind app]. rewrite Hbin. reflexivity.
  - assert (HC : CDFs pmf self' = (tables, self')).
    { rewrite CDFs_dirty by reflexivity. reflexivity. }
    unfold decompress.
    destruct n as [|n']; [lia|].
    cbn [seq map repeat]. fold (row 0).
    change (row 0 :: map row (seq 1 n')) with (map row (seq 0 (S n'))).
    change (codeSize :: repeat codeSize n') with (repeat codeSize (S n')).
    rewrite (decompressLoop_const (cs_m codeSize) self' tables HC).
    replace (repeat codeSize (S n'))
      with (repeat codeSize (length (seq 0 (S n'))))
      by (rewrite length_seq; reflexivity).
    rewrite combine_map_repeat.
    assert (Hrow0 : length (row 0) = length LV)
      by (unfold row; apply length_map).
    rewrite Hrow0.
    pose proof (decode_rows (S n') m LV tables k (mkTensor [] []) HLV
                  (eq_sym E3) (eq_sym E2) (seq 0 (S n'))
                  (repeat [] (length LV))) as Hrows.
    cbv zeta in Hrows. fold codeSize in Hrows.
    change (_k self') with (_k self). rewrite Hk.
    change (cs_m codeSize) with m. unfold row.
    rewrite Hrows;
      [| apply Forall_forall; intros i Hi; apply in_seq in Hi; lia
       | apply repeat_length].
    cbn [bind].
    rewrite (appendCol_closed (mkTensor [] []) (length LV)).
    + rewrite (map_ext
                 (fun i => map (fun lvl => nth i (unbind (fst lvl))
                                             (mkTensor [] [])) LV)
                 (fun i => map (fun xs => nth i xs (mkTensor [] []))
                               (map (fun lvl => unbind (fst lvl)) LV)))
        by (intros i; rewrite map_map; reflexivity).
      replace (length LV)
        with (length (map (fun lvl => unbind (fst lvl)) LV))
        by apply length_map.
      rewrite cols_to_rows.
      * rewrite (mapM_map_map (@stack Z) (fun lvl => unbind (fst lvl)) fst).
        -- rewrite E1. reflexivity.
        -- intros lvl Hlvl. rewrite Forall_forall in HLV.
           destruct (HLV lvl Hlvl) as (((h & w & Hs) & Hwf & _) & _).
           apply (stack_unbind _ (S n') m h w); assumption.
      * apply Forall_forall. intros xs Hxs. apply in_map_iff in Hxs.
        destruct Hxs as (lvl & <- & Hlvl). rewrite Forall_forall in HLV.
        destruct (HLV lvl Hlvl) as (((h & w & Hs) & _) & _).
        apply (length_unbind _ (S n') m h w Hs).
    + apply Forall_forall. intros c Hc. apply in_map_iff in Hc.
      destruct Hc as (i & <- & _). apply length_map.
Qed.

End RoundTrip.

Lemma unary_decode_run (k : nat) : forall (run : Z) (rest : bytes),
  unary_decode_from run (repeat x01 k ++ x00 :: rest)
  = (run + Z.of_nat k)%Z :: unary_decode_from 0%Z rest.
Proof.
  induction k as [|k IH]; intros run rest.
  - simpl. rewrite Z.add_0_r. reflexivity.
  - cbn [repeat app unary_decode_from]. rewrite IH. f_equal. lia.
Qed.

Lemma unary_decode_encode (symbols : list Z) :
  Forall (fun s => (0 <= s)%Z) symbols ->
  unary_decode_from 0%Z
    (flat_map (fun s => repeat x01 (Z.to_nat s) ++ [x00]) symbols)
  = symbols.
Proof.
  induction 1 as [|s symbols Hs _ IH]; [reflexivity|].
  cbn [flat_map]. rewrite <- app_assoc. cbn [app].
  rewrite unary_decode_run, IH. f_equal. lia.
Qed.

(** The unary coder honours the coder contract. *)
Lemma unary_roundtrip :
  forall symbols idx cdf cdfSizes offsets,
    coder_input_ok symbols idx cdf cdfSizes offsets ->
    unary_decode (unary_encode symbols idx cdf cdfSizes offsets)
                 idx cdf cdfSizes offsets
    = symbols.
Proof.
  intros symbols idx cdf cdfSizes offsets (_ & _ & H).
  unfold unary_decode, unary_encode. apply unary_decode_encode.
  clear -H. induction H as [|s g ? ? [_ Hs] _ IH]; constructor;
    [lia | assumption].
Qed.

Lemma compress_decompress_roundtrip_witness :
  exists binaries codeSizes self',
    compress pmfToQuantizedCDF unary_encode (init 2 [4] (99 # 100))
             [mkTensor [1; 2; 2; 2] [0; 1; 2; 3; 3; 2; 1; 0]%Z]
    = (Ok (binaries, codeSizes), self') /\
    decompress pmfToQuantizedCDF unary_decode self' binaries codeSizes
    = (Ok [mkTensor [1; 2; 2; 2] [0; 1; 2; 3; 3; 2; 1; 0]%Z], self').
Proof.
  apply (compress_decompress_roundtrip pmfToQuantizedCDF unary_encode
           unary_decode unary_roundtrip 2 [4] (init 2 [4] (99 # 100)) 1).
  - apply reach_init; unfold Qle; simpl; lia.
  - lia.
  - discriminate.
  - constructor; [|constructor].
    split; [exists 2, 2; reflexivity|]. split; [reflexivity|].
    cbn [data]. repeat (apply Forall_cons; [lia|]). apply Forall_nil.
Defined.

(* ================================================================== *)
(** * Rounding and the exposed frequencies *)
(* ================================================================== *)

Lemma Qltb_true a b : Qltb a b = true <-> (a < b)%Q.
Proof.
  unfold Qltb. rewrite negb_true_iff. split.
  - intros H. apply Qnot_le_lt. intros Hle.
    apply Qle_bool_iff in Hle. congruence.
  - intros H. destruct (Qle_bool b a) eqn:E; [|reflexivity].
    apply Qle_bool_iff in E. exfalso. apply (Qlt_not_le _ _ H E).
Qed.

Lemma Qltb_false a b : Qltb a b = false <-> (b <= a)%Q.
Proof.
  unfold Qltb. rewrite negb_false_iff. apply Qle_bool_iff.
Qed.

Lemma inject_Z_succ z : (inject_Z (z + 1) == inject_Z z + 1)%Q.
Proof. rewrite inject_Z_plus. reflexivity. Qed.

(** [torch.round] moves a value by at most one half. *)
Lemma round_half_even_near q :
  (inject_Z (round_half_even q) - (1 # 2) <= q)%Q /\
  (q <= inject_Z (round_half_even q) + (1 # 2))%Q.
Proof.
  unfold round_half_even.
  pose proof (Qfloor_le q) as Hlo. pose proof (Qlt_floor q) as Hhi.
  rewrite inject_Z_succ in Hhi.
  destruct (Qltb (q - inject_Z (Qfloor q)) (1 # 2)) eqn:E1.
  - apply Qltb_true in E1. split; lra.
  - apply Qltb_false in E1.
    destruct (Qltb (1 # 2) (q - inject_Z (Qfloor q))) eqn:E2.
    + rewrite inject_Z_succ. split; lra.
    + apply Qltb_false in E2.
      destruct (Z.even (Qfloor q)); [|rewrite inject_Z_succ]; split; lra.
Qed.

Lemma round_half_even_nonneg q : (0 <= q)%Q -> (0 <= round_half_even q)%Z.
Proof.
  intros Hq. assert (Hf : (0 <= Qfloor q)%Z).
  { rewrite <- (Qfloor_Z 0). apply Qfloor_resp_le. exact Hq. }
  unfold round_half_even.
  destruct (Qltb _ _); [assumption|].
  destruct (Qltb _ _); [lia|]. destruct (Z.even _); lia.
Qed.


Lemma Qsum_const {A : Type} (c : Q) (l : list A) :
  (Qsum (map (fun _ => c) l) == inject_Z (Z.of_nat (length l)) * c)%Q.
Proof.
  induction l as [|a l IH]; [simpl; ring|].
  change (Qsum (map (fun _ : A => c) (a :: l)))
    with (c + Qsum (map (fun _ : A => c) l))%Q.
  change (length (a :: l)) with (S (length l)).
  rewrite IH, Nat2Z.inj_succ.
  unfold Z.succ. rewrite inject_Z_plus. ring.
Qed.

Lemma Qsum_cons e l : Qsum (e :: l) = (e + Qsum l)%Q.
Proof. reflexivity. Qed.

Lemma Zsum_cons z l : Zsum (z :: l) = (z + Zsum l)%Z.
Proof. reflexivity. Qed.




Lemma Forall2_map_r {A B : Type} (R : A -> B -> Prop) (f : A -> B) l :
  (forall a, In a l -> R a (f a)) -> Forall2 R l (map f l).
Proof.
  induction l as [|a l IH]; intros H; simpl; constructor.
  - apply H. left. reflexivity.
  - apply IH. intros; apply H; right; assumption.
Qed.


Lemma Qdiv_nonneg a b : (0 <= a)%Q -> (0 <= b)%Q -> (0 <= a / b)%Q.
Proof.
  intros Ha Hb. unfold Qdiv. apply Qmult_le_0_compat; [assumption|].
  apply Qinv_le_0_compat. assumption.
Qed.

Lemma normalize16_nonneg row :
  Forall (fun e => (0 <= e)%Q) row ->
  Forall (fun fi => (0 <= fi)%Z) (normalize16 row).
Proof.
  intros H. unfold normalize16. apply Forall_forall. intros fi Hfi.
  apply in_map_iff in Hfi. destruct Hfi as (e & <- & He).
  apply round_half_even_nonneg. apply Qmult_le_0_compat; [|discriminate].
  apply Qdiv_nonneg; [|apply Qsum_nonneg; assumption].
  rewrite Forall_forall in H. apply H. assumption.
Qed.




Lemma Qsum_ge_member row :
  Forall (fun e => (0 <= e)%Q) row ->
  forall e, In e row -> (e <= Qsum row)%Q.
Proof.
  induction 1 as [|a row Ha Hrow IH]; intros e Hin; [destruct Hin|].
  rewrite Qsum_cons. destruct Hin as [<- | Hin].
  - pose proof (Qsum_nonneg row Hrow). lra.
  - specialize (IH e Hin). lra.
Qed.

(** The share of an entry in its row is at most one. *)
Lemma share_le_1 e s : (0 <= e)%Q -> (e <= s)%Q -> (e / s <= 1)%Q.
Proof.
  intros He Hes.
  destruct (Qlt_le_dec 0 s) as [Hs | Hs].
  - apply Qle_shift_div_r; [exact Hs | lra].
  - assert (Hs0 : (s == 0)%Q) by lra.
    unfold Qdiv. rewrite Hs0.
    assert (H0 : (/ 0 == 0)%Q) by reflexivity.
    rewrite H0. lra.
Qed.

Lemma normalize16_le row :
  Forall (fun e => (0 <= e)%Q) row ->
  Forall (fun fi => (fi <= 65536)%Z) (normalize16 row).
Proof.
  intros Hrow. unfold normalize16. apply Forall_forall.
  intros fi Hfi. apply in_map_iff in Hfi. destruct Hfi as (e & <- & He).
  pose proof (Qsum_ge_member row Hrow e He) as Hle.
  rewrite Forall_forall in Hrow. specialize (Hrow e He).
  pose proof (share_le_1 e (Qsum row) Hrow Hle) as Hshare.
  destruct (round_half_even_near (e / Qsum row * 65536)) as [Hlo _].
  set (r := round_half_even (e / Qsum row * 65536)) in *.
  assert (Hq : (inject_Z r <= inject_Z 65536 + (1 # 2))%Q).
  { change (inject_Z 65536) with 65536%Q. lra. }
  destruct (Z_le_gt_dec r 65536) as [Hr | Hr]; [exact Hr|].
  exfalso. assert (Hr' : (65537 <= r)%Z) by lia.
  rewrite Zle_Qle in Hr'. change (inject_Z 65537) with 65537%Q in Hr'.
  change (inject_Z 65536) with 65536%Q in Hq. lra.
Qed.







(* ================================================================== *)
(** * The quantized CDF tables *)
(* ================================================================== *)

Lemma inject_Z_nonneg z : (0 <= z)%Z -> (0 <= inject_Z z)%Q.
Proof.
  intros H. change 0%Q with (inject_Z 0). rewrite <- Zle_Qle. assumption.
Qed.

Lemma inject_Z_pos z : (0 < z)%Z -> (0 < inject_Z z)%Q.
Proof.
  intros H. change 0%Q with (inject_Z 0). rewrite <- Zlt_Qlt. assumption.
Qed.

Lemma Qsum_inject_div (t : Q) l :
  (Qsum (map (fun f => inject_Z f / t) l) == inject_Z (Zsum l) / t)%Q.
Proof.
  induction l as [|z l IH]; [simpl; unfold Qdiv; ring|].
  rewrite map_cons, Qsum_cons, Zsum_cons, IH, inject_Z_plus.
  unfold Qdiv. ring.
Qed.

(** The vector handed to the CDF quantizer is a probability vector. *)
Lemma probOfGroup_pmf f :
  Forall (fun fi => (0 <= fi)%Z) f ->
  Forall (fun p => (0 <= p)%Q) (probOfGroup f) /\
  (Qsum (probOfGroup f) <= 1)%Q.
Proof.
  intros Hf. unfold probOfGroup. destruct (Zsum f <? 1)%Z eqn:E.
  - assert (HK : (0 <= inject_Z (Z.of_nat (length f)))%Q).
    { apply inject_Z_nonneg. lia. }
    split.
    + apply Forall_forall. intros p Hp. apply in_map_iff in Hp.
      destruct Hp as (x & <- & _). apply Qdiv_nonneg; [discriminate|].
      assumption.
    + rewrite Qsum_const. destruct (length f) as [|K'] eqn:EK.
      * simpl. discriminate.
      * assert (Hne : ~ (inject_Z (Z.of_nat (S K')) == 0)%Q).
        { intros H0. unfold Qeq in H0. simpl in H0. lia. }
        setoid_replace (inject_Z (Z.of_nat (S K'))
                        * (1 / inject_Z (Z.of_nat (S K'))))%Q
          with 1%Q by (field; assumption).
        apply Qle_refl.
  - apply Z.ltb_ge in E.
    assert (Ht : (0 < inject_Z (Zsum f))%Q) by (apply inject_Z_pos; lia).
    split.
    + apply Forall_forall. intros p Hp. apply in_map_iff in Hp.
      destruct Hp as (x & <- & Hx). apply Qdiv_nonneg.
      * rewrite Forall_forall in Hf. apply inject_Z_nonneg, Hf, Hx.
      * apply Qlt_le_weak. assumption.
    + rewrite Qsum_inject_div.
      setoid_replace (inject_Z (Zsum f) / inject_Z (Zsum f))%Q with 1%Q;
        [apply Qle_refl|].
      field. intros H0. rewrite H0 in Ht. apply (Qlt_irrefl 0). exact Ht.
Qed.

Lemma length_cumsum_from l : forall acc,
  length (cumsum_from acc l) = length l.
Proof. induction l as [|p l IH]; intros acc; simpl; auto. Qed.

(** The scaled, truncated running sums are non-decreasing and stay below
    the top sentinel. *)
Lemma cdf_sorted (N : Z) : (0 <= N)%Z -> forall pmf acc lo,
  Forall (fun p => (0 <= p)%Q) pmf ->
  (lo <= Qfloor (acc * inject_Z N))%Z ->
  (acc + Qsum pmf <= 1)%Q ->
  nondecreasing
    (lo :: map (fun c => Qfloor (c * inject_Z N)) (cumsum_from acc pmf)
        ++ [N]).
Proof.
  intros HN. assert (HNq : (0 <= inject_Z N)%Q) by (apply inject_Z_nonneg; lia).
  induction pmf as [|p pmf IH]; intros acc lo Hp Hlo Hsum.
  - simpl. split; [|exact I]. simpl in Hsum.
    apply (Z.le_trans _ _ _ Hlo). rewrite <- (Qfloor_Z N) at 2.
    apply Qfloor_resp_le.
    setoid_replace (inject_Z N) with (1 * inject_Z N)%Q at 2 by ring.
    apply Qmult_le_compat_r; [lra | assumption].
  - apply Forall_cons_iff in Hp. destruct Hp as [Hp0 Hp].
    rewrite Qsum_cons in Hsum.
    cbn [cumsum_from map app]. split.
    + apply (Z.le_trans _ _ _ Hlo). apply Qfloor_resp_le.
      apply Qmult_le_compat_r; [lra | assumption].
    + apply IH; [assumption | apply Z.le_refl | lra].
Qed.

Lemma pmfToQuantizedCDF_valid pmf :
  Forall (fun p => (0 <= p)%Q) pmf -> (Qsum pmf <= 1)%Q ->
  valid_cdf (length pmf) (pmfToQuantizedCDF pmf 16).
Proof.
  intros Hp Hs. unfold valid_cdf, pmfToQuantizedCDF.
  change (2 ^ 16)%Z with 65536%Z.
  split; [|split; [|split]].
  - cbn [length]. rewrite length_app, length_map.
    unfold cumsum. rewrite length_cumsum_from. simpl. lia.
  - reflexivity.
  - rewrite app_comm_cons. apply last_last.
  - unfold cumsum. apply (cdf_sorted 65536).
    + lia.
    + assumption.
    + vm_compute. discriminate.
    + lra.
Qed.

Lemma Forall2_map_from {A B C : Type} (R : A -> B -> Prop)
    (T : B -> C -> Prop) (g : A -> C) l1 l2 :
  Forall2 R l1 l2 ->
  (forall a b, In a l1 -> R a b -> T b (g a)) ->
  Forall2 T l2 (map g l1).
Proof.
  induction 1 as [|a b l1 l2 Hab H IH]; intros Hg; simpl; constructor.
  - apply Hg; [left; reflexivity | assumption].
  - apply IH. intros a' b' Hin. apply Hg. right. assumption.
Qed.

Lemma length_probOfGroup f : length (probOfGroup f) = length f.
Proof.
  unfold probOfGroup. destruct (Zsum f <? 1)%Z; apply length_map.
Qed.

Lemma group_cdf_valid row :
  Forall (fun e => (0 <= e)%Q) row ->
  valid_cdf (length row)
            (pmfToQuantizedCDF (probOfGroup (normalize16 row)) 16).
Proof.
  intros Hrow.
  destruct (probOfGroup_pmf (normalize16 row)
              (normalize16_nonneg row Hrow)) as [Hp Hs].
  pose proof (pmfToQuantizedCDF_valid _ Hp Hs) as Hv.
  rewrite length_probOfGroup in Hv. unfold normalize16 in Hv at 1.
  rewrite length_map in Hv. exact Hv.
Qed.

(** C2. For every level (alphabet size [K]) and every group, the table
    produced by [EntropyCoder.CDFs] is a non-decreasing integer sequence
    of length [K + 2] that starts at [0] and ends at [2^16 = 65536]. *)
Theorem CDFs_are_valid :
  forall (m : nat) (k : list nat) (self : EntropyCoder),
    reachable pmfToQuantizedCDF m k self ->
    Forall2 (fun K cdfAtLv =>
               length cdfAtLv = m /\ Forall (valid_cdf K) cdfAtLv)
            k (fst (CDFs pmfToQuantizedCDF self)).
Proof.
  intros m k self Hreach.
  pose proof (reachable_inv _ m k self Hreach)
    as (_ & Hdirty & Hshape & Hnn & _).
  rewrite (CDFs_dirty _ self Hdirty). cbn [fst]. unfold buildCDFs.
  rewrite map_map.
  apply (Forall2_map_from _ _ _ _ _ Hshape).
  intros F K HF HFs. rewrite Forall_forall in Hnn. specialize (Hnn F HF).
  split.
  - rewrite !length_map. apply mat_shape_rows in HFs. tauto.
  - rewrite map_map. apply Forall_forall. intros cdf Hcdf.
    apply in_map_iff in Hcdf. destruct Hcdf as (row & <- & Hrow).
    assert (HK : length row = K).
    { apply mat_shape_rows in HFs. destruct HFs as [_ HFs].
      rewrite Forall_forall in HFs. apply HFs. assumption. }
    rewrite <- HK. apply group_cdf_valid.
    unfold nonneg_matrix in Hnn. rewrite Forall_forall in Hnn.
    apply Hnn. assumption.
Qed.

Lemma CDFs_are_valid_witness :
  Forall2 (fun K cdfAtLv =>
             length cdfAtLv = 2 /\ Forall (valid_cdf K) cdfAtLv)
          [3; 1]
          (fst (CDFs pmfToQuantizedCDF (init 2 [3; 1] (99 # 100)))).
Proof.
  apply (CDFs_are_valid 2 [3; 1]).
  apply reach_init; unfold Qle; simpl; lia.
Defined.

Lemma cumsum_repeat (u : Q) : forall n acc j,
  j < n ->
  (nth j (cumsum_from acc (repeat u n)) 0
   == acc + inject_Z (Z.of_nat (S j)) * u)%Q.
Proof.
  induction n as [|n IH]; intros acc j Hj; [lia|].
  destruct j as [|j]; cbn [repeat cumsum_from nth].
  - change (inject_Z (Z.of_nat 1)) with 1%Q. ring.
  - rewrite IH by lia. rewrite (Nat2Z.inj_succ (S j)). unfold Z.succ.
    rewrite inject_Z_plus. change (inject_Z 1) with 1%Q. ring.
Qed.

Lemma div_step (x N K : Z) :
  (0 < K)%Z -> (0 <= x)%Z -> (0 <= N)%Z ->
  ((x + N) / K - x / K = N / K \/ (x + N) / K - x / K = N / K + 1)%Z.
Proof.
  intros HK Hx HN.
  pose proof (Z.div_mod x K ltac:(lia)) as E1.
  pose proof (Z.div_mod N K ltac:(lia)) as E2.
  pose proof (Z.mod_pos_bound x K HK) as B1.
  pose proof (Z.mod_pos_bound N K HK) as B2.
  assert (E : (x + N = (x / K + N / K) * K + (x mod K + N mod K))%Z)
    by lia.
  destruct (Z_lt_ge_dec (x mod K + N mod K) K) as [Hlt | Hge].
  - left. rewrite E. rewrite Z.div_add_l by lia.
    rewrite (Z.div_small (x mod K + N mod K) K) by lia. lia.
  - right.
    replace (x + N)%Z
      with ((x / K + N / K + 1) * K + (x mod K + N mod K - K))%Z by lia.
    rewrite Z.div_add_l by lia.
    rewrite (Z.div_small (x mod K + N mod K - K) K) by lia. lia.
Qed.

(** Entry [i] of the table of the uniform distribution over [K] symbols. *)
Lemma uniform_cdf_entry K i :
  i <= K ->
  nth i (pmfToQuantizedCDF (uniform K) 16) 0%Z
  = (65536 * Z.of_nat i / Z.of_nat K)%Z.
Proof.
  intros Hi. unfold pmfToQuantizedCDF. change (2 ^ 16)%Z with 65536%Z.
  destruct i as [|j].
  - cbn [nth]. change (Z.of_nat 0) with 0%Z. rewrite Z.mul_0_r.
    reflexivity.
  - cbn [nth]. unfold cumsum, uniform.
    rewrite app_nth1
      by (rewrite length_map, length_cumsum_from, repeat_length; lia).
    rewrite (nth_indep _ 0%Z (Qfloor (0 * inject_Z 65536)))
      by (rewrite length_map, length_cumsum_from, repeat_length; lia).
    rewrite (map_nth (fun c => Qfloor (c * inject_Z 65536))).
    rewrite Zdiv_Qdiv. apply Qfloor_comp.
    rewrite cumsum_repeat by lia. rewrite inject_Z_mult.
    assert (Hne : ~ (inject_Z (Z.of_nat K) == 0)%Q).
    { intros H0. unfold Qeq in H0. simpl in H0. lia. }
    field. assumption.
Qed.

Lemma uniform_cdf_gaps K :
  uniform_gaps K (pmfToQuantizedCDF (uniform K) 16).
Proof.
  intros i Hi gap. subst gap.
  rewrite !uniform_cdf_entry by lia.
  replace (65536 * Z.of_nat (S i))%Z with (65536 * Z.of_nat i + 65536)%Z
    by lia.
  apply div_step; lia.
Qed.


Lemma length_normalize16 row : length (normalize16 row) = length row.
Proof. unfold normalize16. apply length_map. Qed.







(** With the CDF quantizer as the specification describes it, the table of
    that group is [[0, 49152, 65536, 65536]]: the gaps of its two symbols
    are [49152] and [16384], not equal. *)
Lemma low_total_state_table :
  fst (CDFs pmfToQuantizedCDF low_total_state)
  = [[[0; 49152; 65536; 65536]%Z]] /\
  ~ uniform_gaps 2 [0; 49152; 65536; 65536]%Z.
Proof.
  split; [vm_compute; reflexivity|].
  intros H. specialize (H 0 ltac:(lia)). cbv zeta in H.
  vm_compute in H. destruct H as [E | E]; discriminate.
Qed.

(* ================================================================== *)
(** * Codebook reassignment *)
(* ================================================================== *)

Lemma length_masked_assign {A : Type} (dest : list A) : forall loc src,
  length (masked_assign dest loc src) = length dest.
Proof.
  induction dest as [|d dest IH]; intros [|b loc] src; simpl; auto.
  destruct b; [destruct src|]; simpl; rewrite IH; reflexivity.
Qed.

(** Positions outside the mask keep their value. *)
Lemma masked_assign_off {A : Type} (dest : list A) d : forall loc src p,
  nth p loc false = false ->
  nth p (masked_assign dest loc src) d = nth p dest d.
Proof.
  induction dest as [|x dest IH]; intros [|b loc] src p Hp; simpl; auto.
  destruct p as [|p]; simpl in Hp.
  - subst b. reflexivity.
  - destruct b; [destruct src|]; simpl; apply IH; assumption.
Qed.

(** A position inside the mask receives the source item whose rank is the
    number of mask positions before it. *)
Lemma masked_assign_on {A : Type} (dest : list A) d : forall loc src p,
  p < length dest ->
  nth p loc false = true ->
  count_true (firstn p loc) < length src ->
  nth p (masked_assign dest loc src) d
  = nth (count_true (firstn p loc)) src d.
Proof.
  unfold count_true.
  induction dest as [|x dest IH]; intros [|b loc] src p Hlen Hp Hsrc;
    simpl in *; try lia.
  - destruct p; discriminate.
  - destruct p as [|p].
    + simpl in *. subst b. destruct src; [simpl in Hsrc; lia|]. reflexivity.
    + simpl in Hp. cbn [firstn filter] in Hsrc |- *.
      destruct b; cbn [length] in Hsrc |- *.
      * destruct src as [|s src]; [simpl in Hsrc; lia|].
        cbn [nth]. apply IH; [lia | assumption | simpl in Hsrc; lia].
      * cbn [nth]. apply IH; [lia | assumption | assumption].
Qed.

Lemma map_masked_assign {A B : Type} (h : A -> B) (dest : list A) :
  forall loc src,
    map h (masked_assign dest loc src)
    = masked_assign (map h dest) loc (map h src).
Proof.
  induction dest as [|x dest IH]; intros [|b loc] src; simpl; auto.
  destruct b; [destruct src|]; simpl; rewrite IH; reflexivity.
Qed.

Lemma setitem_app {A : Type} (pre : list A) x rest y :
  setitem (pre ++ x :: rest) (length pre) y = pre ++ y :: rest.
Proof. induction pre as [|p pre IH]; simpl; [|rewrite IH]; reflexivity. Qed.

Lemma nth_map_default {A B : Type} (h : A -> B) l i x d :
  h x = d -> nth i (map h l) d = h (nth i l x).
Proof.
  intros Hx. revert i. induction l as [|a l IH]; intros [|i]; simpl; auto.
Qed.

Section ReassignmentFacts.

Variable Eps : Q.
Variable argsort : list Q -> list nat.

Lemma Qltb_irrefl a : Qltb a a = false.
Proof. apply Qltb_false. apply Qle_refl. Qed.

Lemma nth_neverAssigned fg j :
  nth j (neverAssigned Eps fg) false = Qltb (nth j fg Eps) Eps.
Proof.
  unfold neverAssigned.
  apply (nth_map_default (fun f => Qltb f Eps)). apply Qltb_irrefl.
Qed.

(** Every slot selected for replacement was never assigned. *)
Lemma selectSlots_subset k rp fg j :
  nth j (snd (selectSlots Eps k rp fg)) false = true ->
  nth j (neverAssigned Eps fg) false = true.
Proof.
  unfold selectSlots.
  destruct (k / 2 <? count_true (neverAssigned Eps fg)); cbn [snd];
    [|auto].
  intros H.
  destruct (nth j (neverAssigned Eps fg) false) eqn:E; [reflexivity|].
  exfalso. unfold protect in H.
  rewrite (nth_map_default (inBand Eps) _ j Eps false) in H
    by (unfold inBand; rewrite Qltb_irrefl; reflexivity).
  unfold inBand in H.
  rewrite (masked_assign_off fg Eps _ _ j E) in H.
  rewrite nth_neverAssigned in E. rewrite E in H. discriminate.
Qed.

(** The new rows of a group: entries whose usage is not below [Eps] keep
    their value. *)
Lemma reassignGroup_frame k rp cg fg j :
  (Eps <= nth j fg Eps)%Q ->
  nth j (reassignGroup Eps argsort k rp cg fg cg) [] = nth j cg [].
Proof.
  intros Hused. unfold reassignGroup.
  pose proof (selectSlots_subset k rp fg j) as Hsub.
  destruct (selectSlots Eps k rp fg) as [fg' loc]. cbn [snd] in Hsub.
  apply masked_assign_off.
  destruct (nth j loc false) eqn:E; [|reflexivity].
  specialize (Hsub eq_refl). rewrite nth_neverAssigned in Hsub.
  apply Qltb_true in Hsub. exfalso. apply (Qlt_not_le _ _ Hsub Hused).
Qed.

Lemma length_reassignGroup k rp cg fg :
  length (reassignGroup Eps argsort k rp cg fg cg) = length cg.
Proof.
  unfold reassignGroup. destruct (selectSlots Eps k rp fg).
  apply length_masked_assign.
Qed.

(** The loop over the groups, one group after the other. *)
Lemma reassign_fold k rp : forall cbs fs pre,
  fold_left
    (fun codebook (it : nat * (Matrix Q * list Q)) =>
       let '(m, (codebookGroup, freqGroup)) := it in
       setitem codebook m
         (reassignGroup Eps argsort k (rp m) codebookGroup freqGroup
                        (nth m codebook [])))
    (combine (seq (length pre) (length (combine cbs fs))) (combine cbs fs))
    (pre ++ cbs)
  = pre
    ++ map (fun it : nat * (Matrix Q * list Q) =>
              reassignGroup Eps argsort k (rp (fst it)) (fst (snd it))
                            (snd (snd it)) (fst (snd it)))
           (combine (seq (length pre) (length (combine cbs fs)))
                    (combine cbs fs))
    ++ skipn (length fs) cbs.
Proof.
  induction cbs as [|cg cbs IH]; intros fs pre.
  - simpl. rewrite skipn_nil. reflexivity.
  - destruct fs as [|fg fs]; [reflexivity|].
    cbn [combine length seq fold_left map fst snd skipn].
    rewrite app_nth2, Nat.sub_diag by lia. cbn [nth].
    rewrite setitem_app.
    set (X := reassignGroup Eps argsort k (rp (length pre)) cg fg cg).
    replace (pre ++ X :: cbs) with ((pre ++ [X]) ++ cbs)
      by (rewrite <- app_assoc; reflexivity).
    replace (S (length pre)) with (length (pre ++ [X]))
      by (rewrite length_app; simpl; lia).
    rewrite IH. rewrite <- app_assoc. reflexivity.
Qed.

(** The codebook after [reAssignCodebook], group by group. *)
Lemma reAssignCodebook_groups k rp cb fs :
  snd (reAssignCodebook Eps argsort k rp cb fs)
  = map (fun it : nat * (Matrix Q * list Q) =>
           reassignGroup Eps argsort k (rp (fst it)) (fst (snd it))
                         (snd (snd it)) (fst (snd it)))
        (enumerate (combine cb fs))
    ++ skipn (length fs) cb.
Proof.
  unfold reAssignCodebook. cbn [snd]. unfold enumerate.
  exact (reassign_fold k rp cb fs []).
Qed.

End ReassignmentFacts.

Lemma masked_assign_same {A : Type} (P : A -> Prop) (dest : list A) :
  forall loc src,
    Forall P dest -> Forall P src -> Forall P (masked_assign dest loc src).
Proof.
  induction dest as [|x dest IH]; intros [|b loc] src Hd Hs; simpl; auto.
  apply Forall_cons_iff in Hd. destruct Hd as [Hx Hd].
  destruct b.
  - destruct src as [|s src].
    + constructor; auto.
    + apply Forall_cons_iff in Hs. destruct Hs as [Hs0 Hs].
      constructor; auto.
  - constructor; auto.
Qed.

Lemma length_index_fill {A : Type} (idx : list nat) (v : A) : forall mask,
  length (index_fill mask idx v) = length mask.
Proof.
  unfold index_fill. induction idx as [|i idx IH]; intros mask; simpl;
    [reflexivity|]. rewrite IH. apply length_setitem.
Qed.

Lemma In_combine_Forall2 {A B : Type} (R : A -> B -> Prop) la lb a b :
  Forall2 R la lb -> In (a, b) (combine la lb) -> R a b.
Proof.
  induction 1 as [|x y la lb Hxy H IH]; simpl; intros Hin; [contradiction|].
  destruct Hin as [E | Hin]; [inversion E; subst; assumption | auto].
Qed.

Lemma map2_map_enum {A B C D : Type} (F : C -> A -> D)
    (H : nat * (A * B) -> C) : forall (la : list A) (lb : list B) s,
  length la = length lb ->
  map2 F (map H (combine (seq s (length la)) (combine la lb))) la
  = map (fun it => F (H it) (fst (snd it)))
        (combine (seq s (length la)) (combine la lb)).
Proof.
  induction la as [|a la IH]; intros [|b lb] s Hl; simpl in *;
    try discriminate; [reflexivity|].
  f_equal. apply IH. lia.
Qed.

Lemma map_enum_fst {A B C : Type} (phi : A -> C) :
  forall (la : list A) (lb : list B) s,
    length la = length lb ->
    map (fun it : nat * (A * B) => phi (fst (snd it)))
        (combine (seq s (length la)) (combine la lb))
    = map phi la.
Proof.
  induction la as [|a la IH]; intros [|b lb] s Hl; simpl in *;
    try discriminate; [reflexivity|].
  f_equal. apply IH. lia.
Qed.

Lemma length_combine_same {A B : Type} (la : list A) (lb : list B) :
  length la = length lb -> length (combine la lb) = length la.
Proof. intros H. rewrite length_combine. lia. Qed.

Lemma nth_enum {A B : Type} (la : list A) (lb : list B) i da db :
  length la = length lb -> i < length la ->
  nth i (combine (seq 0 (length la)) (combine la lb)) (0, (da, db))
  = (i, (nth i la da, nth i lb db)).
Proof.
  intros Hl Hi.
  rewrite combine_nth
    by (rewrite length_seq, length_combine_same; auto).
  rewrite seq_nth by lia. rewrite combine_nth by assumption. reflexivity.
Qed.

Lemma nth_map_lt {A B : Type} (h : A -> B) l i d x :
  i < length l -> nth i (map h l) d = h (nth i l x).
Proof.
  intros Hi. rewrite (nth_indep _ d (h x)) by (rewrite length_map; lia).
  apply map_nth.
Qed.

Section ReassignmentShape.

Variable Eps : Q.
Variable argsort : list Q -> list nat.
Hypothesis argsort_ok : argsort_spec argsort.

Lemma argsort_in_range v i : In i (argsort v) -> i < length v.
Proof.
  intros Hi. destruct (argsort_ok v) as [Hperm _].
  apply (Permutation_in _ Hperm) in Hi. apply in_seq in Hi. lia.
Qed.

Lemma length_argsort v : length (argsort v) = length v.
Proof.
  destruct (argsort_ok v) as [Hperm _].
  rewrite (Permutation_length Hperm). apply length_seq.
Qed.

Lemma length_selectSlots k rp fg :
  length (fst (selectSlots Eps k rp fg)) = length fg.
Proof.
  unfold selectSlots.
  destruct (k / 2 <? count_true (neverAssigned Eps fg)); cbn [fst];
    [|reflexivity].
  unfold protect. apply length_masked_assign.
Qed.

(** Reassigning a group of [d]-wide entries yields [d]-wide entries. *)
Lemma reassignGroup_widths k rp cg fg d :
  length fg = length cg ->
  Forall (fun e => length e = d) cg ->
  Forall (fun e => length e = d)
         (reassignGroup Eps argsort k rp cg fg cg).
Proof.
  intros Hl Hd. unfold reassignGroup.
  pose proof (length_selectSlots k rp fg) as Hlen.
  destruct (selectSlots Eps k rp fg) as [fg' loc]. cbn [fst] in Hlen.
  apply masked_assign_same; [assumption|].
  apply Forall_firstn. unfold gather. apply Forall_forall.
  intros e He. apply in_map_iff in He. destruct He as (i & <- & Hi).
  apply argsort_in_range in Hi. rewrite Forall_forall in Hd.
  apply Hd. apply nth_In. lia.
Qed.

Lemma map_length_const {A : Type} (l l' : list (list A)) d :
  length l = length l' ->
  Forall (fun e => length e = d) l -> Forall (fun e => length e = d) l' ->
  map (@length A) l = map (@length A) l'.
Proof.
  revert l'. induction l as [|e l IH]; intros [|e' l'] Hl H H';
    simpl in *; try discriminate; [reflexivity|].
  apply Forall_cons_iff in H, H'. destruct H, H'.
  f_equal; [congruence | apply IH; auto].
Qed.

(** One level: shape, frame, and flags of [reAssignCodebook]. *)
Lemma reAssignCodebook_level k rp cb f :
  level_shapes_ok (k, cb) f ->
  let r := reAssignCodebook Eps argsort k rp cb f in
  cb_shape (snd r) = cb_shape cb /\
  (forall g j, (Eps <= nth j (nth g f []) Eps)%Q ->
     nth j (nth g (snd r) []) [] = nth j (nth g cb []) []) /\
  fst r = concat (map2 (map2 entryMoved) (snd r) cb).
Proof.
  intros Hok r. unfold level_shapes_ok in Hok. cbn [fst snd] in Hok.
  pose proof (Forall2_length Hok) as Hlen.
  assert (Hr : snd r
               = map (fun it : nat * (Matrix Q * list Q) =>
                        reassignGroup Eps argsort k (rp (fst it))
                          (fst (snd it)) (snd (snd it)) (fst (snd it)))
                     (combine (seq 0 (length cb)) (combine cb f))).
  { unfold r. rewrite reAssignCodebook_groups. unfold enumerate.
    rewrite length_combine_same by assumption.
    rewrite <- Hlen, skipn_all, app_nil_r. reflexivity. }
  split; [|split].
  - rewrite Hr. unfold cb_shape. rewrite map_map.
    rewrite <- (map_enum_fst (map (@length Q)) cb f 0 Hlen).
    apply map_ext_in. intros [i [cg fg]] Hin. cbn [fst snd].
    apply in_combine_r in Hin.
    destruct (In_combine_Forall2 _ _ _ _ _ Hok Hin)
      as (Hcg & Hfg & d & Hd).
    apply (map_length_const _ _ d).
    + apply length_reassignGroup.
    + apply reassignGroup_widths; [congruence | assumption].
    + assumption.
  - intros g j Hused. rewrite Hr.
    destruct (Nat.lt_ge_cases g (length cb)) as [Hg | Hg].
    + rewrite (nth_map_lt _ _ g [] (0, ([], [])))
        by (rewrite length_combine, length_seq, length_combine; lia).
      rewrite (nth_enum cb f g [] [] Hlen Hg).
      cbn [fst snd]. apply reassignGroup_frame. assumption.
    + rewrite (nth_overflow (map _ _))
        by (rewrite length_map, length_combine, length_seq,
              length_combine; lia).
      rewrite (nth_overflow cb) by lia. reflexivity.
  - reflexivity.
Qed.

End ReassignmentShape.

(* ================================================================== *)
(** * The reference [argsort] honours its contract *)
(* ================================================================== *)

Section InsertionArgsort.

Variable v : list Q.

Lemma insert_desc_perm i l : Permutation (insert_desc v i l) (i :: l).
Proof.
  induction l as [|j l IH]; simpl; [apply Permutation_refl|].
  destruct (Qle_bool (nth j v 0%Q) (nth i v 0%Q)).
  - apply Permutation_refl.
  - apply (Permutation_trans (perm_skip j IH)). apply perm_swap.
Qed.

Lemma insert_desc_sorted i l :
  StronglySorted (above v) l -> StronglySorted (above v) (insert_desc v i l).
Proof.
  induction 1 as [|j l Hl IH Hj]; simpl.
  - constructor; constructor.
  - destruct (Qle_bool (nth j v 0%Q) (nth i v 0%Q)) eqn:E.
    + apply Qle_bool_iff in E. constructor.
      * constructor; assumption.
      * constructor; [exact E|].
        revert Hj. apply Forall_impl. intros x Hx. unfold above in *.
        apply (Qle_trans _ _ _ Hx E).
    + constructor; [assumption|].
      apply (Permutation_Forall (Permutation_sym (insert_desc_perm i l))).
      constructor; [|assumption].
      unfold above. apply Qlt_le_weak. apply Qnot_le_lt. intros Hle.
      apply Qle_bool_iff in Hle. congruence.
Qed.

Lemma fold_insert_perm l :
  Permutation (fold_right (insert_desc v) [] l) l.
Proof.
  induction l as [|i l IH]; simpl; [constructor|].
  apply (Permutation_trans (insert_desc_perm i _)).
  apply perm_skip. exact IH.
Qed.

Lemma fold_insert_sorted l :
  StronglySorted (above v) (fold_right (insert_desc v) [] l).
Proof.
  induction l as [|i l IH]; simpl; [constructor|].
  apply insert_desc_sorted. exact IH.
Qed.

Lemma sorted_nth l : StronglySorted (above v) l ->
  forall a b, a <= b -> b < length l -> above v (nth a l 0) (nth b l 0).
Proof.
  induction 1 as [|j l Hl IH Hj]; intros a b Hab Hb; simpl in Hb;
    [lia|].
  destruct a as [|a], b as [|b]; try lia; cbn [nth].
  - unfold above. apply Qle_refl.
  - rewrite Forall_forall in Hj. apply Hj. apply nth_In. lia.
  - apply IH; lia.
Qed.

End InsertionArgsort.

Lemma argsort_desc_spec : argsort_spec argsort_desc.
Proof.
  intros v. unfold argsort_desc. split.
  - apply fold_insert_perm.
  - intros a b Hab Hb.
    apply (sorted_nth v _ (fold_insert_sorted v (seq 0 (length v))) a b Hab).
    rewrite (Permutation_length (fold_insert_perm v _)), length_seq.
    assumption.
Qed.

(* ================================================================== *)
(** * Reassignment across the levels *)
(* ================================================================== *)

Section ReassignAll.

Variable Eps : Q.
Variable argsort : list Q -> list nat.
Hypothesis argsort_ok : argsort_spec argsort.

(** C7 (as amended). For every usage input of matching shape,
    [UMGMQuantizer.reAssignCodebook] leaves the shape [(M, K, D)] of
    every codebook unchanged, leaves every entry whose usage is not
    below [Eps] with its exact value, and returns the fraction of
    entries whose squared displacement exceeds [1e-4]. *)
Theorem reassign_frame_and_proportion :
  forall (randperm : nat -> nat -> nat -> list nat)
         (encoders : list (nat * list (Matrix Q)))
         (freqs : list (Matrix Q)),
    Forall2 level_shapes_ok encoders freqs ->
    let r := UMGM_reAssignCodebook Eps argsort randperm encoders freqs in
    map (fun e => cb_shape (snd e)) (snd r)
    = map (fun e => cb_shape (snd e)) encoders /\
    (forall lv g j,
       (Eps <= usageAt Eps freqs lv g j)%Q ->
       entryAt (snd r) lv g j = entryAt encoders lv g j) /\
    fst r = meanOfFlags (movedFlags (snd r) encoders).
Proof.
  intros randperm encoders freqs Hok r.
  pose proof (Forall2_length Hok) as Hlen.
  set (H := fun it : nat * ((nat * list (Matrix Q)) * Matrix Q) =>
              (fst (fst (snd it)),
               snd (reAssignCodebook Eps argsort (fst (fst (snd it)))
                      (randperm (fst it)) (snd (fst (snd it)))
                      (snd (snd it))))).
  set (items := combine (seq 0 (length encoders)) (combine encoders freqs)).
  assert (Hitems : forall it, In it items ->
            level_shapes_ok (fst (snd it)) (snd (snd it))).
  { intros [lv [e f]] Hin. apply in_combine_r in Hin. cbn [fst snd].
    apply (In_combine_Forall2 _ _ _ _ _ Hok Hin). }
  assert (Hsnd : snd r = map H items).
  { unfold r, UMGM_reAssignCodebook. cbn [snd]. unfold enumerate.
    rewrite length_combine_same by assumption. fold items.
    rewrite !map_map.
    rewrite (skipn_all2 encoders)
      by (rewrite length_map; unfold items;
          rewrite length_combine, length_seq, length_combine; lia).
    rewrite app_nil_r. apply map_ext. intros [lv [[k cb] f]].
    reflexivity. }
  assert (Hfst : fst r
                 = meanOfFlags
                     (concat
                        (map (fun it =>
                                fst (reAssignCodebook Eps argsort
                                       (fst (fst (snd it)))
                                       (randperm (fst it))
                                       (snd (fst (snd it)))
                                       (snd (snd it))))
                             items))).
  { unfold r, UMGM_reAssignCodebook. cbn [fst]. unfold enumerate.
    rewrite length_combine_same by assumption. fold items.
    rewrite !map_map. f_equal. f_equal. apply map_ext.
    intros [lv [[k cb] f]]. reflexivity. }
  split; [|split].
  - rewrite Hsnd, map_map.
    rewrite <- (map_enum_fst (fun e => cb_shape (snd e)) encoders freqs 0
                  Hlen).
    fold items. apply map_ext_in. intros it Hin.
    specialize (Hitems it Hin). destruct it as [lv [[k cb] f]].
    cbn [fst snd H] in *.
    apply (reAssignCodebook_level Eps argsort argsort_ok k (randperm lv)
             cb f Hitems).
  - intros lv g j Hused. unfold entryAt. rewrite Hsnd.
    destruct (Nat.lt_ge_cases lv (length encoders)) as [Hlv | Hlv].
    + rewrite (nth_map_lt H items lv (0, []) (0, ((0, []), [])))
        by (unfold items;
            rewrite length_combine, length_seq, length_combine; lia).
      unfold items. rewrite (nth_enum encoders freqs lv (0, []) [] Hlen Hlv).
      unfold H. cbn [fst snd].
      assert (Hin : In (lv, (nth lv encoders (0, []), nth lv freqs []))
                       items).
      { unfold items.
        rewrite <- (nth_enum encoders freqs lv (0, []) [] Hlen Hlv).
        apply nth_In.
        rewrite length_combine, length_seq, length_combine. lia. }
      specialize (Hitems _ Hin). cbn [fst snd] in Hitems.
      destruct (nth lv encoders (0, [])) as [k cb] eqn:E.
      cbn [fst snd] in *.
      apply (reAssignCodebook_level Eps argsort argsort_ok k (randperm lv)
               cb (nth lv freqs []) Hitems).
      exact Hused.
    + rewrite (nth_overflow (map H items))
        by (rewrite length_map; unfold items;
            rewrite length_combine, length_seq, length_combine; lia).
      rewrite (nth_overflow encoders) by lia. reflexivity.
  - rewrite Hfst, Hsnd. unfold movedFlags. f_equal. f_equal.
    unfold items. rewrite (map2_map_enum _ H encoders freqs 0 Hlen).
    fold items. apply map_ext_in. intros it Hin.
    specialize (Hitems it Hin). destruct it as [lv [[k cb] f]].
    cbn [fst snd H] in *.
    apply (reAssignCodebook_level Eps argsort argsort_ok k (randperm lv)
             cb f Hitems).
Qed.

End ReassignAll.

Lemma reassign_frame_and_proportion_witness :
  let encoders := [(2, [[[0%Q]; [1%Q]]])] in
  let freqs := [[[0%Q; 1%Q]]] in
  let r := UMGM_reAssignCodebook (1 # 1000000) argsort_desc
             (fun _ _ n => seq 0 n) encoders freqs in
  map (fun e => cb_shape (snd e)) (snd r)
  = map (fun e => cb_shape (snd e)) encoders /\
  (forall lv g j,
     ((1 # 1000000) <= usageAt (1 # 1000000) freqs lv g j)%Q ->
     entryAt (snd r) lv g j = entryAt encoders lv g j) /\
  fst r = meanOfFlags (movedFlags (snd r) encoders).
Proof.
  apply (reassign_frame_and_proportion (1 # 1000000) argsort_desc
           argsort_desc_spec).
  constructor; [|constructor].
  constructor; [|constructor].
  cbn [fst snd]. split; [reflexivity|]. split; [reflexivity|].
  exists 1. repeat constructor.
Defined.

(** C7 (counterexample). A never-used entry [0] is overwritten by the used
    entry [1/200]: its value changes, but its squared displacement
    [1/40000] does not exceed [1e-4], so the returned proportion is [0]
    while half of the entries actually changed. *)
Lemma reassign_proportion_misses_small_moves :
  let encoders := [(2, [[[0%Q]; [(1 # 200)%Q]]])] in
  let r := UMGM_reAssignCodebook (1 # 1000000) argsort_desc
             (fun _ _ n => seq 0 n) encoders [[[0%Q; 1%Q]]] in
  entryAt (snd r) 0 0 0 = [(1 # 200)%Q] /\
  entryAt encoders 0 0 0 = [0%Q] /\
  ~ (fst r == meanOfFlags (changedFlags (snd r) encoders))%Q.
Proof.
  cbv zeta. split; [vm_compute; reflexivity|].
  split; [reflexivity|].
  vm_compute. discriminate.
Qed.

(* ================================================================== *)
(** * The protection step *)
(* ================================================================== *)

Lemma nth_setitem_eq {A : Type} (l : list A) i x d :
  i < length l -> nth i (setitem l i x) d = x.
Proof.
  revert i. induction l as [|a l IH]; intros [|i] H; simpl in *; try lia;
    [reflexivity | apply IH; lia].
Qed.

Lemma nth_index_fill {A : Type} (d v : A) (idx : list nat) :
  forall mask i,
    nth i (index_fill mask idx v) d
    = if existsb (Nat.eqb i) idx && (i <? length mask) then v
      else nth i mask d.
Proof.
  unfold index_fill. induction idx as [|s idx IH]; intros mask i;
    [reflexivity|].
  cbn [fold_left existsb]. rewrite IH, length_setitem.
  destruct (Nat.eqb_spec i s) as [-> | Hne]; cbn [orb].
  - destruct (s <? length mask) eqn:E.
    + rewrite andb_true_r. apply Nat.ltb_lt in E.
      rewrite nth_setitem_eq by assumption.
      destruct (existsb (Nat.eqb s) idx); reflexivity.
    + rewrite andb_false_r. apply Nat.ltb_ge in E.
      rewrite !nth_overflow; rewrite ?length_setitem; auto.
  - rewrite nth_setitem_ne by congruence. reflexivity.
Qed.

Lemma count_true_map {A : Type} (f : A -> bool) l :
  count_true (map f l) = length (filter f l).
Proof.
  unfold count_true. induction l as [|a l IH]; simpl; [reflexivity|].
  destruct (f a); simpl; rewrite IH; reflexivity.
Qed.

Lemma existsb_eqb_In i l : existsb (Nat.eqb i) l = true <-> In i l.
Proof.
  rewrite existsb_exists. split.
  - intros (x & Hx & E). apply Nat.eqb_eq in E. subst. assumption.
  - intros H. exists i. split; [assumption | apply Nat.eqb_refl].
Qed.

(** Distinct indices below [n] are hit exactly once each. *)
Lemma count_members n l :
  NoDup l -> Forall (fun i => i < n) l ->
  length (filter (fun i => existsb (Nat.eqb i) l) (seq 0 n)) = length l.
Proof.
  intros Hnd Hlt. apply Permutation_length. apply NoDup_Permutation.
  - apply NoDup_filter, seq_NoDup.
  - assumption.
  - intros x. rewrite filter_In, in_seq, existsb_eqb_In.
    rewrite Forall_forall in Hlt. split; [tauto|].
    intros Hx. specialize (Hlt x Hx). split; [lia | assumption].
Qed.

Lemma NoDup_skipn {A : Type} n (l : list A) : NoDup l -> NoDup (skipn n l).
Proof.
  intros H. rewrite <- (firstn_skipn n l) in H.
  apply NoDup_app_remove_l in H. assumption.
Qed.

Lemma In_skipn {A : Type} n (l : list A) x : In x (skipn n l) -> In x l.
Proof.
  intros H. rewrite <- (firstn_skipn n l). apply in_or_app. right.
  assumption.
Qed.

(** Counting through a mask assignment into positions that are otherwise
    false. *)
Lemma count_masked_assign : forall (bs never src : list bool),
  length never = length bs ->
  length src = count_true never ->
  Forall2 (fun b n => n = false -> b = false) bs never ->
  count_true (masked_assign bs never src) = count_true src.
Proof.
  unfold count_true.
  induction bs as [|b bs IH]; intros [|n never] src Hl Hs HF;
    simpl in *; try discriminate.
  - destruct src; [reflexivity | discriminate].
  - inversion HF as [|? ? ? ? Hb HF']; subst. injection Hl as Hl.
    destruct n.
    + destruct src as [|s src]; [discriminate|]. simpl in Hs.
      injection Hs as Hs. cbn [filter].
      destruct s; cbn [length]; rewrite (IH never src Hl Hs HF');
        reflexivity.
    + rewrite (Hb eq_refl). cbn [filter]. apply IH; assumption.
Qed.

Lemma count_protected : forall never loc,
  length never = length loc ->
  Forall2 (fun l n => l = true -> n = true) loc never ->
  count_true (protectedSlots never loc)
  = count_true never - count_true loc.
Proof.
  unfold count_true, protectedSlots.
  induction never as [|n never IH]; intros [|l loc] Hl HF; simpl in *;
    try discriminate; [reflexivity|].
  inversion HF as [|? ? ? ? Hln HF']; subst. injection Hl as Hl.
  specialize (IH loc Hl HF').
  assert (Hle : length (filter (fun b => b) loc)
                <= length (filter (fun b => b) never)).
  { clear -HF'. induction HF' as [|l n loc never Hln _ IH']; simpl; [lia|].
    destruct l; [rewrite (Hln eq_refl); simpl; lia|].
    destruct n; simpl; lia. }
  destruct n, l; cbn [andb negb filter length]; try lia.
Qed.

Lemma Forall2_nth_bool (R : bool -> bool -> Prop) l1 l2 :
  length l1 = length l2 ->
  (forall j, j < length l1 -> R (nth j l1 false) (nth j l2 false)) ->
  Forall2 R l1 l2.
Proof.
  revert l2. induction l1 as [|a l1 IH]; intros [|b l2] Hl H; simpl in *;
    try discriminate; constructor.
  - apply (H 0). lia.
  - apply IH; [lia|]. intros j Hj. apply (H (S j)). lia.
Qed.

Lemma count_true_firstn_lt (loc : list bool) : forall j,
  nth j loc false = true ->
  count_true (firstn j loc) < count_true loc.
Proof.
  unfold count_true. induction loc as [|b loc IH]; intros [|j] H;
    simpl in *; try discriminate.
  - subst b. simpl. lia.
  - destruct b; simpl; specialize (IH j H); lia.
Qed.

Lemma count_true_le_length (loc : list bool) : count_true loc <= length loc.
Proof. unfold count_true. apply filter_length_le. Qed.

Lemma Forall2_map_same {A B C : Type} (R : B -> C -> Prop) (f : A -> B)
    (g : A -> C) l :
  (forall a, R (f a) (g a)) -> Forall2 R (map f l) (map g l).
Proof. intros H. induction l; simpl; constructor; auto. Qed.

Section Protection.

Variable Eps : Q.
Variable argsort : list Q -> list nat.
Hypothesis Eps_pos : (0 < Eps)%Q.
Hypothesis Eps_le_1 : (Eps <= 1)%Q.
Hypothesis argsort_ok : argsort_spec argsort.

Lemma inBand_zero : inBand Eps 0 = true.
Proof.
  unfold inBand. apply andb_true_iff. split; apply Qltb_true; lra.
Qed.

Lemma inBand_minus_one : inBand Eps (-1) = false.
Proof.
  unfold inBand. apply andb_false_iff. right. apply Qltb_false. lra.
Qed.

Lemma reassignGroup_unfold k rp cg fg target :
  reassignGroup Eps argsort k rp cg fg target
  = masked_assign target (snd (selectSlots Eps k rp fg))
      (firstn (count_true (snd (selectSlots Eps k rp fg)))
              (gather cg (argsort (fst (selectSlots Eps k rp fg))))).
Proof.
  unfold reassignGroup. destruct (selectSlots Eps k rp fg). reflexivity.
Qed.

Lemma length_snd_selectSlots k rp fg :
  length (snd (selectSlots Eps k rp fg)) = length fg.
Proof.
  unfold selectSlots.
  destruct (k / 2 <? count_true (neverAssigned Eps fg)); cbn [snd].
  - rewrite length_map. unfold protect. apply length_masked_assign.
  - unfold neverAssigned. apply length_map.
Qed.

(** The mask drawn by the protection step has [k / 2] zeros. *)
Lemma protect_mask_count k T perm :
  k / 2 < T -> Permutation perm (seq 0 T) ->
  count_true
    (map (inBand Eps)
         (index_fill (repeat 0%Q T) (skipn (k / 2) perm) (-1)%Q))
  = k / 2.
Proof.
  intros Hk Hperm.
  set (S := skipn (k / 2) perm).
  set (mask := index_fill (repeat 0%Q T) S (-1)%Q).
  assert (Hlen : length mask = T)
    by (unfold mask; rewrite length_index_fill; apply repeat_length).
  assert (HS : NoDup S /\ Forall (fun i => i < T) S /\ length S = T - k / 2).
  { split; [|split].
    - apply NoDup_skipn.
      apply (Permutation_NoDup (Permutation_sym Hperm)), seq_NoDup.
    - apply Forall_forall. intros i Hi. apply In_skipn in Hi.
      apply (Permutation_in _ Hperm) in Hi. apply in_seq in Hi. lia.
    - unfold S. rewrite length_skipn, (Permutation_length Hperm), length_seq.
      reflexivity. }
  destruct HS as (Hnd & Hlt & HlenS).
  rewrite <- (map_nth_seq mask 0%Q), Hlen, map_map.
  rewrite (map_ext_in _ (fun i => negb (existsb (Nat.eqb i) S))).
  - rewrite count_true_map.
    pose proof (filter_length (fun i => existsb (Nat.eqb i) S) (seq 0 T))
      as Hf.
    rewrite (count_members T S Hnd Hlt), length_seq in Hf. lia.
  - intros i Hi. apply in_seq in Hi. unfold mask.
    rewrite nth_index_fill, repeat_length.
    replace (i <? T) with true by (symmetry; apply Nat.ltb_lt; lia).
    rewrite andb_true_r. destruct (existsb (Nat.eqb i) S); cbn [negb].
    + apply inBand_minus_one.
    + rewrite nth_repeat. apply inBand_zero.
Qed.

(** C8 (as amended). In a group of [k] entries of which [T > k / 2] are
    never assigned (usage below [Eps]), the random permutation protects
    [T - k / 2] of the never-assigned entries from replacement; the
    remaining [k / 2] never-assigned entries are overwritten, in index
    order, by the embeddings of the entries ranked first in descending
    order of the masked usage; every other entry keeps its value. *)
Theorem reassign_protects_surplus :
  forall (k : nat) (randperm : nat -> list nat) (cg : Matrix Q)
         (fg : list Q),
    length fg = k -> length cg = k ->
    let never := neverAssigned Eps fg in
    let T := count_true never in
    k / 2 < T ->
    Permutation (randperm T) (seq 0 T) ->
    let fg' := fst (selectSlots Eps k randperm fg) in
    let loc := snd (selectSlots Eps k randperm fg) in
    let new := reassignGroup Eps argsort k randperm cg fg cg in
    count_true loc = k / 2 /\
    count_true (protectedSlots never loc) = T - k / 2 /\
    (forall j, nth j loc false = true -> nth j never false = true) /\
    (forall j, nth j loc false = false -> nth j new [] = nth j cg []) /\
    (forall j, j < k -> nth j loc false = true ->
       nth j new []
       = nth (nth (count_true (firstn j loc)) (argsort fg') 0) cg []) /\
    (forall a b, a <= b -> b < k ->
       (nth (nth b (argsort fg') 0%nat) fg' 0
        <= nth (nth a (argsort fg') 0%nat) fg' 0)%Q).
Proof.
  intros k randperm cg fg Hfg Hcg never T HT Hperm fg' loc new.
  assert (Hlenloc : length loc = k)
    by (unfold loc; rewrite length_snd_selectSlots; assumption).
  assert (Hlenfg' : length fg' = k)
    by (unfold fg'; rewrite length_selectSlots; assumption).
  assert (Hsub : forall j, nth j loc false = true ->
                           nth j never false = true)
    by (intros j; apply selectSlots_subset).
  assert (Hcount : count_true loc = k / 2).
  { unfold loc, selectSlots. fold never. fold T.
    replace (k / 2 <? T) with true by (symmetry; apply Nat.ltb_lt; lia).
    cbn [snd]. unfold protect. fold never. fold T.
    rewrite map_masked_assign.
    rewrite count_masked_assign.
    - apply protect_mask_count; assumption.
    - unfold never, neverAssigned. rewrite !length_map. reflexivity.
    - rewrite length_map, length_index_fill. apply repeat_length.
    - unfold never, neverAssigned. apply Forall2_map_same.
      intros f Hf. unfold inBand. rewrite Hf. reflexivity. }
  split; [exact Hcount|]. split; [|split; [exact Hsub|split; [|split]]].
  - rewrite count_protected.
    + rewrite Hcount. reflexivity.
    + unfold never, neverAssigned. rewrite length_map. congruence.
    + apply Forall2_nth_bool.
      * unfold never, neverAssigned. rewrite length_map. congruence.
      * intros j _. apply Hsub.
  - intros j Hj. unfold new. rewrite reassignGroup_unfold.
    apply masked_assign_off. exact Hj.
  - intros j Hjk Hj. unfold new. rewrite reassignGroup_unfold.
    fold loc. fold fg'.
    pose proof (count_true_firstn_lt loc j Hj) as Hrank.
    pose proof (count_true_le_length loc) as Hle.
    assert (Hargs : length (argsort fg') = k)
      by (rewrite (length_argsort argsort argsort_ok); assumption).
    rewrite masked_assign_on.
    + rewrite nth_firstn.
      replace (count_true (firstn j loc) <? count_true loc) with true
        by (symmetry; apply Nat.ltb_lt; assumption).
      unfold gather.
      apply (nth_map_lt (fun i => nth i cg []) (argsort fg')). lia.
    + lia.
    + exact Hj.
    + rewrite length_firstn. unfold gather. rewrite length_map. lia.
  - intros a b Hab Hb. destruct (argsort_ok fg') as [_ Hsorted].
    apply Hsorted; [assumption | lia].
Qed.

End Protection.

Lemma reassign_protects_surplus_witness :
  let Eps := (1 # 1000000)%Q in
  let randperm := fun n : nat => seq 0 n in
  let cg := [[1%Q]; [2%Q]; [3%Q]; [4%Q]] in
  let fg := [1%Q; 0%Q; 0%Q; 0%Q] in
  let never := neverAssigned Eps fg in
  let loc := snd (selectSlots Eps 4 randperm fg) in
  count_true loc = 2 /\
  count_true (protectedSlots never loc) = 1 /\
  reassignGroup Eps argsort_desc 4 randperm cg fg cg
  = [[1%Q]; [1%Q]; [2%Q]; [4%Q]].
Proof.
  cbv zeta.
  destruct (reassign_protects_surplus (1 # 1000000) argsort_desc
              eq_refl ltac:(discriminate) argsort_desc_spec
              4 (fun n : nat => seq 0 n) [[1%Q]; [2%Q]; [3%Q]; [4%Q]]
              [1%Q; 0%Q; 0%Q; 0%Q] eq_refl eq_refl)
    as (H1 & H2 & _).
  - vm_compute. lia.
  - apply Permutation_refl.
  - split; [exact H1|]. split; [exact H2|]. vm_compute. reflexivity.
Defined.

(** C8 (counterexample). With [k = 6] entries of which [T = 4] are never
    assigned, the protection step protects [T - k / 2 = 1] entry, not half
    of the never-assigned ones. *)
Lemma protection_is_not_half :
  let Eps := (1 # 1000000)%Q in
  let fg := [(1 # 2)%Q; (1 # 2)%Q; 0%Q; 0%Q; 0%Q; 0%Q] in
  let never := neverAssigned Eps fg in
  let loc := snd (selectSlots Eps 6 (fun n : nat => seq 0 n) fg) in
  6 / 2 < count_true never /\
  count_true never = 4 /\
  count_true (protectedSlots never loc) = 1 /\
  2 * count_true (protectedSlots never loc) <> count_true never.
Proof.
  cbv zeta. vm_compute. repeat split; try lia; discriminate.
Qed.

(* ================================================================== *)
(** * Multi-level decoding *)
(* ================================================================== *)

Lemma foldM_app {A S : Type} (f : S -> A -> result S) l1 l2 s :
  foldM f (l1 ++ l2) s = (s' <- foldM f l1 s ;; foldM f l2 s').
Proof.
  revert s. induction l1 as [|a l1 IH]; intros s; simpl; [reflexivity|].
  destruct (f s a); simpl; [apply IH | reflexivity].
Qed.

Lemma combine_snoc {A B : Type} (l1 : list A) (l2 : list B) a b :
  length l1 = length l2 ->
  combine (l1 ++ [a]) (l2 ++ [b]) = combine l1 l2 ++ [(a, b)].
Proof.
  revert l2. induction l1 as [|x l1 IH]; intros [|y l2] H; simpl in *;
    try discriminate; [reflexivity|].
  f_equal. apply IH. lia.
Qed.

(** A loop over two reversed lists runs the last pair first. *)
Lemma foldM_rev_combine {D C S : Type} (body : S -> D * C -> result S) s0 :
  forall (ds : list D) (cs : list C),
    length ds = length cs ->
    foldM body (combine (rev ds) (rev cs)) s0
    = fold_right (fun dc acc => s <- acc ;; body s dc) (Ok s0)
                 (combine ds cs).
Proof.
  induction ds as [|d ds IH]; intros [|c cs] Hl; simpl in *;
    try discriminate; [reflexivity|].
  injection Hl as Hl.
  rewrite combine_snoc by (rewrite !length_rev; assumption).
  rewrite foldM_app, IH by assumption.
  destruct (fold_right _ _ _) as [s|msg]; simpl; [|reflexivity].
  destruct (body s (d, c)); reflexivity.
Qed.

Lemma UMGM_reconstruct_fold : forall decoders codes,
  fold_right (fun (dc : QuantizerDecoder * Tensor Z) acc =>
                s <- acc ;;
                (let (decoder, code) := dc in
                 r <- qd_decode decoder code s ;; Ok (Some r)))
             (Ok None) (combine decoders codes)
  = UMGM_reconstruct decoders codes.
Proof.
  induction decoders as [|d ds IH]; intros [|c cs]; simpl; try reflexivity.
  rewrite IH. reflexivity.
Qed.

Lemma RB_reconstruct_fold : forall levels codes,
  fold_right (fun (dc : BackwardLevel * Tensor Z) acc =>
                s <- acc ;;
                (let (level, code) := dc in
                 quantized <- dequantize (bl_codebook level) code ;;
                 match s with
                 | None => Ok (Some (bl_decoder level quantized))
                 | Some former =>
                     s' <- tadd quantized former ;;
                     Ok (Some (bl_decoder level s'))
                 end))
             (Ok None) (combine levels codes)
  = RB_reconstruct levels codes.
Proof.
  induction levels as [|l ls IH]; intros [|c cs]; simpl; try reflexivity.
  rewrite IH. reflexivity.
Qed.

(** C9. Multi-level decode runs from the coarsest (last) level to the
    finest: it starts from the last level's dequantization and adds each
    finer level's dequantized contribution on top.  [UMGMQuantizer.decode]
    equals the reconstruction by levels of the codes as encoded;
    [ResidualBackwardQuantizer.decode], whose codes arrive coarsest first,
    equals the reconstruction by levels of the reversed code list.  For two
    levels the result is the head transforms applied to
    [dequant(level 0) + side(dequant(level 1))]. *)
Theorem decode_coarse_to_fine :
  forall (decoders : list QuantizerDecoder) (levels : list BackwardLevel)
         (codes : list (Tensor Z)),
    length decoders = length codes ->
    length levels = length codes ->
    UMGM_decode decoders codes = UMGM_reconstruct decoders codes /\
    RB_decode levels codes = RB_reconstruct levels (rev codes) /\
    (forall d0 d1 c0 c1 side,
       decoders = [d0; d1] -> codes = [c0; c1] ->
       _sideHead d0 = Some side -> _sideHead d1 = None ->
       UMGM_decode decoders codes
       = (dq1 <- dequantize (qd_codebook d1) c1 ;;
          dq0 <- dequantize (qd_codebook d0) c0 ;;
          xHat <- tadd (_dequantizationHead d0 dq0)
                       (side (_restoreHead d1 (_dequantizationHead d1 dq1))) ;;
          Ok (Some (_restoreHead d0 xHat)))) /\
    (forall l0 l1 c0 c1,
       levels = [l0; l1] -> codes = [c0; c1] ->
       RB_decode levels codes
       = (q1 <- dequantize (bl_codebook l1) c0 ;;
          q0 <- dequantize (bl_codebook l0) c1 ;;
          s <- tadd q0 (bl_decoder l1 q1) ;;
          Ok (Some (bl_decoder l0 s)))).
Proof.
  intros decoders levels codes Hd Hl.
  assert (HU : UMGM_decode decoders codes = UMGM_reconstruct decoders codes).
  { unfold UMGM_decode. rewrite foldM_rev_combine by assumption.
    apply UMGM_reconstruct_fold. }
  assert (HR : RB_decode levels codes = RB_reconstruct levels (rev codes)).
  { unfold RB_decode. rewrite <- (rev_involutive codes) at 1.
    rewrite foldM_rev_combine by (rewrite length_rev; assumption).
    apply RB_reconstruct_fold. }
  split; [exact HU|]. split; [exact HR|]. split.
  - intros d0 d1 c0 c1 side -> -> Hs0 Hs1. rewrite HU.
    cbn [UMGM_reconstruct bind]. unfold qd_decode. rewrite Hs0, Hs1.
    destruct (dequantize (qd_codebook d1) c1) as [dq1|msg]; cbn [bind];
      [|reflexivity].
    destruct (dequantize (qd_codebook d0) c0) as [dq0|msg]; cbn [bind];
      [|reflexivity].
    destruct (tadd _ _); reflexivity.
  - intros l0 l1 c0 c1 -> ->. rewrite HR.
    cbn [rev app RB_reconstruct bind].
    destruct (dequantize (bl_codebook l1) c0) as [q1|msg]; cbn [bind];
      [|reflexivity].
    destruct (dequantize (bl_codebook l0) c1) as [q0|msg]; cbn [bind];
      [|reflexivity].
    destruct (tadd _ _); reflexivity.
Qed.

Lemma decode_coarse_to_fine_witness :
  let c0 := mkTensor [1; 1; 1; 1] [3%Z] in
  let c1 := mkTensor [1; 1; 1; 1] [2%Z] in
  UMGM_decode [level0_decoder; level1_decoder] [c0; c1]
  = Ok (Some (mkTensor [1; 1; 1; 1] [(23 # 1)%Q])) /\
  RB_decode [backward_level0; backward_level1] [c1; c0]
  = Ok (Some (mkTensor [1; 1; 1; 1] [(23 # 1)%Q])).
Proof.
  cbv zeta.
  destruct (decode_coarse_to_fine [level0_decoder; level1_decoder]
              [backward_level0; backward_level1]
              [mkTensor [1; 1; 1; 1] [3%Z]; mkTensor [1; 1; 1; 1] [2%Z]]
              eq_refl eq_refl) as (HU & _ & _ & _).
  destruct (decode_coarse_to_fine [level0_decoder; level1_decoder]
              [backward_level0; backward_level1]
              [mkTensor [1; 1; 1; 1] [2%Z]; mkTensor [1; 1; 1; 1] [3%Z]]
              eq_refl eq_refl) as (_ & HR & _ & _).
  rewrite HU, HR. split; vm_compute; reflexivity.
Defined.

(* ================================================================== *)
(** * Further properties of the entropy coder *)
(* ================================================================== *)

Lemma dim01_shape {A : Type} (c : Tensor A) n m :
  dim c 0 = Ok n /\ dim c 1 = Ok m <-> exists rest, shape c = n :: m :: rest.
Proof.
  unfold dim. split.
  - intros [H0 H1]. destruct (shape c) as [|a [|b rest]]; cbn in *;
      try discriminate.
    injection H0 as ->. injection H1 as ->. eexists; reflexivity.
  - intros [rest ->]. cbn. split; reflexivity.
Qed.

(** X1. [EntropyCoder._checkShape] returns [(n, m)] exactly when the list of
    codes is not empty, [n >= 1], and the shape of every code starts with
    [n, m]; nothing else about the codes (their rank beyond 2, their height
    and width, their values) is looked at. *)
Theorem checkShape_accepts_iff :
  forall (codes : list (Tensor Z)) (n m : nat),
    _checkShape codes = Ok (n, m) <->
    codes <> [] /\ 1 <= n /\
    Forall (fun c => exists rest, shape c = n :: m :: rest) codes.
Proof.
  intros codes n m. rewrite checkShape_ok.
  split; intros (H1 & H2 & H3); (split; [exact H1|]); (split; [exact H2|]);
    revert H3; apply Forall_impl; intros c Hc; apply dim01_shape; exact Hc.
Qed.

Lemma encodeImage_ok enc m ki cdf (img : Tensor Z) h w :
  shape img = [m; h; w] ->
  encodeImage enc m ki cdf img
  = Ok (enc (data img)
            (concat (map (fun g => repeat (Z.of_nat g) (h * w)) (seq 0 m)))
            cdf (repeat (Z.of_nat ki + 2)%Z m)
            (repeat 0%Z (length (data img)))).
Proof.
  intros Hs. unfold encodeImage. rewrite Hs, expand_indices_same.
  reflexivity.
Qed.

Lemma map_length_appendCol {A : Type} : forall (rows : list (list A)) col,
  length rows = length col ->
  map (@length A) (appendCol rows col) = map (fun r => S (length r)) rows.
Proof.
  unfold appendCol.
  induction rows as [|r rows IH]; intros [|x col] H; cbn in *;
    try discriminate; [reflexivity|].
  rewrite length_app, Nat.add_comm. cbn. f_equal. apply IH. lia.
Qed.

(** One level of [compress]: every image's list grows by one binary. *)
Lemma compressLevel_layout enc n m ki cdf (code : Tensor Z) h w
    compressed hs ws :
  shape code = [n; m; h; w] -> length compressed = n ->
  exists col, length col = n /\
    compressLevel enc m (compressed, hs, ws) (code, (ki, cdf))
    = Ok (appendCol compressed col, hs ++ [h], ws ++ [w]).
Proof.
  intros Hs Hlen.
  set (F := fun i : nat =>
              enc (firstn (numel [m; h; w])
                          (skipn (i * numel [m; h; w]) (data code)))
                  (concat (map (fun g => repeat (Z.of_nat g) (h * w))
                               (seq 0 m)))
                  cdf (repeat (Z.of_nat ki + 2)%Z m)
                  (repeat 0%Z
                     (length (firstn (numel [m; h; w])
                                (skipn (i * numel [m; h; w]) (data code)))))).
  exists (map F (seq 0 n)). split; [rewrite length_map; apply length_seq|].
  unfold compressLevel. rewrite Hs.
  rewrite (foldM_ext (compressImage enc m ki cdf)
             (fun acc (it : nat * Tensor Z) =>
                y <- encodeImage enc m ki cdf (snd it) ;;
                append_at acc (fst it) y))
    by (intros s a _; apply compressImage_body).
  rewrite (foldM_enumerate_appendCol (encodeImage enc m ki cdf)
             (unbind code) (map F (seq 0 n))).
  - reflexivity.
  - rewrite (unbind_rank4 code n m h w Hs).
    apply mapM_map_map. intros i _. unfold F.
    rewrite (encodeImage_ok enc m ki cdf _ h w) by reflexivity.
    reflexivity.
  - rewrite (length_unbind code n m h w Hs). exact Hlen.
Qed.

(** The loop of [compress] over levels of rank 4. *)
Lemma compress_loop_layout enc n m :
  forall (LV : list (Tensor Z * (nat * list (list Z)))) compressed hs ws,
    Forall (fun lvl => exists h w, shape (fst lvl) = [n; m; h; w]) LV ->
    length compressed = n ->
    exists compressed',
      foldM (compressLevel enc m) LV (compressed, hs, ws)
      = Ok (compressed',
            hs ++ map (fun lvl => heightOf (fst lvl)) LV,
            ws ++ map (fun lvl => widthOf (fst lvl)) LV) /\
      map (@length bytes) compressed'
      = map (fun r => length r + length LV) compressed.
Proof.
  induction LV as [|[code [ki cdf]] LV IH]; intros compressed hs ws HLV Hlen.
  - exists compressed. cbn. rewrite !app_nil_r. split; [reflexivity|].
    apply map_ext. intros r. lia.
  - apply Forall_cons_iff in HLV. destruct HLV as [(h & w & Hs) HLV].
    cbn [fst] in Hs.
    destruct (compressLevel_layout enc n m ki cdf code h w compressed hs ws
                Hs Hlen) as (col & Hcol & Hstep).
    assert (Hlen' : length (appendCol compressed col) = n).
    { rewrite length_appendCol; lia. }
    destruct (IH (appendCol compressed col) (hs ++ [h]) (ws ++ [w])
                HLV Hlen') as (compressed' & Hrun & Hlens).
    exists compressed'. split.
    + cbn [foldM]. rewrite Hstep. cbn [bind]. rewrite Hrun.
      rewrite <- !app_assoc. cbn [map fst app].
      unfold heightOf, widthOf. rewrite Hs. reflexivity.
    + rewrite Hlens.
      rewrite <- (map_map (@length bytes) (fun x => x + length LV)).
      rewrite map_length_appendCol by lia.
      rewrite map_map. apply map_ext. intros r. cbn [length]. lia.
Qed.

Lemma map_fst_combine {A B C : Type} (f : A -> C) :
  forall (l1 : list A) (l2 : list B),
    map (fun p => f (fst p)) (combine l1 l2) = map f (firstn (length l2) l1).
Proof.
  induction l1 as [|a l1 IH]; intros [|b l2]; cbn; try reflexivity.
  f_equal. apply IH.
Qed.

Lemma Forall_combine_l {A B : Type} (P : A -> Prop) :
  forall (l1 : list A) (l2 : list B),
    Forall P l1 -> Forall (fun p => P (fst p)) (combine l1 l2).
Proof.
  induction l1 as [|a l1 IH]; intros [|b l2] H; cbn; try constructor.
  - apply Forall_cons_iff in H. tauto.
  - apply IH. apply Forall_cons_iff in H. tauto.
Qed.

(** X2. The layout of what [EntropyCoder.compress] returns.  For a batch of
    [n >= 1] images and codes of shape [n, m, h, w], it returns [n] lists of
    binaries, one binary per level that [zip(codes, self._k, self.CDFs)]
    pairs (levels beyond the coder's own are dropped without an error), and
    [n] identical headers that carry [m], the heights and the widths of
    those levels, and the coder's whole [k]. *)
Theorem compress_layout :
  forall (pmf : list Q -> Z -> list Z)
         (enc : list Z -> list Z -> list (list Z) -> list Z -> list Z -> bytes)
         (m0 : nat) (k : list nat) (self : EntropyCoder) (n m : nat)
         (codes : list (Tensor Z)),
    reachable pmf m0 k self ->
    codes <> [] -> 1 <= n ->
    Forall (fun c => exists h w, shape c = [n; m; h; w]) codes ->
    let used := firstn (length k) codes in
    exists binaries,
      fst (compress pmf enc self codes)
      = Ok (binaries,
            repeat (mkCodeSize m (map heightOf used) (map widthOf used) k) n)
      /\ length binaries = n
      /\ Forall (fun b => length b = length used) binaries.
Proof.
  intros pmf enc m0 k self n m codes Hreach Hne Hn Hcodes used.
  pose proof (reachable_inv pmf m0 k self Hreach)
    as (Hk & Hdirty & Hshape & _).
  set (tables := buildCDFs pmf (map (map normalize16) (_freqEMA self))).
  assert (Hlt : length tables = length k).
  { unfold tables, buildCDFs. rewrite !length_map.
    apply (Forall2_length Hshape). }
  assert (Hcheck : _checkShape codes = Ok (n, m)).
  { apply checkShape_ok. split; [exact Hne|]. split; [exact Hn|].
    revert Hcodes. apply Forall_impl. intros c (h & w & Hc).
    apply dim01_shape. rewrite Hc. eexists; reflexivity. }
  set (LV := combine codes (combine k tables)).
  assert (Hkt : length (combine k tables) = length k).
  { rewrite length_combine. lia. }
  destruct (compress_loop_layout enc n m LV (repeat [] n) [] [])
    as (binaries & Hrun & Hlens).
  { unfold LV. apply Forall_combine_l with (P := fun c : Tensor Z =>
      exists h w, shape c = [n; m; h; w]). exact Hcodes. }
  { apply repeat_length. }
  exists binaries.
  assert (Hlb : length binaries = n).
  { rewrite <- (length_map (@length bytes)), Hlens, length_map.
    apply repeat_length. }
  split; [|split; [exact Hlb|]].
  - unfold compress. rewrite Hcheck, (CDFs_dirty pmf self Hdirty).
    fold tables. rewrite Hk. fold LV. rewrite Hrun. cbn [bind fst app].
    unfold LV. rewrite !map_fst_combine, Hkt. reflexivity.
  - apply Forall_forall. intros b Hb.
    assert (Hin : In (length b) (map (@length bytes) binaries))
      by (apply in_map; exact Hb).
    rewrite Hlens in Hin. apply in_map_iff in Hin.
    destruct Hin as (r & Hr & Hrin). apply repeat_spec in Hrin. subst r.
    cbn in Hr. rewrite <- Hr. unfold LV, used.
    rewrite length_combine, Hkt, length_firstn. lia.
Qed.

Lemma compress_layout_witness :
  exists binaries,
    fst (compress pmfToQuantizedCDF unary_encode (init 2 [4] (99 # 100))
           [mkTensor [1; 2; 1; 1] [0; 3]%Z; mkTensor [1; 2; 2; 1] [1; 1; 2; 0]%Z])
    = Ok (binaries, repeat (mkCodeSize 2 [1] [1] [4]) 1)
    /\ length binaries = 1
    /\ Forall (fun b => length b = 1) binaries.
Proof.
  apply (compress_layout pmfToQuantizedCDF unary_encode 2 [4]
           (init 2 [4] (99 # 100)) 1 2
           [mkTensor [1; 2; 1; 1] [0; 3]%Z;
            mkTensor [1; 2; 2; 1] [1; 1; 2; 0]%Z]).
  - apply reach_init; unfold Qle; simpl; lia.
  - discriminate.
  - lia.
  - repeat (apply Forall_cons; [eexists; eexists; reflexivity|]).
    apply Forall_nil.
Defined.

Lemma map_setitem_same {A B : Type} (g : A -> B) : forall (l : list A) i x old,
  nth_error l i = Some old -> g x = g old ->
  map g (setitem l i x) = map g l.
Proof.
  induction l as [|a l IH]; intros [|i] x old H Hg; cbn in *;
    try discriminate.
  - injection H as ->. rewrite Hg. reflexivity.
  - f_equal. apply (IH i x old); assumption.
Qed.

(** What a successful run of the loop of [forward] over levels
    [s, s + 1, ...] leaves untouched. *)
Lemma forward_loop_frame d peers : forall codes s F F',
  foldM (forwardLevel d peers) (combine (seq s (length codes)) codes) F
  = Ok F' ->
  map (@mat_shape Q) F' = map (@mat_shape Q) F /\
  (forall lv, lv < s \/ s + length codes <= lv ->
     nth_error F' lv = nth_error F lv) /\
  (codes = [] \/ s + length codes <= length F).
Proof.
  induction codes as [|code codes IH]; intros s F F' Hrun.
  - cbn in Hrun. injection Hrun as <-. repeat split; auto.
  - cbn [length seq combine foldM] in Hrun.
    apply bind_ok in Hrun. destruct Hrun as (F1 & Hstep & Hrest).
    apply forwardLevel_ok in Hstep.
    destruct Hstep as (L & old & _ & Hold & Hshape & ->).
    apply IH in Hrest. destruct Hrest as (Hs & Hfr & Hlen).
    assert (Hs_lt : s < length F).
    { apply nth_error_Some. rewrite Hold. discriminate. }
    split; [|split].
    + rewrite Hs. apply (map_setitem_same _ F s _ old Hold).
      apply emaUpdate_shape. exact Hshape.
    + intros lv Hlv. rewrite Hfr by (cbn [length] in Hlv; lia).
      apply nth_error_setitem_ne. cbn [length] in Hlv. lia.
    + right. cbn [length]. destruct Hlen as [-> | Hlen]; [cbn; lia|].
      rewrite length_setitem in Hlen. lia.
Qed.

(** X3. What [EntropyCoder.forward] leaves alone.  A successful update
    changes nothing but the histograms of the levels it was given one-hot
    codes for: the alphabet sizes, the decay, the shape of every histogram
    and the histograms of the remaining levels are as before, the stored
    [cdfs] and [freq] tables are not recomputed (they are stale from then
    on), and the coder is marked dirty. *)
Theorem forward_frame :
  forall (self self' : EntropyCoder) (oneHotCodes : list (Tensor Q))
         (peers : list (list (Matrix Q))),
    forward self oneHotCodes peers = Ok self' ->
    _k self' = _k self /\ _decay self' = _decay self /\
    cdfs self' = cdfs self /\ freq self' = freq self /\
    needUpdate self' = true /\
    map (@mat_shape Q) (_freqEMA self') = map (@mat_shape Q) (_freqEMA self) /\
    forall lv, length oneHotCodes <= lv ->
      nth_error (_freqEMA self') lv = nth_error (_freqEMA self) lv.
Proof.
  intros self self' codes peers Hrun. unfold forward in Hrun.
  apply bind_ok in Hrun. destruct Hrun as (F' & Hloop & Hself).
  injection Hself as <-. cbn.
  unfold enumerate in Hloop. apply forward_loop_frame in Hloop.
  destruct Hloop as (Hs & Hfr & _).
  repeat split; try reflexivity; [exact Hs|].
  intros lv Hlv. apply Hfr. right. lia.
Qed.

Lemma forward_frame_witness :
  exists self',
    forward (init 1 [2; 3] (1 # 2)) [mkTensor [1; 1; 1; 1; 2] [1; 0]%Q] []
    = Ok self' /\
    nth_error (_freqEMA self') 1 = Some [[1; 1; 1]%Q] /\
    needUpdate self' = true.
Proof.
  destruct (forward (init 1 [2; 3] (1 # 2))
              [mkTensor [1; 1; 1; 1; 2] [1; 0]%Q] []) as [self'|msg] eqn:E;
    [|vm_compute in E; discriminate E].
  exists self'. split; [reflexivity|].
  destruct (forward_frame _ _ _ _ E) as (_ & _ & _ & _ & Hd & _ & Hfr).
  split; [|exact Hd].
  rewrite (Hfr 1) by (simpl; lia). reflexivity.
Defined.

(** X4. [EntropyCoder.forward] cannot be given more levels than the coder
    tracks: with more one-hot tensors than histograms it raises (at the
    first level for which [self._freqEMA[lv]] does not exist, if not
    before). *)
Theorem forward_rejects_extra_levels :
  forall (self : EntropyCoder) (oneHotCodes : list (Tensor Q))
         (peers : list (list (Matrix Q))),
    length (_freqEMA self) < length oneHotCodes ->
    exists msg, forward self oneHotCodes peers = Raise msg.
Proof.
  intros self codes peers Hlen.
  destruct (forward self codes peers) as [self'|msg] eqn:E;
    [|exists msg; reflexivity].
  exfalso. unfold forward in E.
  apply bind_ok in E. destruct E as (F' & Hloop & _).
  unfold enumerate in Hloop. apply forward_loop_frame in Hloop.
  destruct Hloop as (_ & _ & [-> | Hle]); cbn in *; lia.
Qed.

Lemma forward_rejects_extra_levels_witness :
  exists msg,
    forward (init 1 [2] (1 # 2))
      [mkTensor [1; 1; 1; 1; 2] [1; 0]%Q; mkTensor [1; 1; 1; 1; 2] [0; 1]%Q]
      [] = Raise msg.
Proof.
  apply (forward_rejects_extra_levels (init 1 [2] (1 # 2))
           [mkTensor [1; 1; 1; 1; 2] [1; 0]%Q;
            mkTensor [1; 1; 1; 1; 2] [0; 1]%Q] []).
  simpl. lia.
Defined.

(** X5. The invariant of the coder.  In every state reached from the
    constructor by frequency updates with non-negative counts and by reads
    of [Freq] and [CDFs], the alphabet sizes are those given to the
    constructor, there is one histogram per level, the histogram of a level
    with alphabet size [ki] has [m] rows of [ki] non-negative values, and
    the decay lies in [[0, 1]]. *)
Theorem reachable_histograms :
  forall (pmf : list Q -> Z -> list Z) (m : nat) (k : list nat)
         (self : EntropyCoder),
    reachable pmf m k self ->
    _k self = k /\
    length (_freqEMA self) = length k /\
    (forall lv F ki,
       nth_error (_freqEMA self) lv = Some F -> nth_error k lv = Some ki ->
       length F = m /\
       Forall (fun row => length row = ki /\
                          Forall (fun e => (0 <= e)%Q) row) F) /\
    (0 <= _decay self)%Q /\ (_decay self <= 1)%Q.
Proof.
  intros pmf m k self Hreach.
  destruct (reachable_inv pmf m k self Hreach)
    as (Hk & _ & Hshape & Hnn & Hd0 & Hd1).
  split; [exact Hk|]. split; [apply (Forall2_length Hshape)|].
  split; [|split; assumption].
  intros lv F ki HF Hki.
  assert (HFs : mat_shape F = repeat ki m).
  { clear - Hshape HF Hki. revert lv HF Hki.
    induction Hshape as [|F0 k0 Fs ks H0 _ IH]; intros [|lv] HF Hki;
      cbn in *; try discriminate.
    - injection HF as <-. injection Hki as <-. exact H0.
    - apply (IH lv); assumption. }
  apply mat_shape_rows in HFs. destruct HFs as [Hlen Hrows].
  split; [exact Hlen|].
  assert (HFnn : nonneg_matrix F).
  { rewrite Forall_forall in Hnn. apply Hnn.
    apply (nth_error_In _ _ HF). }
  unfold nonneg_matrix in HFnn. rewrite Forall_forall in *.
  intros row Hrow. split; [apply Hrows | apply HFnn]; exact Hrow.
Qed.

Lemma reachable_histograms_witness :
  let self := snd (CDFs pmfToQuantizedCDF (init 2 [3; 1] (99 # 100))) in
  _k self = [3; 1] /\
  length (_freqEMA self) = 2 /\
  (forall lv F ki,
     nth_error (_freqEMA self) lv = Some F -> nth_error [3; 1] lv = Some ki ->
     length F = 2 /\
     Forall (fun row => length row = ki /\
                        Forall (fun e => (0 <= e)%Q) row) F) /\
  (0 <= _decay self)%Q /\ (_decay self <= 1)%Q.
Proof.
  apply (reachable_histograms pmfToQuantizedCDF 2 [3; 1]).
  apply reach_CDFs. apply reach_init; unfold Qle; simpl; lia.
Defined.

(** X6. Reading the tables does not change them.  In any state, a second
    read of [CDFs] right after a first one returns the same tables and
    leaves the state as the first read left it; the same holds of [Freq];
    and the state [compress] leaves behind yields the tables that the state
    before it yields.  Only [forward] changes what the two properties
    return. *)
Theorem table_reads_are_stable :
  forall (pmf : list Q -> Z -> list Z)
         (enc : list Z -> list Z -> list (list Z) -> list Z -> list Z -> bytes)
         (self : EntropyCoder) (codes : list (Tensor Z)),
    CDFs pmf (snd (CDFs pmf self)) = (fst (CDFs pmf self), snd (CDFs pmf self))
    /\ Freq (snd (Freq self)) = (fst (Freq self), snd (Freq self))
    /\ fst (CDFs pmf (snd (compress pmf enc self codes)))
       = fst (CDFs pmf self).
Proof.
  intros pmf enc self codes.
  assert (HC : forall s,
             CDFs pmf (snd (CDFs pmf s)) = (fst (CDFs pmf s), snd (CDFs pmf s))).
  { intros [F kk d [c|] [f|] [|]]; reflexivity. }
  split; [apply HC|]. split.
  - destruct self as [F kk d [c|] [f|] [|]]; reflexivity.
  - unfold compress. destruct (_checkShape codes) as [[n m]|msg];
      [|reflexivity].
    destruct (CDFs pmf self) as [tables self1] eqn:E.
    cbn [snd fst].
    replace self1 with (snd (CDFs pmf self)) by (rewrite E; reflexivity).
    replace tables with (fst (CDFs pmf self)) by (rewrite E; reflexivity).
    rewrite HC. reflexivity.
Qed.

(** X7. The range of the exposed frequencies.  In every reachable state,
    for every group whose EMA total is not zero, each value that [Freq]
    returns is an integer between [0] and [65536 = 2^16] inclusive. *)
Theorem Freq_within_16_bits :
  forall (pmf : list Q -> Z -> list Z) (m : nat) (k : list nat)
         (self : EntropyCoder),
    reachable pmf m k self ->
    Forall2
      (Forall2 (fun row f =>
                  (0 < Qsum row)%Q ->
                  Forall (fun fi => (0 <= fi <= 65536)%Z) f))
      (_freqEMA self) (fst (Freq self)).
Proof.
  intros pmf m k self Hreach.
  destruct (reachable_inv pmf m k self Hreach)
    as (_ & Hdirty & _ & Hnn & _).
  rewrite (Freq_dirty self Hdirty). cbn [fst].
  apply Forall2_map_r. intros F HF. apply Forall2_map_r. intros row Hrow _.
  rewrite Forall_forall in Hnn. specialize (Hnn F HF).
  unfold nonneg_matrix in Hnn. rewrite Forall_forall in Hnn.
  specialize (Hnn row Hrow).
  pose proof (normalize16_nonneg row Hnn) as H0.
  pose proof (normalize16_le row Hnn) as H1.
  rewrite Forall_forall in *. intros fi Hfi.
  split; [apply H0 | apply H1]; exact Hfi.
Qed.

Lemma Freq_within_16_bits_witness :
  Forall2
    (Forall2 (fun row f =>
                (0 < Qsum row)%Q ->
                Forall (fun fi => (0 <= fi <= 65536)%Z) f))
    (_freqEMA (init 2 [3; 1] (99 # 100)))
    (fst (Freq (init 2 [3; 1] (99 # 100)))).
Proof.
  apply (Freq_within_16_bits pmfToQuantizedCDF 2 [3; 1]).
  apply reach_init; unfold Qle; simpl; lia.
Defined.

(* ================================================================== *)
(** * Further properties of multi-level decoding *)
(* ================================================================== *)

Lemma combine_app_eq {A B : Type} : forall (l1 l1' : list A) (l2 l2' : list B),
  length l1 = length l2 ->
  combine (l1 ++ l1') (l2 ++ l2') = combine l1 l2 ++ combine l1' l2'.
Proof.
  induction l1 as [|a l1 IH]; intros l1' [|b l2] l2' H; cbn in *;
    try discriminate; [reflexivity|].
  f_equal. apply IH. lia.
Qed.

Lemma combine_nil_either {A B : Type} (l1 : list A) (l2 : list B) :
  l1 = [] \/ l2 = [] -> combine l1 l2 = [].
Proof.
  intros [-> | ->]; [reflexivity | destruct l1; reflexivity].
Qed.

Lemma skipn_0_or {A B : Type} (ds : list A) (cs : list B) :
  firstn (length ds - length cs) ds = []
  \/ firstn (length cs - length ds) cs = [].
Proof.
  destruct (Nat.le_ge_cases (length ds) (length cs)) as [H | H].
  - left. replace (length ds - length cs) with 0 by lia. reflexivity.
  - right. replace (length cs - length ds) with 0 by lia. reflexivity.
Qed.

(** Zipping two reversed lists pairs their last items, then the items
    before them, and stops when the shorter list is used up. *)
Lemma combine_rev_tails {A B : Type} (ds : list A) (cs : list B) :
  combine (rev ds) (rev cs)
  = combine (rev (skipn (length ds - length cs) ds))
            (rev (skipn (length cs - length ds) cs)).
Proof.
  pose proof (skipn_0_or ds cs) as Hnil.
  set (a := length ds - length cs) in *.
  set (b := length cs - length ds) in *.
  assert (Hlen : length (rev (skipn a ds)) = length (rev (skipn b cs)))
    by (rewrite !length_rev, !length_skipn; lia).
  rewrite <- (firstn_skipn a ds) at 1.
  rewrite <- (firstn_skipn b cs) at 1.
  rewrite !rev_app_distr, combine_app_eq by exact Hlen.
  rewrite (combine_nil_either (rev (firstn a ds)) (rev (firstn b cs))).
  - apply app_nil_r.
  - destruct Hnil as [-> | ->]; [left | right]; reflexivity.
Qed.

(** X8. [UMGMQuantizer.decode] with code and decoder lists of any lengths.
    Since both lists are walked from their ends, the decoders and the codes
    are aligned at the last (coarsest) level: with fewer codes than
    decoders, the codes are decoded by the last decoders; with more codes
    than decoders, the leading codes are ignored.  With no code (or no
    decoder) at all, the result is [None], not an error. *)
Theorem UMGM_decode_aligns_at_coarsest :
  forall (decoders : list QuantizerDecoder) (codes : list (Tensor Z)),
    UMGM_decode decoders codes
    = UMGM_reconstruct (skipn (length decoders - length codes) decoders)
                       (skipn (length codes - length decoders) codes)
    /\ UMGM_decode decoders [] = Ok None
    /\ UMGM_decode [] codes = Ok None.
Proof.
  intros decoders codes. split; [|split].
  - unfold UMGM_decode. rewrite combine_rev_tails.
    rewrite foldM_rev_combine by (rewrite !length_skipn; lia).
    apply UMGM_reconstruct_fold.
  - unfold UMGM_decode. cbn [rev]. rewrite combine_nil_either by (right; reflexivity).
    reflexivity.
  - reflexivity.
Qed.

(** X9. [ResidualBackwardQuantizer.decode] with code and level lists of
    any lengths.  The codes arrive coarsest first and are zipped with the
    reversed level list, so the leading codes are decoded by the last
    levels: a prefix of the code list is decoded into the reconstruction of
    the coarsest levels, and codes beyond the number of levels are
    ignored. *)
Theorem RB_decode_takes_leading_codes :
  forall (levels : list BackwardLevel) (codes : list (Tensor Z)),
    RB_decode levels codes
    = RB_reconstruct (skipn (length levels - length codes) levels)
                     (rev (firstn (length levels) codes)).
Proof.
  intros levels codes. unfold RB_decode.
  rewrite <- (firstn_skipn (length levels) codes) at 1.
  rewrite <- (firstn_skipn (length levels - length codes) levels) at 1.
  rewrite rev_app_distr.
  rewrite combine_app_eq
    by (rewrite length_rev, length_skipn, length_firstn; lia).
  rewrite (combine_nil_either (rev (firstn _ levels)) (skipn _ codes)).
  - rewrite app_nil_r.
    rewrite <- (rev_involutive (firstn (length levels) codes)) at 1.
    rewrite foldM_rev_combine
      by (rewrite length_rev, length_skipn, length_firstn; lia).
    apply RB_reconstruct_fold.
  - destruct (Nat.le_ge_cases (length levels) (length codes)) as [H | H].
    + left. replace (length levels - length codes) with 0 by lia.
      reflexivity.
    + right. apply skipn_all2. exact H.
Qed.



Lemma nth_error_rev_in {A : Type} (l : list A) s :
  s < length l -> nth_error (rev l) s = nth_error l (length l - S s).
Proof.
  intros Hs.
  destruct l as [|a0 l0] eqn:E; [cbn in Hs; lia|]. rewrite <- E in *.
  rewrite (nth_error_nth' (rev l) a0) by (rewrite length_rev; lia).
  rewrite (nth_error_nth' l a0) by lia.
  rewrite rev_nth by lia. reflexivity.
Qed.

Lemma skipn_nth_error {A : Type} : forall (l : list A) s a,
  nth_error l s = Some a -> skipn s l = a :: skipn (S s) l.
Proof.
  induction l as [|x l IH]; intros [|s] a H; cbn in *; try discriminate.
  - injection H as ->. reflexivity.
  - apply IH. exact H.
Qed.

Lemma pyindex_from_end {A : Type} (l : list A) s a :
  nth_error (rev l) s = Some a ->
  pyindex l (- (Z.of_nat s + 1))%Z = Ok a.
Proof.
  intros H.
  assert (Hs : s < length l).
  { rewrite <- (length_rev l). apply nth_error_Some. rewrite H.
    discriminate. }
  rewrite nth_error_rev_in in H by exact Hs.
  unfold pyindex.
  replace (0 <=? - (Z.of_nat s + 1))%Z with false by (symmetry; apply Z.leb_gt; lia).
  cbn [andb].
  replace (- Z.of_nat (length l) <=? - (Z.of_nat s + 1))%Z with true
    by (symmetry; apply Z.leb_le; lia).
  replace (- (Z.of_nat s + 1) <? 0)%Z with true
    by (symmetry; apply Z.ltb_lt; lia).
  cbn [andb].
  replace (Z.to_nat (Z.of_nat (length l) + - (Z.of_nat s + 1)))
    with (length l - S s) by lia.
  apply getitem_ok. exact H.
Qed.

(** The loop of [decode] from its [s]-th iteration on is the chain of
    [residual_forward] from level [s] on. *)
Lemma RB_decode_chain_from levels : forall codes s st,
  s + length codes <= length levels ->
  (st = None <-> s = 0) ->
  foldM (fun formerLevel (it : BackwardLevel * Tensor Z) =>
           let (level, code) := it in
           quantized <- dequantize (bl_codebook level) code ;;
           match formerLevel with
           | None => Ok (Some (bl_decoder level quantized))
           | Some former =>
               s <- tadd quantized former ;;
               Ok (Some (bl_decoder level s))
           end)
        (combine (skipn s (rev levels)) codes) st
  = foldM (fun formerLevel (it : nat * Tensor Z) =>
             r <- residual_forward levels (snd it) formerLevel
                                   (Z.of_nat (fst it)) ;;
             Ok (Some r))
          (combine (seq s (length codes)) codes) st.
Proof.
  induction codes as [|c codes IH]; intros s st Hlen Hst.
  - cbn. destruct (skipn s (rev levels)); reflexivity.
  - cbn [length] in Hlen.
    destruct (nth_error (rev levels) s) as [lvl|] eqn:Hlvl.
    2:{ apply nth_error_None in Hlvl. rewrite length_rev in Hlvl. lia. }
    rewrite (skipn_nth_error _ _ _ Hlvl).
    cbn [length seq combine foldM fst snd].
    unfold residual_forward.
    rewrite (pyindex_from_end levels s lvl Hlvl).
    assert (Hnext : forall r : Tensor Q, Some r = None <-> S s = 0).
    { intros r. split; [discriminate | lia]. }
    destruct st as [former|].
    + assert (Hs : s <> 0) by (intros ->; destruct Hst as [_ H];
                                 discriminate (H eq_refl)).
      replace (Z.of_nat s =? 0)%Z with false
        by (symmetry; apply Z.eqb_neq; lia).
      cbn [bind].
      destruct (dequantize (bl_codebook lvl) c) as [q|msg]; cbn [bind];
        [|reflexivity].
      destruct (tadd q former) as [t|msg]; cbn [bind]; [|reflexivity].
      apply IH; [lia | apply Hnext].
    + assert (Hs : s = 0) by (apply Hst; reflexivity). subst s.
      cbn [Z.of_nat Z.ltb Z.compare bind].
      destruct (dequantize (bl_codebook lvl) c) as [q|msg]; cbn [bind];
        [|reflexivity].
      apply IH; [lia | apply Hnext].
Qed.

(** X11. Level-wise and whole reconstruction agree.  Calling
    [ResidualBackwardQuantizer.residual_forward] level after level - level
    [0] with [formerLevel = None], then each next level with the previous
    result - gives what [decode] gives on the same codes, errors
    included, as long as there are no more codes than levels. *)
Theorem RB_decode_is_residual_forward_chain :
  forall (levels : list BackwardLevel) (codes : list (Tensor Z)),
    length codes <= length levels ->
    RB_decode levels codes = residual_forward_chain levels codes.
Proof.
  intros levels codes Hlen. unfold RB_decode, residual_forward_chain, enumerate.
  apply (RB_decode_chain_from levels codes 0 None); [lia | tauto].
Qed.

Lemma RB_decode_is_residual_forward_chain_witness :
  RB_decode [backward_level0; backward_level1]
            [mkTensor [1; 1; 1; 1] [2%Z]; mkTensor [1; 1; 1; 1] [3%Z]]
  = residual_forward_chain [backward_level0; backward_level1]
      [mkTensor [1; 1; 1; 1] [2%Z]; mkTensor [1; 1; 1; 1] [3%Z]].
Proof.
  apply (RB_decode_is_residual_forward_chain
           [backward_level0; backward_level1]
           [mkTensor [1; 1; 1; 1] [2%Z]; mkTensor [1; 1; 1; 1] [3%Z]]).
  simpl. lia.
Defined.

(* ================================================================== *)
(** * Indexing nested loops *)
(* ================================================================== *)

Lemma length_flat_map_seq {B : Type} (f : nat -> list B) sz : forall n s,
  (forall a, s <= a < s + n -> length (f a) = sz) ->
  length (flat_map f (seq s n)) = n * sz.
Proof.
  induction n as [|n IH]; intros s H; [reflexivity|].
  cbn [seq flat_map]. rewrite length_app, H by lia.
  rewrite IH by (intros a Ha; apply H; lia). cbn. lia.
Qed.

(** In a concatenation of [n] blocks of [sz] items, the items
    [j, ..., j + c - 1] of block [i] are [c] consecutive items from
    position [i * sz + j] on. *)
Lemma chunk_flat_map_seq {B : Type} (f : nat -> list B) sz c :
  forall n s i j,
    (forall a, s <= a < s + n -> length (f a) = sz) ->
    i < n -> j + c <= sz ->
    firstn c (skipn (i * sz + j) (flat_map f (seq s n)))
    = firstn c (skipn j (f (s + i))).
Proof.
  induction n as [|n IH]; intros s i j H Hi Hj; [lia|].
  cbn [seq flat_map].
  assert (Hs : length (f s) = sz) by (apply H; lia).
  destruct i as [|i].
  - cbn [Nat.mul Nat.add]. rewrite Nat.add_0_r.
    rewrite skipn_app, firstn_app, length_skipn, Hs.
    replace (c - (sz - j)) with 0 by lia. cbn [firstn].
    apply app_nil_r.
  - rewrite skipn_app, Hs.
    rewrite (skipn_all2 (f s)) by lia. cbn [app].
    replace (S i * sz + j - sz) with (i * sz + j) by (cbn; lia).
    rewrite IH; [| intros a Ha; apply H; lia | lia | lia].
    f_equal. f_equal. f_equal. lia.
Qed.

Lemma nth_hd_skipn {B : Type} (d : B) : forall (l : list B) p,
  nth p l d = hd d (firstn 1 (skipn p l)).
Proof.
  induction l as [|x l IH]; intros [|p]; cbn; try reflexivity. apply IH.
Qed.

Lemma nth_flat_map_seq {B : Type} (f : nat -> list B) sz n i j d :
  (forall a, a < n -> length (f a) = sz) ->
  i < n -> j < sz ->
  nth (i * sz + j) (flat_map f (seq 0 n)) d = nth j (f i) d.
Proof.
  intros H Hi Hj. rewrite !nth_hd_skipn.
  rewrite (chunk_flat_map_seq f sz 1 n 0 i j);
    [reflexivity | intros a Ha; apply H; lia | exact Hi | lia].
Qed.

Lemma unravel2 a b r :
  r < a * b -> exists i j, i < a /\ j < b /\ r = i * b + j.
Proof.
  intros Hr. assert (Hb : b <> 0) by nia.
  exists (r / b), (r mod b). split; [|split].
  - apply Nat.Div0.div_lt_upper_bound. lia.
  - apply Nat.mod_upper_bound. exact Hb.
  - rewrite (Nat.div_mod_eq r b) at 1. lia.
Qed.

(** Every position of a contiguous [n, m, h, w] tensor is that of one
    index tuple. *)
Lemma unravel4 n m h w r :
  r < n * m * h * w ->
  exists ni mi hi wi,
    ni < n /\ mi < m /\ hi < h /\ wi < w /\
    r = ((ni * m + mi) * h + hi) * w + wi.
Proof.
  intros Hr.
  destruct (unravel2 (n * m * h) w r Hr) as (r1 & wi & Hr1 & Hwi & ->).
  destruct (unravel2 (n * m) h r1 Hr1) as (r2 & hi & Hr2 & Hhi & ->).
  destruct (unravel2 n m r2 Hr2) as (ni & mi & Hni & Hmi & ->).
  exists ni, mi, hi, wi. repeat split; assumption.
Qed.

Lemma ravel4_lt n m h w ni mi hi wi :
  ni < n -> mi < m -> hi < h -> wi < w ->
  ((ni * m + mi) * h + hi) * w + wi < n * m * h * w.
Proof.
  intros Hn Hm Hh Hw.
  assert (H1 : ni * m + mi < n * m) by nia.
  assert (H2 : (ni * m + mi) * h + hi < n * m * h) by nia.
  nia.
Qed.

Section Tabulate5.

Variable B : Type.
Variable F : nat -> nat -> nat -> nat -> nat -> B.
Variables n m h w k : nat.

Lemma length_tabulate5 : length (tabulate5 F n m h w k) = n * (m * (h * (w * k))).
Proof.
  unfold tabulate5.
  apply length_flat_map_seq. intros ni _.
  apply length_flat_map_seq. intros mi _.
  apply length_flat_map_seq. intros hi _.
  apply length_flat_map_seq. intros wi _.
  rewrite length_map. apply length_seq.
Qed.

(** The row of the last dimension at [ni, mi, hi, wi]. *)
Lemma chunk_tabulate5 ni mi hi wi :
  ni < n -> mi < m -> hi < h -> wi < w ->
  firstn k (skipn ((((ni * m + mi) * h + hi) * w + wi) * k) (tabulate5 F n m h w k))
  = map (fun ki => F ni mi hi wi ki) (seq 0 k).
Proof.
  intros Hn Hm Hh Hw. unfold tabulate5.
  replace ((((ni * m + mi) * h + hi) * w + wi) * k)
    with (ni * (m * (h * (w * k)))
          + (mi * (h * (w * k)) + (hi * (w * k) + (wi * k + 0)))) by ring.
  assert (L4 : forall ni mi hi wi : nat,
             length (map (fun ki => F ni mi hi wi ki) (seq 0 k)) = k)
    by (intros; rewrite length_map; apply length_seq).
  assert (L3 : forall ni mi hi : nat,
             length (flat_map (fun wi => map (fun ki => F ni mi hi wi ki)
                                             (seq 0 k)) (seq 0 w)) = w * k)
    by (intros; apply length_flat_map_seq; intros; apply L4).
  assert (L2 : forall ni mi : nat,
             length (flat_map (fun hi =>
                       flat_map (fun wi => map (fun ki => F ni mi hi wi ki)
                                               (seq 0 k)) (seq 0 w))
                     (seq 0 h)) = h * (w * k))
    by (intros; apply length_flat_map_seq; intros; apply L3).
  assert (L1 : forall ni : nat,
             length (flat_map (fun mi =>
                       flat_map (fun hi =>
                         flat_map (fun wi => map (fun ki => F ni mi hi wi ki)
                                                 (seq 0 k)) (seq 0 w))
                         (seq 0 h))
                     (seq 0 m)) = m * (h * (w * k)))
    by (intros; apply length_flat_map_seq; intros; apply L2).
  assert (B3 : wi * k + 0 + k <= w * k) by nia.
  assert (B2 : hi * (w * k) + (wi * k + 0) + k <= h * (w * k)) by nia.
  assert (B1 : mi * (h * (w * k)) + (hi * (w * k) + (wi * k + 0)) + k
               <= m * (h * (w * k))) by nia.
  rewrite (chunk_flat_map_seq _ (m * (h * (w * k))) k n 0 ni)
    by (try (intros; apply L1); lia).
  rewrite (chunk_flat_map_seq _ (h * (w * k)) k m 0 mi)
    by (try (intros; apply L2); lia).
  rewrite (chunk_flat_map_seq _ (w * k) k h 0 hi)
    by (try (intros; apply L3); lia).
  rewrite (chunk_flat_map_seq _ k k w 0 wi)
    by (try (intros; apply L4); lia).
  cbn [Nat.add skipn]. rewrite <- (L4 ni mi hi wi) at 1.
  apply firstn_all.
Qed.

Lemma nth_tabulate5 ni mi hi wi ki d :
  ni < n -> mi < m -> hi < h -> wi < w -> ki < k ->
  nth ((((ni * m + mi) * h + hi) * w + wi) * k + ki) (tabulate5 F n m h w k) d
  = F ni mi hi wi ki.
Proof.
  intros Hn Hm Hh Hw Hk.
  pose proof (chunk_tabulate5 ni mi hi wi Hn Hm Hh Hw) as Hc.
  set (p := (((ni * m + mi) * h + hi) * w + wi) * k) in *.
  assert (Hlen : p + k <= length (tabulate5 F n m h w k)).
  { rewrite length_tabulate5. unfold p.
    pose proof (ravel4_lt n m h w ni mi hi wi Hn Hm Hh Hw). nia. }
  rewrite <- (firstn_skipn p (tabulate5 F n m h w k)) at 1.
  rewrite app_nth2 by (rewrite length_firstn; lia).
  rewrite length_firstn, Nat.min_l by lia.
  replace (p + ki - p) with ki by lia.
  rewrite <- (firstn_skipn k (skipn p (tabulate5 F n m h w k))).
  rewrite app_nth1 by (rewrite length_firstn, length_skipn; lia).
  rewrite Hc. apply nth_map_seq. exact Hk.
Qed.

End Tabulate5.

(* ================================================================== *)
(** * Quantization: the codes *)
(* ================================================================== *)

Lemma first_min_snoc_better pre v best :
  first_min pre best -> (v < nth best pre 0)%Q ->
  first_min (pre ++ [v]) (length pre).
Proof.
  intros (Hb & Hle & Hlt) Hv. unfold first_min.
  rewrite length_app. cbn [length].
  rewrite nth_middle.
  split; [lia|]. split.
  - intros j Hj. destruct (Nat.eq_dec j (length pre)) as [-> | Hne].
    + rewrite nth_middle. apply Qle_refl.
    + rewrite app_nth1 by lia. specialize (Hle j ltac:(lia)). lra.
  - intros j Hj. rewrite app_nth1 by lia. specialize (Hle j Hj). lra.
Qed.

Lemma first_min_snoc_keep pre v best :
  first_min pre best -> (nth best pre 0 <= v)%Q ->
  first_min (pre ++ [v]) best.
Proof.
  intros (Hb & Hle & Hlt) Hv. unfold first_min.
  rewrite length_app. cbn [length].
  rewrite (app_nth1 pre [v] 0%Q Hb).
  split; [lia|]. split.
  - intros j Hj. destruct (Nat.eq_dec j (length pre)) as [-> | Hne].
    + rewrite nth_middle. exact Hv.
    + rewrite app_nth1 by lia. apply Hle. lia.
  - intros j Hj. rewrite app_nth1 by lia. apply Hlt. exact Hj.
Qed.

Lemma argmin_from_spec : forall l pre best,
  first_min pre best ->
  first_min (pre ++ l) (argmin_from best (nth best pre 0%Q) (length pre) l).
Proof.
  induction l as [|v l IH]; intros pre best Hmin.
  - rewrite app_nil_r. exact Hmin.
  - cbn [argmin_from].
    replace (pre ++ v :: l) with ((pre ++ [v]) ++ l)
      by (rewrite <- app_assoc; reflexivity).
    destruct (Qltb v (nth best pre 0%Q)) eqn:E.
    + apply Qltb_true in E.
      pose proof (first_min_snoc_better pre v best Hmin E) as Hmin'.
      specialize (IH (pre ++ [v]) (length pre) Hmin').
      rewrite nth_middle, length_app in IH. cbn [length] in IH.
      rewrite Nat.add_1_r in IH. exact IH.
    + apply Qltb_false in E.
      pose proof (first_min_snoc_keep pre v best Hmin E) as Hmin'.
      specialize (IH (pre ++ [v]) best Hmin').
      destruct Hmin as (Hb & _).
      rewrite (app_nth1 pre [v] 0%Q Hb), length_app in IH.
      cbn [length] in IH. rewrite Nat.add_1_r in IH. exact IH.
Qed.

(** [argmin] returns the index of the first least item. *)
Lemma argmin_spec l : l <> [] -> first_min l (argmin l).
Proof.
  destruct l as [|v l]; [congruence|]. intros _.
  apply (argmin_from_spec l [v] 0).
  unfold first_min. cbn [length]. split; [lia|]. split.
  - intros [|j] Hj; [apply Qle_refl | lia].
  - intros j Hj. lia.
Qed.

Lemma sqdist_self u : (sqdist u u == 0)%Q.
Proof.
  unfold sqdist. induction u as [|a u IH]; [reflexivity|].
  cbn [map2]. rewrite Qsum_cons, IH. ring.
Qed.

Lemma cb_dims_group cb m k d mi :
  cb_dims cb m k d -> mi < m ->
  length (nth mi cb []) = k /\
  forall j, j < k -> length (cb_entry cb mi j) = d.
Proof.
  intros [Hm Hall] Hmi. rewrite Forall_forall in Hall.
  assert (Hin : In (nth mi cb []) cb) by (apply nth_In; lia).
  destruct (Hall _ Hin) as [Hk Hd]. split; [exact Hk|].
  intros j Hj. unfold cb_entry. rewrite Forall_forall in Hd.
  apply Hd. apply nth_In. lia.
Qed.

Lemma cb_dims_read cb m k d :
  cb_dims cb m k d -> 0 < m -> 0 < k ->
  length cb = m /\ length (nth 0 cb []) = k /\
  length (nth 0 (nth 0 cb []) []) = d.
Proof.
  intros Hcb Hm Hk. split; [apply Hcb|].
  destruct (cb_dims_group cb m k d 0 Hcb Hm) as [H1 H2].
  split; [exact H1 | apply (H2 0 Hk)].
Qed.

Lemma numel_reshape5 n m d h w :
  (numel [n; m * d; h; w] =? numel [n; m; d; h; w]) = true.
Proof. apply Nat.eqb_eq. cbn [numel fold_right]. ring. Qed.

Lemma example_codebook_dims : cb_dims example_codebook 1 2 2.
Proof.
  split; [reflexivity|].
  repeat (apply Forall_cons; [split; [reflexivity|]|]);
    repeat (apply Forall_cons; [reflexivity|]); apply Forall_nil.
Qed.

(** X13. What [_multiCodebookQuantization.encode] returns.  For a
    codebook of [m] groups of [k] entries of [d] components ([m, k >= 1])
    and a feature tensor [n, m * d, h, w], [encode] raises no error and
    returns a contiguous code tensor [n, m, h, w] in which every code lies
    in [[0, k)]: the codes are what the entropy coder accepts. *)
Theorem quantize_codes_in_range :
  forall (cb : list (Matrix Q)) (x : Tensor Q) (n m k d h w : nat),
    cb_dims cb m k d -> 0 < m -> 0 < k ->
    shape x = [n; m * d; h; w] ->
    exists code,
      quantize cb x = Ok code /\
      shape code = [n; m; h; w] /\
      code_ok n m code k.
Proof.
  intros cb x n m k d h w Hcb Hm Hk Hs.
  destruct (cb_dims_read cb m k d Hcb Hm Hk) as (Lm & Lk & Ld).
  unfold quantize, _distance.
  rewrite Hs, Lm, Lk, Ld, numel_reshape5. cbn [bind shape data].
  replace (k =? 0) with false by (symmetry; apply Nat.eqb_neq; lia).
  set (dist := fun ni mi hi wi ki : nat => _).
  set (row := fun r : nat => firstn k (skipn (r * k) (tabulate5 dist n m h w k))).
  assert (HN : numel [n; m; h; w] = n * m * h * w)
    by (cbn [numel fold_right]; ring).
  assert (Hrow : forall ni mi hi wi,
             ni < n -> mi < m -> hi < h -> wi < w ->
             row (((ni * m + mi) * h + hi) * w + wi)
             = map (fun ki => dist ni mi hi wi ki) (seq 0 k)).
  { intros. unfold row. apply chunk_tabulate5; assumption. }
  assert (Hmin : forall ni mi hi wi,
             ni < n -> mi < m -> hi < h -> wi < w ->
             first_min (map (fun ki => dist ni mi hi wi ki) (seq 0 k))
                       (argmin (row (((ni * m + mi) * h + hi) * w + wi)))).
  { intros ni mi hi wi Hni Hmi Hhi Hwi. rewrite Hrow by assumption.
    apply argmin_spec. intros E. apply (f_equal (@length Q)) in E.
    rewrite length_map, length_seq in E. cbn in E. lia. }
  eexists. split; [reflexivity|]. split; [reflexivity|].
  split; [|split].
  - exists h, w. reflexivity.
  - unfold wf_tensor. cbn [data shape]. rewrite length_map, length_seq.
    reflexivity.
  - cbn [data]. apply Forall_forall. intros s Hin.
    apply in_map_iff in Hin. destruct Hin as (r & <- & Hr).
    apply in_seq in Hr. rewrite HN in Hr.
    destruct (unravel4 n m h w r ltac:(lia))
      as (ni & mi & hi & wi & Hni & Hmi & Hhi & Hwi & ->).
    destruct (Hmin ni mi hi wi Hni Hmi Hhi Hwi) as (Hlt & _).
    rewrite length_map, length_seq in Hlt. fold (row (((ni * m + mi) * h + hi) * w + wi)). lia.
Qed.

Lemma quantize_codes_in_range_witness :
  exists code,
    quantize example_codebook example_feature = Ok code /\
    shape code = [1; 1; 1; 1] /\
    code_ok 1 1 code 2.
Proof.
  destruct (quantize_codes_in_range example_codebook example_feature
              1 1 2 2 1 1 example_codebook_dims)
    as (code & Hq & Hs & Hok).
  - lia.
  - lia.
  - reflexivity.
  - exists code. split; [exact Hq|]. split; [exact Hs | exact Hok].
Defined.

(* ================================================================== *)
(** * Dequantization *)
(* ================================================================== *)

Lemma pyindex_wrap {A : Type} (l : list A) (i : Z) d :
  (- Z.of_nat (length l) <= i < Z.of_nat (length l))%Z ->
  pyindex l i = Ok (nth (pywrap (length l) i) l d).
Proof.
  intros Hi. unfold pyindex, pywrap.
  destruct (Z.ltb_spec i 0) as [Hneg | Hpos].
  - replace (0 <=? i)%Z with false by (symmetry; apply Z.leb_gt; lia).
    cbn [andb].
    replace (- Z.of_nat (length l) <=? i)%Z with true
      by (symmetry; apply Z.leb_le; lia).
    cbn [andb]. apply getitem_ok. apply nth_error_nth'. lia.
  - replace (0 <=? i)%Z with true by (symmetry; apply Z.leb_le; lia).
    replace (i <? Z.of_nat (length l))%Z with true
      by (symmetry; apply Z.ltb_lt; lia).
    cbn [andb]. apply getitem_ok. apply nth_error_nth'. lia.
Qed.

Lemma pyindex_out_of_range {A : Type} (l : list A) (i : Z) :
  (i < - Z.of_nat (length l) \/ Z.of_nat (length l) <= i)%Z ->
  exists msg, pyindex l i = Raise msg.
Proof.
  intros Hi. unfold pyindex.
  replace ((0 <=? i) && (i <? Z.of_nat (length l)))%Z with false
    by (symmetry; apply andb_false_iff;
        destruct Hi; [left; apply Z.leb_gt | right; apply Z.ltb_ge]; lia).
  replace ((- Z.of_nat (length l) <=? i) && (i <? 0))%Z with false
    by (symmetry; apply andb_false_iff;
        destruct Hi; [left; apply Z.leb_gt | right; apply Z.ltb_ge]; lia).
  eexists; reflexivity.
Qed.

Lemma mapM_ok_map {A B : Type} (f : A -> result B) (g : A -> B) l :
  (forall a, In a l -> f a = Ok (g a)) -> mapM f l = Ok (map g l).
Proof.
  intros H. rewrite <- (map_id l) at 1.
  apply (mapM_map_map f (fun a => a) g). exact H.
Qed.

Lemma mapM_raises {A B : Type} (f : A -> result B) : forall l a msg,
  In a l -> f a = Raise msg -> exists msg', mapM f l = Raise msg'.
Proof.
  induction l as [|x l IH]; intros a msg Hin Hf; [destruct Hin|].
  cbn [mapM]. destruct Hin as [-> | Hin].
  - rewrite Hf. eexists; reflexivity.
  - destruct (f x) as [b|msg0]; cbn [bind]; [|eexists; reflexivity].
    destruct (IH a msg Hin Hf) as (msg' & ->). eexists; reflexivity.
Qed.

Section Cells4.

Variables n C h w : nat.

Lemma length_cells4 :
  length (flat_map (fun ni =>
            flat_map (fun c =>
              flat_map (fun hi =>
                map (fun wi => (ni, c, hi, wi)) (seq 0 w))
                (seq 0 h))
              (seq 0 C))
            (seq 0 n))
  = n * (C * (h * w)).
Proof.
  apply length_flat_map_seq. intros ni _.
  apply length_flat_map_seq. intros c _.
  apply length_flat_map_seq. intros hi _.
  rewrite length_map. apply length_seq.
Qed.

Lemma nth_cells4 ni c hi wi :
  ni < n -> c < C -> hi < h -> wi < w ->
  nth (((ni * C + c) * h + hi) * w + wi)
      (flat_map (fun ni =>
         flat_map (fun c =>
           flat_map (fun hi =>
             map (fun wi => (ni, c, hi, wi)) (seq 0 w))
             (seq 0 h))
           (seq 0 C))
         (seq 0 n))
      (0, 0, 0, 0)
  = (ni, c, hi, wi).
Proof.
  intros Hn Hc Hh Hw.
  replace (((ni * C + c) * h + hi) * w + wi)
    with (ni * (C * (h * w)) + (c * (h * w) + (hi * w + wi))) by ring.
  assert (L3 : forall ni c hi : nat,
             length (map (fun wi => (ni, c, hi, wi)) (seq 0 w)) = w)
    by (intros; rewrite length_map; apply length_seq).
  assert (L2 : forall ni c : nat,
             length (flat_map (fun hi =>
                       map (fun wi => (ni, c, hi, wi)) (seq 0 w))
                     (seq 0 h)) = h * w)
    by (intros; apply length_flat_map_seq; intros; apply L3).
  assert (L1 : forall ni : nat,
             length (flat_map (fun c =>
                       flat_map (fun hi =>
                         map (fun wi => (ni, c, hi, wi)) (seq 0 w))
                         (seq 0 h))
                     (seq 0 C)) = C * (h * w))
    by (intros; apply length_flat_map_seq; intros; apply L2).
  assert (B2 : hi * w + wi < h * w).
  { assert (S hi * w <= h * w) by (apply Nat.mul_le_mono_r; lia). lia. }
  assert (B1 : c * (h * w) + (hi * w + wi) < C * (h * w)).
  { assert (S c * (h * w) <= C * (h * w))
      by (apply Nat.mul_le_mono_r; lia). lia. }
  rewrite (nth_flat_map_seq _ (C * (h * w)) n ni)
    by (try (intros; apply L1); assumption).
  rewrite (nth_flat_map_seq _ (h * w) C c)
    by (try (intros; apply L2); assumption).
  rewrite (nth_flat_map_seq _ w h hi)
    by (try (intros; apply L3); assumption).
  apply (nth_map_seq (fun wi => (ni, c, hi, wi))). exact Hw.
Qed.

Lemma In_cells4 ni c hi wi :
  In (ni, c, hi, wi)
     (flat_map (fun ni =>
        flat_map (fun c =>
          flat_map (fun hi =>
            map (fun wi => (ni, c, hi, wi)) (seq 0 w))
            (seq 0 h))
          (seq 0 C))
        (seq 0 n))
  <-> ni < n /\ c < C /\ hi < h /\ wi < w.
Proof.
  rewrite in_flat_map. split.
  - intros (ni' & Hni & H). apply in_flat_map in H.
    destruct H as (c' & Hc & H). apply in_flat_map in H.
    destruct H as (hi' & Hhi & H). apply in_map_iff in H.
    destruct H as (wi' & E & Hwi). injection E as -> -> -> ->.
    apply in_seq in Hni, Hc, Hhi, Hwi. lia.
  - intros (Hni & Hc & Hhi & Hwi).
    exists ni. split; [apply in_seq; lia|]. apply in_flat_map.
    exists c. split; [apply in_seq; lia|]. apply in_flat_map.
    exists hi. split; [apply in_seq; lia|]. apply in_map_iff.
    exists wi. split; [reflexivity | apply in_seq; lia].
Qed.

End Cells4.

Lemma div_mod_channel mi di d : di < d -> (mi * d + di) / d = mi /\ (mi * d + di) mod d = di.
Proof.
  intros Hd. split.
  - symmetry. apply (Nat.div_unique _ d mi di); lia.
  - symmetry. apply (Nat.mod_unique _ d mi di); lia.
Qed.

Lemma nth_in_range_or_default (P : Z -> Prop) (l : list Z) i :
  P 0%Z -> Forall P l -> P (nth i l 0%Z).
Proof.
  intros H0 Hl. destruct (Nat.lt_ge_cases i (length l)) as [Hi | Hi].
  - rewrite Forall_forall in Hl. apply Hl. apply nth_In. exact Hi.
  - rewrite nth_overflow by exact Hi. exact H0.
Qed.

(** The entries that [dequantize] looks up. *)
Lemma dequantize_lookup :
  forall (cb : list (Matrix Q)) (code : Tensor Z) (n m k d h w : nat),
    cb_dims cb m k d -> 0 < m -> 0 < k ->
    shape code = [n; m; h; w] ->
    Forall (fun s => (- Z.of_nat k <= s < Z.of_nat k)%Z) (data code) ->
    exists y,
      dequantize cb code = Ok y /\
      shape y = [n; m * d; h; w] /\ wf_tensor y /\
      forall ni mi hi wi,
        ni < n -> mi < m -> hi < h -> wi < w ->
        featureAt y m d h w ni mi hi wi
        = cb_entry cb mi (pywrap k (entry4 0%Z code m h w ni mi hi wi)).
Proof.
  intros cb code n m k d h w Hcb Hm Hk Hs Hrange.
  destruct (cb_dims_read cb m k d Hcb Hm Hk) as (Lm & Lk & Ld).
  unfold dequantize. rewrite Hs, Lm, Ld, Nat.eqb_refl. cbn [orb].
  assert (Hgroup : forall mi, mi < m -> (if m =? 1 then 0 else mi) = mi).
  { intros mi Hmi. destruct (Nat.eqb_spec m 1); lia. }
  set (G := fun ix : nat * nat * nat * nat =>
              let '(ni, c, hi, wi) := ix in
              nth (c mod d)
                  (cb_entry cb (c / d)
                     (pywrap k (entry4 0%Z code m h w ni (c / d) hi wi)))
                  0%Q).
  rewrite (mapM_ok_map _ G).
  - cbn [bind]. eexists. split; [reflexivity|]. split; [reflexivity|].
    split.
    + unfold wf_tensor. cbn [data shape numel fold_right].
      rewrite length_map, length_cells4. ring.
    + intros ni mi hi wi Hni Hmi Hhi Hwi.
      destruct (cb_dims_group cb m k d mi Hcb Hmi) as [Hgk Hgd].
      set (sym := entry4 0%Z code m h w ni mi hi wi).
      assert (Hsym : (- Z.of_nat k <= sym < Z.of_nat k)%Z).
      { unfold sym, entry4.
        apply (nth_in_range_or_default
                 (fun s => (- Z.of_nat k <= s < Z.of_nat k)%Z));
          [lia | exact Hrange]. }
      assert (Hj : pywrap k sym < k).
      { unfold pywrap. destruct (Z.ltb_spec sym 0); lia. }
      rewrite <- (map_nth_seq (cb_entry cb mi (pywrap k sym)) 0%Q).
      rewrite (Hgd _ Hj).
      unfold featureAt. apply map_ext_in. intros di Hdi.
      apply in_seq in Hdi.
      unfold entry4 at 1. cbn [data].
      assert (Hc : mi * d + di < m * d) by nia.
      rewrite (nth_map_lt G _ _ 0%Q (0, 0, 0, 0))
        by (rewrite length_cells4;
            pose proof (ravel4_lt n (m * d) h w ni (mi * d + di) hi wi
                          Hni Hc Hhi Hwi); nia).
      rewrite nth_cells4 by assumption.
      unfold G. destruct (div_mod_channel mi di d ltac:(lia)) as [-> ->].
      reflexivity.
  - intros [[[ni c] hi] wi] Hin. apply In_cells4 in Hin.
    destruct Hin as (Hni & Hc & Hhi & Hwi).
    assert (Hd : 0 < d) by nia.
    assert (Hmi : c / d < m)
      by (apply Nat.Div0.div_lt_upper_bound; lia).
    destruct (cb_dims_group cb m k d (c / d) Hcb Hmi) as [Hgk _].
    rewrite (Hgroup _ Hmi).
    set (sym := nth (((ni * m + c / d) * h + hi) * w + wi) (data code) 0%Z).
    assert (Hsym : (- Z.of_nat k <= sym < Z.of_nat k)%Z).
    { unfold sym.
      apply (nth_in_range_or_default
               (fun s => (- Z.of_nat k <= s < Z.of_nat k)%Z));
        [lia | exact Hrange]. }
    rewrite (pyindex_wrap (nth (c / d) cb []) sym [])
      by (rewrite Hgk; exact Hsym).
    cbn [bind]. rewrite Hgk. reflexivity.
Qed.

(** X14. What [_multiCodebookDeQuantization.decode] returns.  For a
    codebook of [m] groups of [k] entries of [d] components and a code
    non-empty tensor [n, m, h, w] whose values are valid Python indices
    into [k] items, the result is a contiguous feature tensor
    [n, m * d, h, w]
    holding, in the [d] channels of group [mi] at each position, the entry
    of group [mi] that the code at that position selects; a negative code
    [-j] selects entry [k - j]. *)
Theorem dequantize_looks_up_entries :
  forall (cb : list (Matrix Q)) (code : Tensor Z) (n m k d h w : nat),
    cb_dims cb m k d -> 0 < m -> 0 < k ->
    0 < n -> 0 < h -> 0 < w ->
    shape code = [n; m; h; w] ->
    Forall (fun s => (- Z.of_nat k <= s < Z.of_nat k)%Z) (data code) ->
    exists y,
      dequantize cb code = Ok y /\
      shape y = [n; m * d; h; w] /\ wf_tensor y /\
      forall ni mi hi wi,
        ni < n -> mi < m -> hi < h -> wi < w ->
        featureAt y m d h w ni mi hi wi
        = cb_entry cb mi (pywrap k (entry4 0%Z code m h w ni mi hi wi)).
Proof.
  intros cb code n m k d h w Hcb Hm Hk _ _ _ Hs Hrange.
  apply (dequantize_lookup cb code n m k d h w Hcb Hm Hk Hs Hrange).
Qed.

Lemma dequantize_looks_up_entries_witness :
  exists y,
    dequantize example_codebook (mkTensor [1; 1; 1; 1] [(-1)%Z]) = Ok y /\
    shape y = [1; 2; 1; 1] /\
    featureAt y 1 2 1 1 0 0 0 0 = [3; 4]%Q.
Proof.
  destruct (dequantize_looks_up_entries example_codebook
              (mkTensor [1; 1; 1; 1] [(-1)%Z]) 1 1 2 2 1 1
              example_codebook_dims)
    as (y & Hy & Hs & _ & Hcell).
  - lia.
  - lia.
  - lia.
  - lia.
  - lia.
  - reflexivity.
  - apply Forall_cons; [simpl; lia | apply Forall_nil].
  - exists y. split; [exact Hy|]. split; [exact Hs|].
    rewrite Hcell by lia. reflexivity.
Defined.

(** X15. [_multiCodebookDeQuantization.decode] refuses codes that do not
    index an entry: if some value of a contiguous code tensor
    [n, m, h, w] lies outside [[-k, k)], the call raises. *)
Theorem dequantize_rejects_out_of_range :
  forall (cb : list (Matrix Q)) (code : Tensor Z) (n m k d h w : nat),
    cb_dims cb m k d -> 0 < k -> 0 < d ->
    shape code = [n; m; h; w] -> wf_tensor code ->
    Exists (fun s => (s < - Z.of_nat k \/ Z.of_nat k <= s)%Z) (data code) ->
    exists msg, dequantize cb code = Raise msg.
Proof.
  intros cb code n m k d h w Hcb Hk Hd Hs Hwf Hbad.
  apply Exists_exists in Hbad. destruct Hbad as (s & Hin & Hs_bad).
  destruct (In_nth _ _ 0%Z Hin) as (p & Hp & Hnth).
  unfold wf_tensor in Hwf. rewrite Hs in Hwf.
  cbn [numel fold_right] in Hwf.
  destruct (unravel4 n m h w p ltac:(nia))
    as (ni & mi & hi & wi & Hni & Hmi & Hhi & Hwi & ->).
  assert (Hm : 0 < m) by lia.
  destruct (cb_dims_read cb m k d Hcb Hm Hk) as (Lm & Lk & Ld).
  destruct (cb_dims_group cb m k d mi Hcb Hmi) as [Hgk _].
  unfold dequantize. rewrite Hs, Lm, Ld, Nat.eqb_refl. cbn [orb].
  assert (Hgroup : (if m =? 1 then 0 else mi) = mi)
    by (destruct (Nat.eqb_spec m 1); lia).
  destruct (pyindex_out_of_range (nth mi cb []) s) as (msg & Hmsg);
    [rewrite Hgk; exact Hs_bad|].
  match goal with
  | |- exists _, bind (mapM ?f ?l) _ = _ =>
      destruct (mapM_raises f l (ni, mi * d + 0, hi, wi) msg) as (msg' & ->)
  end.
  - apply In_cells4. repeat split; try assumption. nia.
  - destruct (div_mod_channel mi 0 d Hd) as [-> ->].
    rewrite Hgroup, Hnth, Hmsg. reflexivity.
  - eexists; reflexivity.
Qed.

Lemma dequantize_rejects_out_of_range_witness :
  exists msg,
    dequantize example_codebook (mkTensor [1; 1; 1; 1] [2%Z]) = Raise msg.
Proof.
  apply (dequantize_rejects_out_of_range example_codebook
           (mkTensor [1; 1; 1; 1] [2%Z]) 1 1 2 2 1 1 example_codebook_dims).
  - lia.
  - lia.
  - reflexivity.
  - reflexivity.
  - apply Exists_cons_hd. simpl. lia.
Defined.

(* ================================================================== *)
(** * Encoding, and the quantizer around the entropy coder *)
(* ================================================================== *)

Lemma argmin_lt (l : list Q) k : 0 < k -> length l <= k -> argmin l < k.
Proof.
  intros Hk Hl. destruct l as [|v l']; [exact Hk|].
  destruct (argmin_spec (v :: l')) as (Hlt & _); [discriminate | lia].
Qed.

(** Whatever the features, the codes that [quantize] returns are
    contiguous, have one group per codebook group, and lie within the
    alphabet. *)
Lemma quantize_ok_inv cb x code :
  quantize cb x = Ok code ->
  wf_tensor code /\
  (exists n h w, shape code = [n; length cb; h; w]) /\
  Forall (fun s => (0 <= s < Z.of_nat (length (nth 0 cb [])))%Z) (data code).
Proof.
  unfold quantize, _distance. intros H.
  destruct (shape x) as [|n [|c [|h [|w [|? ?]]]]]; try discriminate H.
  destruct (numel [n; c; h; w] =? _); [|discriminate H].
  cbn [bind shape data] in H.
  destruct (Nat.eqb_spec (length (nth 0 cb [])) 0) as [E | E];
    [discriminate H|].
  injection H as <-. split; [|split].
  - unfold wf_tensor. cbn [data shape]. rewrite length_map. apply length_seq.
  - exists n, h, w. reflexivity.
  - cbn [data]. apply Forall_forall. intros s Hin.
    apply in_map_iff in Hin. destruct Hin as (r & <- & _).
    match goal with
    | |- context [argmin ?row] =>
        pose proof (argmin_lt row (length (nth 0 cb [])) ltac:(lia)
                      ltac:(rewrite length_firstn; lia)) as Hlt
    end.
    lia.
Qed.

Lemma qe_encode_ok enc x0 x1 code :
  qe_encode enc x0 = Ok (x1, code) ->
  code_of (qe_codebook enc) code /\
  (_latentHead enc = None -> x1 = None).
Proof.
  unfold qe_encode. intros H. destruct x0 as [x|]; [|discriminate H].
  apply bind_ok in H. destruct H as (c & Hq & H).
  apply quantize_ok_inv in Hq.
  destruct (_latentHead enc) as [lh|].
  - apply bind_ok in H. destruct H as (dq & _ & H).
    apply bind_ok in H. destruct H as (r & _ & H).
    injection H as <- <-. split; [exact Hq | discriminate].
  - injection H as <- <-. split; [exact Hq | reflexivity].
Qed.

(** The loop of [UMGMQuantizer.encode]. *)
Lemma UMGM_encode_loop : forall encoders x0 codes0 x1 codes1,
  foldM (fun (acc : option (Tensor Q) * list (Tensor Z)) encoder =>
           let (x, codes) := acc in
           r <- qe_encode encoder x ;;
           let (x', code) := r in
           Ok (x', codes ++ [code]))
        encoders (x0, codes0) = Ok (x1, codes1) ->
  exists new,
    codes1 = codes0 ++ new /\
    Forall2 (fun enc code => code_of (qe_codebook enc) code) encoders new /\
    forall i enc, nth_error encoders i = Some enc ->
      S i < length encoders -> _latentHead enc <> None.
Proof.
  induction encoders as [|e encoders IH]; intros x0 codes0 x1 codes1 H.
  - cbn in H. injection H as <- <-. exists []. rewrite app_nil_r.
    split; [reflexivity|]. split; [constructor|].
    intros [|i] enc Hn; discriminate Hn.
  - cbn [foldM] in H. apply bind_ok in H.
    destruct H as ([x' codes'] & Hstep & Hrest).
    apply bind_ok in Hstep. destruct Hstep as ([x2 code] & He & Hstep).
    injection Hstep as <- <-.
    destruct (qe_encode_ok e x0 x2 code He) as [Hcode Hnone].
    pose proof Hrest as Hrest'.
    apply IH in Hrest. destruct Hrest as (new & -> & Hall & Hheads).
    exists (code :: new). rewrite <- app_assoc. split; [reflexivity|].
    split; [constructor; assumption|].
    intros [|i] enc Hn Hlt; cbn in Hn, Hlt.
    + injection Hn as <-. intros Hlh. specialize (Hnone Hlh). subst x2.
      destruct encoders as [|e2 encoders]; [cbn in Hlt; lia|].
      cbn in Hrest'. discriminate Hrest'.
    + apply (Hheads i enc Hn). lia.
Qed.

(** X17. What [UMGMQuantizer.encode] returns.  A successful call returns
    one code tensor per encoder, in the order of the encoders; the code of
    a level is contiguous, has one group per group of that level's
    codebook, and every value within that codebook's entries.  For the call
    to succeed every encoder but the last has a latent head (it hands a
    residual to the next level). *)
Theorem UMGM_encode_codes :
  forall (encoders : list QuantizerEncoder) (x : Tensor Q)
         (codes : list (Tensor Z)),
    UMGM_encode encoders x = Ok codes ->
    Forall2 (fun enc code => code_of (qe_codebook enc) code) encoders codes /\
    forall i enc, nth_error encoders i = Some enc ->
      S i < length encoders -> _latentHead enc <> None.
Proof.
  intros encoders x codes H. unfold UMGM_encode in H.
  apply bind_ok in H. destruct H as ([x1 codes1] & Hloop & H).
  injection H as <-.
  apply UMGM_encode_loop in Hloop.
  destruct Hloop as (new & -> & Hall & Hheads). cbn [app].
  split; assumption.
Qed.

Lemma UMGM_encode_codes_witness :
  UMGM_encode [example_encoder] example_feature
  = Ok [mkTensor [1; 1; 1; 1] [0%Z]] /\
  Forall2 (fun enc code => code_of (qe_codebook enc) code)
          [example_encoder] [mkTensor [1; 1; 1; 1] [0%Z]].
Proof.
  assert (H : UMGM_encode [example_encoder] example_feature
              = Ok [mkTensor [1; 1; 1; 1] [0%Z]]) by (vm_compute; reflexivity).
  split; [exact H|].
  apply (UMGM_encode_codes [example_encoder] example_feature _ H).
Defined.

Section QuantizerPipeline.

Variable pmf : list Q -> Z -> list Z.
Variable enc :
  list Z -> list Z -> list (list Z) -> list Z -> list Z -> bytes.
Variable dec :
  bytes -> list Z -> list (list Z) -> list Z -> list Z -> list Z.

(** The contract of the rANS coder, as for the round trip of the entropy
    coder. *)
Hypothesis rans_roundtrip :
  forall symbols idx cdf cdfSizes offsets,
    coder_input_ok symbols idx cdf cdfSizes offsets ->
    dec (enc symbols idx cdf cdfSizes offsets) idx cdf cdfSizes offsets
    = symbols.

(** [compress] followed by [decompress] on the state that [compress]
    leaves. *)
Lemma entropy_roundtrip (m : nat) (k : list nat) (self : EntropyCoder)
    (n : nat) (codes : list (Tensor Z)) :
  reachable pmf m k self ->
  1 <= n ->
  codes <> [] ->
  Forall2 (code_ok n m) codes k ->
  exists binaries codeSizes self',
    compress pmf enc self codes = (Ok (binaries, codeSizes), self') /\
    decompress pmf dec self' binaries codeSizes = (Ok codes, self').
Proof.
  intros Hreach Hn Hne Hcodes.
  pose proof (reachable_inv pmf m k self Hreach)
    as (Hk & Hdirty & Hshape & _).
  set (tables := buildCDFs pmf (map (map normalize16) (_freqEMA self))).
  set (LV := combine codes (combine k tables)).
  assert (Hlt : length k = length tables).
  { unfold tables, buildCDFs. rewrite !length_map. symmetry.
    apply (Forall2_length Hshape). }
  assert (Hlc : length codes = length k) by apply (Forall2_length Hcodes).
  assert (Htab : Forall (fun c : list (list Z) => length c = m) tables).
  { unfold tables, buildCDFs. apply Forall_forall. intros c Hc.
    apply in_map_iff in Hc. destruct Hc as (f & <- & Hf).
    apply in_map_iff in Hf. destruct Hf as (F & <- & HF).
    rewrite !length_map.
    destruct (Forall2_In_l _ _ _ F Hshape HF) as (ki & _ & HFs).
    apply mat_shape_rows in HFs. tauto. }
  assert (HLV : Forall (level_ok n m) LV).
  { unfold LV.
    apply (combine3_Forall (code_ok n m)
             (fun c : list (list Z) => length c = m)); assumption. }
  destruct (combine3_maps codes k tables Hlc Hlt) as (E1 & E2 & E3).
  fold LV in E1, E2, E3.
  assert (Hcheck : _checkShape codes = Ok (n, m)).
  { apply checkShape_ok. split; [assumption|]. split; [assumption|].
    apply Forall_forall. intros c Hc.
    destruct (Forall2_In_l _ _ _ c Hcodes Hc) as (K & _ & (h & w & Hs) & _).
    unfold dim. rewrite Hs. split; reflexivity. }
  set (self' := {| _freqEMA := _freqEMA self; _k := _k self;
                   _decay := _decay self; cdfs := Some tables;
                   freq := Some (map (map normalize16) (_freqEMA self));
                   needUpdate := true |}).
  set (codeSize := mkCodeSize m (map (fun lvl => heightOf (fst lvl)) LV)
                     (map (fun lvl => widthOf (fst lvl)) LV) k).
  set (row := fun i : nat =>
                map (fun lvl => nth i (levelBinaries enc m lvl) []) LV).
  exists (map row (seq 0 n)), (repeat codeSize n), self'.
  assert (Hbin : fold_left appendCol (map (levelBinaries enc m) LV)
                           (repeat [] n)
                 = map row (seq 0 n)).
  { rewrite (appendCol_closed [] n).
    - apply map_ext. intros i. unfold row. apply map_map.
    - apply Forall_forall. intros E HE. apply in_map_iff in HE.
      destruct HE as (lvl & <- & Hlvl). rewrite Forall_forall in HLV.
      destruct (level_roundtrip enc dec rans_roundtrip n m codeSize lvl
                  (mkTensor [] []) (HLV lvl Hlvl) eq_refl) as (_ & Hlen & _).
      exact Hlen. }
  split.
  - unfold compress. rewrite Hcheck. rewrite (CDFs_dirty pmf self Hdirty).
    fold tables. fold self'. rewrite Hk. fold LV.
    rewrite (compress_loop enc dec rans_roundtrip n m LV (repeat [] n)
               [] [] HLV)
      by apply repeat_length.
    cbn [bind app]. rewrite Hbin. reflexivity.
  - assert (HC : CDFs pmf self' = (tables, self')).
    { rewrite CDFs_dirty by reflexivity. reflexivity. }
    unfold decompress.
    destruct n as [|n']; [lia|].
    cbn [seq map repeat]. fold (row 0).
    change (row 0 :: map row (seq 1 n')) with (map row (seq 0 (S n'))).
    change (codeSize :: repeat codeSize n') with (repeat codeSize (S n')).
    rewrite (decompressLoop_const pmf dec (cs_m codeSize) self' tables HC).
    replace (repeat codeSize (S n'))
      with (repeat codeSize (length (seq 0 (S n'))))
      by (rewrite length_seq; reflexivity).
    rewrite combine_map_repeat.
    assert (Hrow0 : length (row 0) = length LV)
      by (unfold row; apply length_map).
    rewrite Hrow0.
    pose proof (decode_rows enc dec rans_roundtrip (S n') m LV tables k
                  (mkTensor [] []) HLV
                  (eq_sym E3) (eq_sym E2) (seq 0 (S n'))
                  (repeat [] (length LV))) as Hrows.
    cbv zeta in Hrows. fold codeSize in Hrows.
    change (_k self') with (_k self). rewrite Hk.
    change (cs_m codeSize) with m. unfold row.
    rewrite Hrows;
      [| apply Forall_forall; intros i Hi; apply in_seq in Hi; lia
       | apply repeat_length].
    cbn [bind].
    rewrite (appendCol_closed (mkTensor [] []) (length LV)).
    + rewrite (map_ext
                 (fun i => map (fun lvl => nth i (unbind (fst lvl))
                                             (mkTensor [] [])) LV)
                 (fun i => map (fun xs => nth i xs (mkTensor [] []))
                               (map (fun lvl => unbind (fst lvl)) LV)))
        by (intros i; rewrite map_map; reflexivity).
      replace (length LV)
        with (length (map (fun lvl => unbind (fst lvl)) LV))
        by apply length_map.
      rewrite cols_to_rows.
      * rewrite (mapM_map_map (@stack Z) (fun lvl => unbind (fst lvl)) fst).
        -- rewrite E1. reflexivity.
        -- intros lvl Hlvl. rewrite Forall_forall in HLV.
           destruct (HLV lvl Hlvl) as (((h & w & Hs) & Hwf & _) & _).
           apply (stack_unbind _ (S n') m h w); assumption.
      * apply Forall_forall. intros xs Hxs. apply in_map_iff in Hxs.
        destruct Hxs as (lvl & <- & Hlvl). rewrite Forall_forall in HLV.
        destruct (HLV lvl Hlvl) as (((h & w & Hs) & _) & _).
        apply (length_unbind _ (S n') m h w Hs).
    + apply Forall_forall. intros c Hc. apply in_map_iff in Hc.
      destruct Hc as (i & <- & _). apply length_map.
Qed.

(** X18. The entropy coder is transparent inside the quantizer.  For a
    reachable coder, if [encode] returns a non-empty list of codes of shape
    [n, m, h, w] ([n >= 1]), one per level and within each level's
    alphabet, then [BaseQuantizer.compress] returns these codes with the
    binaries and headers, and [BaseQuantizer.decompress] of those binaries
    and headers returns exactly [decode] of the codes that [encode]
    produced. *)
Theorem quantizer_compress_decompress :
  forall (encode : Tensor Q -> result (list (Tensor Z)))
         (decode : list (Tensor Z) -> result (option (Tensor Q)))
         (m : nat) (k : list nat) (coder : EntropyCoder) (n : nat)
         (x : Tensor Q) (codes : list (Tensor Z)),
    reachable pmf m k coder ->
    encode x = Ok codes ->
    1 <= n ->
    codes <> [] ->
    Forall2 (code_ok n m) codes k ->
    exists binaries codeSizes coder',
      BaseQuantizer_compress pmf enc encode coder x
      = (Ok (codes, binaries, codeSizes), coder') /\
      BaseQuantizer_decompress pmf dec decode coder' binaries codeSizes
      = (decode codes, coder').
Proof.
  intros encode decode m k coder n x codes Hreach Henc Hn Hne Hcodes.
  destruct (entropy_roundtrip m k coder n codes Hreach Hn Hne Hcodes)
    as (binaries & codeSizes & coder' & Hc & Hd).
  exists binaries, codeSizes, coder'. split.
  - unfold BaseQuantizer_compress. rewrite Henc, Hc. reflexivity.
  - unfold BaseQuantizer_decompress. rewrite Hd. reflexivity.
Qed.

End QuantizerPipeline.

Lemma quantizer_compress_decompress_witness :
  exists binaries codeSizes coder',
    BaseQuantizer_compress pmfToQuantizedCDF unary_encode
      (UMGM_encode [example_encoder]) (init 1 [2] (99 # 100)) example_feature
    = (Ok ([mkTensor [1; 1; 1; 1] [0%Z]], binaries, codeSizes), coder') /\
    BaseQuantizer_decompress pmfToQuantizedCDF unary_decode
      (UMGM_decode [example_decoder]) coder' binaries codeSizes
    = (UMGM_decode [example_decoder] [mkTensor [1; 1; 1; 1] [0%Z]], coder').
Proof.
  apply (quantizer_compress_decompress pmfToQuantizedCDF unary_encode
           unary_decode unary_roundtrip
           (UMGM_encode [example_encoder]) (UMGM_decode [example_decoder])
           1 [2] (init 1 [2] (99 # 100)) 1 example_feature
           [mkTensor [1; 1; 1; 1] [0%Z]]).
  - apply reach_init; unfold Qle; simpl; lia.
  - vm_compute. reflexivity.
  - lia.
  - discriminate.
  - apply Forall2_cons; [|apply Forall2_nil].
    split; [exists 1, 1; reflexivity|]. split; [reflexivity|].
    apply Forall_cons; [simpl; lia | apply Forall_nil].
Defined.

(* ================================================================== *)
(** * Further properties of codebook reassignment *)
(* ================================================================== *)

Lemma masked_assign_none {A : Type} : forall (dest : list A) loc src,
  Forall (fun b => b = false) loc -> masked_assign dest loc src = dest.
Proof.
  induction dest as [|x dest IH]; intros [|b loc] src H; cbn;
    try reflexivity.
  apply Forall_cons_iff in H. destruct H as [-> H].
  f_equal. apply IH. exact H.
Qed.

Lemma count_true_none loc :
  Forall (fun b => b = false) loc -> count_true loc = 0.
Proof.
  unfold count_true. induction 1 as [|b loc -> _ IH]; [reflexivity|].
  exact IH.
Qed.

Lemma entryMoved_same e : entryMoved e e = false.
Proof.
  unfold entryMoved. apply Qltb_false.
  fold (sqdist e e). rewrite sqdist_self. unfold Qle. cbn. lia.
Qed.

Lemma map2_same_false {A : Type} (f : A -> A -> bool) :
  (forall a, f a a = false) ->
  forall l, Forall (fun b => b = false) (map2 f l l).
Proof.
  intros Hf. induction l as [|a l IH]; cbn [map2]; constructor; auto.
Qed.

Lemma Forall_concat {A : Type} (P : A -> Prop) (ll : list (list A)) :
  Forall (Forall P) ll -> Forall P (concat ll).
Proof.
  induction 1 as [|l ll Hl _ IH]; cbn [concat]; [constructor|].
  apply Forall_app. split; assumption.
Qed.

Lemma moved_flags_same (cb : list (Matrix Q)) :
  Forall (fun b => b = false) (concat (map2 (map2 entryMoved) cb cb)).
Proof.
  apply Forall_concat. induction cb as [|g cb IH]; cbn [map2];
    constructor; [|exact IH].
  apply map2_same_false. exact entryMoved_same.
Qed.

Lemma map_fst_enumerate_combine {A B C : Type} (phi : A -> C) :
  forall (la : list A) (lb : list B) s,
    map (fun it : nat * (A * B) => phi (fst (snd it)))
        (combine (seq s (length (combine la lb))) (combine la lb))
    = map phi (firstn (length lb) la).
Proof.
  induction la as [|a la IH]; intros [|b lb] s; cbn; try reflexivity.
  f_equal. apply IH.
Qed.

Lemma firstn_skipn_min {A : Type} (l : list A) a :
  firstn a l ++ skipn (Nat.min a (length l)) l = l.
Proof.
  destruct (Nat.le_ge_cases a (length l)) as [H | H].
  - rewrite Nat.min_l by exact H. apply firstn_skipn.
  - rewrite Nat.min_r by exact H.
    rewrite firstn_all2, skipn_all by exact H. apply app_nil_r.
Qed.

Section ReassignmentHealthy.

Variable Eps : Q.
Variable argsort : list Q -> list nat.

(** A group all of whose entries are in use is left as it is. *)
Lemma reassignGroup_healthy k rp cg fg :
  Forall (fun u => (Eps <= u)%Q) fg ->
  reassignGroup Eps argsort k rp cg fg cg = cg.
Proof.
  intros Hfg.
  assert (Hnever : Forall (fun b => b = false) (neverAssigned Eps fg)).
  { unfold neverAssigned. apply Forall_forall. intros b Hb.
    apply in_map_iff in Hb. destruct Hb as (u & <- & Hu).
    apply Qltb_false. rewrite Forall_forall in Hfg. apply Hfg. exact Hu. }
  unfold reassignGroup, selectSlots.
  rewrite (count_true_none _ Hnever).
  replace (k / 2 <? 0) with false by (symmetry; apply Nat.ltb_ge; lia).
  apply masked_assign_none. exact Hnever.
Qed.

Lemma reAssignCodebook_healthy k rp cb f :
  Forall (Forall (fun u => (Eps <= u)%Q)) f ->
  snd (reAssignCodebook Eps argsort k rp cb f) = cb /\
  Forall (fun b => b = false) (fst (reAssignCodebook Eps argsort k rp cb f)).
Proof.
  intros Hf.
  assert (Hsnd : snd (reAssignCodebook Eps argsort k rp cb f) = cb).
  { rewrite reAssignCodebook_groups. unfold enumerate.
    rewrite (map_ext_in _ (fun it : nat * (Matrix Q * list Q) =>
                             (fun g : Matrix Q => g) (fst (snd it)))).
    - rewrite (map_fst_enumerate_combine (fun g : Matrix Q => g) cb f 0).
      rewrite map_id. apply firstn_skipn.
    - intros [i [cg fg]] Hin. cbn [fst snd].
      apply in_combine_r, in_combine_r in Hin.
      apply reassignGroup_healthy.
      rewrite Forall_forall in Hf. apply Hf. exact Hin. }
  split; [exact Hsnd|].
  assert (Hfst : fst (reAssignCodebook Eps argsort k rp cb f)
                 = concat (map2 (map2 entryMoved)
                             (snd (reAssignCodebook Eps argsort k rp cb f))
                             cb)) by reflexivity.
  rewrite Hfst, Hsnd. apply moved_flags_same.
Qed.

(** X19. Reassignment leaves a healthy codebook alone.  If the usage of
    every entry of every level is at least [Eps],
    [UMGMQuantizer.reAssignCodebook] changes no codebook and returns a
    proportion of [0]; no sorting or random draw has any effect. *)
Theorem reassign_healthy_is_identity :
  forall (randperm : nat -> nat -> nat -> list nat)
         (encoders : list (nat * list (Matrix Q)))
         (freqs : list (Matrix Q)),
    Forall (Forall (Forall (fun u => (Eps <= u)%Q))) freqs ->
    snd (UMGM_reAssignCodebook Eps argsort randperm encoders freqs)
    = encoders /\
    (fst (UMGM_reAssignCodebook Eps argsort randperm encoders freqs) == 0)%Q.
Proof.
  intros randperm encoders freqs Hf.
  unfold UMGM_reAssignCodebook. cbn [fst snd]. rewrite !map_map.
  unfold enumerate.
  split.
  - rewrite (map_ext_in _
               (fun it : nat * ((nat * list (Matrix Q)) * Matrix Q) =>
                  (fun e : nat * list (Matrix Q) => e) (fst (snd it)))).
    + rewrite (map_fst_enumerate_combine
                 (fun e : nat * list (Matrix Q) => e) encoders freqs 0).
      rewrite map_id, length_firstn. apply firstn_skipn_min.
    + intros [lv [[k cb] f]] Hin. cbn [fst snd].
      apply in_combine_r, in_combine_r in Hin.
      rewrite Forall_forall in Hf.
      destruct (reAssignCodebook_healthy k (randperm lv) cb f (Hf f Hin))
        as [-> _].
      reflexivity.
  - unfold meanOfFlags. rewrite count_true_none.
    + unfold Qdiv. cbn [Z.of_nat]. change (inject_Z 0) with 0%Q. ring.
    + apply Forall_concat. apply Forall_forall. intros fl Hfl.
      apply in_map_iff in Hfl.
      destruct Hfl as ([lv [[k cb] f]] & <- & Hin). cbn [fst snd].
      apply in_combine_r, in_combine_r in Hin.
      rewrite Forall_forall in Hf.
      apply (reAssignCodebook_healthy k (randperm lv) cb f (Hf f Hin)).
Qed.

End ReassignmentHealthy.

Lemma reassign_healthy_is_identity_witness :
  let encoders := [(2, [[[0%Q]; [1%Q]]])] in
  let freqs := [[[(1 # 2)%Q; (1 # 2)%Q]]] in
  let r := UMGM_reAssignCodebook (1 # 1000000) argsort_desc
             (fun _ _ n => seq 0 n) encoders freqs in
  snd r = encoders /\ (fst r == 0)%Q.
Proof.
  intros encoders freqs r.
  apply (reassign_healthy_is_identity (1 # 1000000) argsort_desc
           (fun _ _ n => seq 0 n) encoders freqs).
  repeat (apply Forall_cons; [|apply Forall_nil]).
  repeat (apply Forall_cons; [unfold Qle; simpl; lia|]). apply Forall_nil.
Defined.

Lemma Forall2_enum_map {A B C : Type} (R : C -> A -> Prop)
    (F : nat * (A * B) -> C) :
  forall (la : list A) (lb : list B) s,
    length la = length lb ->
    (forall i a b, In (a, b) (combine la lb) -> R (F (i, (a, b))) a) ->
    Forall2 R (map F (combine (seq s (length la)) (combine la lb))) la.
Proof.
  induction la as [|a la IH]; intros [|b lb] s Hl H; cbn in *;
    try discriminate; constructor.
  - apply H. left. reflexivity.
  - apply IH; [lia|]. intros i a' b' Hin. apply H. right. exact Hin.
Qed.

Lemma filter_length_le {A : Type} (f g : A -> bool) (l : list A) :
  (forall x, In x l -> f x = true -> g x = true) ->
  length (filter f l) <= length (filter g l).
Proof.
  induction l as [|x l IH]; intros H; [reflexivity|].
  cbn [filter].
  assert (IH' : length (filter f l) <= length (filter g l))
    by (apply IH; intros y Hy; apply H; right; exact Hy).
  destruct (f x) eqn:Ef.
  - rewrite (H x (or_introl eq_refl) Ef). cbn. lia.
  - destruct (g x); cbn; lia.
Qed.

(** Counting the items that satisfy [P] by their positions. *)
Lemma filter_by_index {A : Type} (P : A -> bool) (d : A) : forall l s,
  length (filter (fun i => P (nth (i - s) l d)) (seq s (length l)))
  = length (filter P l).
Proof.
  induction l as [|x l IH]; intros s; [reflexivity|].
  assert (E : filter (fun i => P (nth (i - s) (x :: l) d))
                     (seq (S s) (length l))
              = filter (fun i => P (nth (i - S s) l d))
                       (seq (S s) (length l))).
  { apply filter_ext_in. intros i Hi. apply in_seq in Hi.
    replace (i - s) with (S (i - S s)) by lia. reflexivity. }
  cbn [length seq]. cbn [filter]. rewrite E, Nat.sub_diag.
  change (nth 0 (x :: l) d) with x.
  destruct (P x); cbn [length]; rewrite IH; reflexivity.
Qed.

Lemma nth_skipn_add {A : Type} (d : A) : forall (l : list A) a c,
  nth c (skipn a l) d = nth (a + c) l d.
Proof.
  induction l as [|x l IH]; intros [|a] c; cbn; try reflexivity.
  - destruct c; reflexivity.
  - apply IH.
Qed.

Section ReassignmentSources.

Variable Eps : Q.
Variable argsort : list Q -> list nat.
Hypothesis argsort_ok : argsort_spec argsort.

Lemma reassignGroup_closed k rp cg fg :
  length fg = length cg ->
  Forall (fun e => In e cg) (reassignGroup Eps argsort k rp cg fg cg).
Proof.
  intros Hl. unfold reassignGroup.
  pose proof (length_selectSlots Eps k rp fg) as Hlen.
  destruct (selectSlots Eps k rp fg) as [fg' loc]. cbn [fst] in Hlen.
  apply masked_assign_same; [apply Forall_forall; auto|].
  apply Forall_firstn. unfold gather. apply Forall_forall.
  intros e He. apply in_map_iff in He. destruct He as (i & <- & Hi).
  apply (argsort_in_range argsort argsort_ok) in Hi.
  apply nth_In. lia.
Qed.

(** X20. Reassignment invents no embedding.  After
    [_multiCodebookQuantization.reAssignCodebook] on a codebook [m, k, d]
    with a usage matrix [m, k], every entry of a group is one of the
    entries that the group had before: entries are only copied within
    their group. *)
Theorem reassign_only_copies :
  forall (k : nat) (randperm : nat -> nat -> list nat)
         (cb : list (Matrix Q)) (f : Matrix Q),
    level_shapes_ok (k, cb) f ->
    Forall2 (fun new old => Forall (fun e => In e old) new)
            (snd (reAssignCodebook Eps argsort k randperm cb f)) cb.
Proof.
  intros k rp cb f Hok. unfold level_shapes_ok in Hok.
  cbn [fst snd] in Hok.
  pose proof (Forall2_length Hok) as Hlen.
  rewrite reAssignCodebook_groups. unfold enumerate.
  rewrite length_combine_same by assumption.
  rewrite <- Hlen, skipn_all, app_nil_r.
  apply (Forall2_enum_map (fun new old : Matrix Q =>
                             Forall (fun e => In e old) new)).
  - exact Hlen.
  - intros i cg fg Hin. cbn [fst snd].
    destruct (In_combine_Forall2 _ _ _ _ _ Hok Hin) as (Hcg & Hfg & _).
    apply reassignGroup_closed. congruence.
Qed.

Lemma argsort_NoDup v : NoDup (argsort v).
Proof.
  destruct (argsort_ok v) as [Hperm _].
  apply (Permutation_NoDup (Permutation_sym Hperm)). apply seq_NoDup.
Qed.

(** The entries ranked before the never-assigned ones are in use. *)
Lemma top_ranks_in_use fg a :
  a + count_true (neverAssigned Eps fg) < length fg ->
  (Eps <= nth (nth a (argsort fg) 0%nat) fg 0)%Q.
Proof.
  intros Ha.
  destruct (Qlt_le_dec (nth (nth a (argsort fg) 0%nat) fg 0%Q) Eps)
    as [Hlow | H];
    [|exact H].
  exfalso.
  set (k := length fg) in *.
  set (l := skipn a (argsort fg)).
  assert (Hlk : length (argsort fg) = k)
    by apply (length_argsort argsort argsort_ok).
  assert (Hl : length l = k - a) by (unfold l; rewrite length_skipn; lia).
  assert (Hnd : NoDup l) by (apply NoDup_skipn, argsort_NoDup).
  assert (Hrange : Forall (fun i => i < k) l).
  { apply Forall_forall. intros i Hi. apply In_skipn in Hi.
    apply (argsort_in_range argsort argsort_ok). exact Hi. }
  assert (Hall : forall i, In i l -> Qltb (nth i fg 0%Q) Eps = true).
  { intros i Hi. destruct (In_nth l i 0 Hi) as (c & Hc & <-).
    unfold l. rewrite nth_skipn_add. apply Qltb_true.
    destruct (argsort_ok fg) as [_ Hsorted].
    specialize (Hsorted a (a + c) ltac:(lia) ltac:(fold k; lia)).
    lra. }
  pose proof (count_members k l Hnd Hrange) as Hcount.
  assert (Hle : length (filter (fun i => existsb (Nat.eqb i) l) (seq 0 k))
                <= length (filter (fun i => Qltb (nth (i - 0) fg 0%Q) Eps)
                                  (seq 0 (length fg)))).
  { apply (filter_length_le _ _ (seq 0 (length fg))).
    intros i _ Hi. apply existsb_eqb_In in Hi.
    rewrite Nat.sub_0_r. apply Hall. exact Hi. }
  rewrite (filter_by_index (fun u => Qltb u Eps) 0%Q fg 0) in Hle.
  unfold neverAssigned in Ha. rewrite count_true_map in Ha. lia.
Qed.

(** X21. When at most half of the entries of a group were never assigned,
    reassignment overwrites each of them, in index order, with the
    embedding of one of the most used entries, and each such source entry
    is itself in use (its usage is at least [Eps]); the entries in use keep
    their value. *)
Theorem reassign_refills_from_used :
  forall (k : nat) (randperm : nat -> list nat) (cg : Matrix Q)
         (fg : list Q),
    length fg = k -> length cg = k ->
    count_true (neverAssigned Eps fg) <= k / 2 ->
    (forall j, nth j (neverAssigned Eps fg) false = false ->
       nth j (reassignGroup Eps argsort k randperm cg fg cg) []
       = nth j cg []) /\
    (forall j, j < k -> nth j (neverAssigned Eps fg) false = true ->
       exists src,
         src = nth (count_true (firstn j (neverAssigned Eps fg)))
                   (argsort fg) 0 /\
         src < k /\ (Eps <= nth src fg 0)%Q /\
         nth j (reassignGroup Eps argsort k randperm cg fg cg) []
         = nth src cg []).
Proof.
  intros k rp cg fg Hfg Hcg HT.
  set (never := neverAssigned Eps fg) in *.
  set (T := count_true never) in *.
  assert (Hhalf : k / 2 <= k) by (apply Nat.Div0.div_le_upper_bound; lia).
  assert (Hnew : reassignGroup Eps argsort k rp cg fg cg
                 = masked_assign cg never
                     (firstn T (gather cg (argsort fg)))).
  { unfold reassignGroup, selectSlots. fold never. fold T.
    replace (k / 2 <? T) with false by (symmetry; apply Nat.ltb_ge; lia).
    reflexivity. }
  assert (Hlk : length (argsort fg) = k)
    by (rewrite (length_argsort argsort argsort_ok); exact Hfg).
  rewrite Hnew. split.
  - intros j Hj. apply masked_assign_off. exact Hj.
  - intros j Hj Hn.
    pose proof (count_true_firstn_lt never j Hn) as Hrank. fold T in Hrank.
    set (rank := count_true (firstn j never)) in *.
    exists (nth rank (argsort fg) 0). split; [reflexivity|].
    assert (Hsrc : nth rank (argsort fg) 0 < k).
    { rewrite <- Hfg. apply (argsort_in_range argsort argsort_ok).
      apply nth_In. lia. }
    split; [exact Hsrc|]. split.
    + apply top_ranks_in_use. fold never. fold T.
      assert (2 * (k / 2) <= k) by (apply Nat.Div0.mul_div_le).
      destruct (Nat.eq_dec T 0); lia.
    + rewrite masked_assign_on;
        [| lia | exact Hn
         | fold rank; rewrite length_firstn; unfold gather;
           rewrite length_map; lia].
      fold rank. rewrite nth_firstn.
      replace (rank <? T) with true by (symmetry; apply Nat.ltb_lt; lia).
      unfold gather.
      apply (nth_map_lt (fun i => nth i cg []) (argsort fg) rank [] 0).
      lia.
Qed.

End ReassignmentSources.

Lemma reassign_only_copies_witness :
  Forall2 (fun new old => Forall (fun e => In e old) new)
          (snd (reAssignCodebook (1 # 1000000) argsort_desc 2
                  (fun _ n => seq 0 n) [[[0%Q]; [1%Q]]] [[0%Q; 1%Q]]))
          [[[0%Q]; [1%Q]]].
Proof.
  apply (reassign_only_copies (1 # 1000000) argsort_desc argsort_desc_spec
           2 (fun _ n => seq 0 n) [[[0%Q]; [1%Q]]] [[0%Q; 1%Q]]).
  apply Forall2_cons; [|apply Forall2_nil].
  split; [reflexivity|]. split; [reflexivity|].
  exists 1. repeat (apply Forall_cons; [reflexivity|]). apply Forall_nil.
Defined.

Lemma reassign_refills_from_used_witness :
  let Eps := (1 # 1000000)%Q in
  let cg := [[1%Q]; [2%Q]; [3%Q]; [4%Q]] in
  let fg := [(1 # 4)%Q; 0%Q; (3 # 4)%Q; 0%Q] in
  exists src,
    src = nth (count_true (firstn 3 (neverAssigned Eps fg)))
              (argsort_desc fg) 0 /\
    src < 4 /\ (Eps <= nth src fg 0)%Q /\
    nth 3 (reassignGroup Eps argsort_desc 4 (fun n => seq 0 n) cg fg cg) []
    = nth src cg [].
Proof.
  intros Eps cg fg.
  destruct (reassign_refills_from_used Eps argsort_desc argsort_desc_spec
              4 (fun n => seq 0 n) cg fg) as [_ H].
  - reflexivity.
  - reflexivity.
  - vm_compute. lia.
  - apply (H 3); [lia | reflexivity].
Defined.

(* ================================================================== *)
(** * The dequantizer on one-hot samples *)
(* ================================================================== *)

Section Tabulate4.

Variable B : Type.
Variable F : nat -> nat -> nat -> nat -> B.
Variables n c h w : nat.

Lemma length_tabulate4 : length (tabulate4 F n c h w) = n * (c * (h * w)).
Proof.
  unfold tabulate4.
  apply length_flat_map_seq. intros ni _.
  apply length_flat_map_seq. intros ci _.
  apply length_flat_map_seq. intros hi _.
  rewrite length_map. apply length_seq.
Qed.

Lemma nth_tabulate4 ni ci hi wi d :
  ni < n -> ci < c -> hi < h -> wi < w ->
  nth (((ni * c + ci) * h + hi) * w + wi) (tabulate4 F n c h w) d
  = F ni ci hi wi.
Proof.
  intros Hn Hc Hh Hw. unfold tabulate4.
  replace (((ni * c + ci) * h + hi) * w + wi)
    with (ni * (c * (h * w)) + (ci * (h * w) + (hi * w + wi))) by ring.
  assert (L3 : forall ni ci hi : nat,
             length (map (fun wi => F ni ci hi wi) (seq 0 w)) = w)
    by (intros; rewrite length_map; apply length_seq).
  assert (L2 : forall ni ci : nat,
             length (flat_map (fun hi => map (fun wi => F ni ci hi wi)
                                             (seq 0 w)) (seq 0 h)) = h * w)
    by (intros; apply length_flat_map_seq; intros; apply L3).
  assert (L1 : forall ni : nat,
             length (flat_map (fun ci =>
                       flat_map (fun hi => map (fun wi => F ni ci hi wi)
                                               (seq 0 w)) (seq 0 h))
                     (seq 0 c)) = c * (h * w))
    by (intros; apply length_flat_map_seq; intros; apply L2).
  assert (B2 : hi * w + wi < h * w).
  { assert (S hi * w <= h * w) by (apply Nat.mul_le_mono_r; lia). lia. }
  assert (B1 : ci * (h * w) + (hi * w + wi) < c * (h * w)).
  { assert (S ci * (h * w) <= c * (h * w))
      by (apply Nat.mul_le_mono_r; lia). lia. }
  rewrite (nth_flat_map_seq _ (c * (h * w)) n ni)
    by (try (intros; apply L1); assumption).
  rewrite (nth_flat_map_seq _ (h * w) c ci)
    by (try (intros; apply L2); assumption).
  rewrite (nth_flat_map_seq _ w h hi)
    by (try (intros; apply L3); assumption).
  apply (nth_map_seq (fun wi => F ni ci hi wi)). exact Hw.
Qed.

End Tabulate4.

Lemma flat_map_by_index {A B : Type} (f : A -> list B) (d : A) :
  forall l s,
    flat_map f l
    = flat_map (fun i => f (nth (i - s) l d)) (seq s (length l)).
Proof.
  induction l as [|x l IH]; intros s; [reflexivity|].
  cbn [length seq flat_map]. rewrite Nat.sub_diag. cbn [nth].
  f_equal. rewrite (IH (S s)), !flat_map_concat_map. f_equal.
  apply map_ext_in. intros i Hi. apply in_seq in Hi.
  replace (i - s) with (S (i - S s)) by lia. reflexivity.
Qed.

Lemma Qsum_indicator_zero (g : nat -> Q) (j : nat) : forall k s,
  j < s ->
  (Qsum (map (fun ki => (if Nat.eqb ki j then 1 else 0) * g ki) (seq s k))
   == 0)%Q.
Proof.
  induction k as [|k IH]; intros s Hs; [reflexivity|].
  cbn [seq map]. rewrite Qsum_cons, IH by lia.
  destruct (Nat.eqb_spec s j); [lia | ring].
Qed.

(** A sum against an indicator picks one term. *)
Lemma Qsum_indicator (g : nat -> Q) (j : nat) : forall k s,
  s <= j < s + k ->
  (Qsum (map (fun ki => (if Nat.eqb ki j then 1 else 0) * g ki) (seq s k))
   == g j)%Q.
Proof.
  induction k as [|k IH]; intros s Hj; [lia|].
  cbn [seq map]. rewrite Qsum_cons.
  destruct (Nat.eqb_spec s j) as [-> | Hne].
  - rewrite Qsum_indicator_zero by lia. ring.
  - rewrite IH by lia. ring.
Qed.

Lemma one_hot_ok k (code : Tensor Z) :
  Forall (fun s => (0 <= s < Z.of_nat k)%Z) (data code) ->
  one_hot k code
  = Ok (mkTensor (shape code ++ [k])
          (flat_map (fun s =>
                       map (fun ki => if (Z.of_nat ki =? s)%Z then 1%Q
                                      else 0%Q)
                           (seq 0 k))
                    (data code))).
Proof.
  intros H. unfold one_hot.
  replace (forallb _ (data code)) with true; [reflexivity|].
  symmetry. apply forallb_forall. rewrite Forall_forall in H.
  intros s Hs. specialize (H s Hs). apply andb_true_iff.
  split; [apply Z.leb_le | apply Z.ltb_lt]; lia.
Qed.

(** The item of the one-hot tensor for class [ki] at flat position [p]. *)
Lemma nth_one_hot k (l : list Z) p ki :
  p < length l -> ki < k ->
  nth (p * k + ki)
      (flat_map (fun s =>
                   map (fun ki => if (Z.of_nat ki =? s)%Z then 1%Q else 0%Q)
                       (seq 0 k))
                l) 0%Q
  = if Nat.eqb ki (Z.to_nat (nth p l 0%Z))
       && (0 <=? nth p l 0%Z)%Z then 1%Q else 0%Q.
Proof.
  intros Hp Hki.
  rewrite (flat_map_by_index _ 0%Z l 0).
  rewrite (nth_flat_map_seq _ k (length l) p ki)
    by (try (intros; rewrite length_map; apply length_seq); assumption).
  rewrite Nat.sub_0_r.
  rewrite (nth_map_seq (fun ki => if (Z.of_nat ki =? nth p l 0%Z)%Z
                                  then 1%Q else 0%Q)) by exact Hki.
  destruct (Z.eqb_spec (Z.of_nat ki) (nth p l 0%Z)) as [E | E].
  - rewrite <- E, Nat2Z.id, Nat.eqb_refl.
    replace (0 <=? Z.of_nat ki)%Z with true
      by (symmetry; apply Z.leb_le; lia).
    reflexivity.
  - destruct (Z.leb_spec 0 (nth p l 0%Z)) as [Hpos | Hneg];
      [|rewrite andb_false_r; reflexivity].
    destruct (Nat.eqb_spec ki (Z.to_nat (nth p l 0%Z))) as [E' | E'];
      [lia | reflexivity].
Qed.

Lemma Forall2_Qeq_nth (l1 l2 : list Q) :
  length l1 = length l2 ->
  (forall p, p < length l1 -> (nth p l1 0 == nth p l2 0)%Q) ->
  Forall2 Qeq l1 l2.
Proof.
  revert l2. induction l1 as [|a l1 IH]; intros [|b l2] Hl H; cbn in Hl;
    try discriminate; constructor.
  - apply (H 0). cbn. lia.
  - apply IH; [lia|]. intros p Hp. apply (H (S p)). cbn. lia.
Qed.

(** X22. The soft and the hard dequantizer agree on one-hot samples.  For a
    codebook [m, k, d] and a non-empty contiguous code tensor
    [n, m, h, w] with values in [[0, k)],
    [_multiCodebookDeQuantization.forward] applied to the one-hot tensor of
    the codes (as [_multiCodebookQuantization.forward] builds it) returns a
    tensor of the shape of, and item by item equal to, what
    [_multiCodebookDeQuantization.decode] returns for the codes. *)
Theorem dequantize_forward_on_one_hot :
  forall (cb : list (Matrix Q)) (code : Tensor Z) (n m k d h w : nat),
    cb_dims cb m k d -> 0 < m -> 0 < k ->
    0 < n -> 0 < h -> 0 < w ->
    shape code = [n; m; h; w] -> wf_tensor code ->
    Forall (fun s => (0 <= s < Z.of_nat k)%Z) (data code) ->
    exists s y y',
      one_hot k code = Ok s /\
      dequantize_forward cb s = Ok y' /\
      dequantize cb code = Ok y /\
      shape y' = shape y /\
      Forall2 Qeq (data y') (data y).
Proof.
  intros cb code n m k d h w Hcb Hm Hk Hn Hh Hw Hs Hwf Hrange.
  destruct (cb_dims_read cb m k d Hcb Hm Hk) as (Lm & Lk & Ld).
  assert (Hrange' : Forall (fun s => (- Z.of_nat k <= s < Z.of_nat k)%Z)
                           (data code)).
  { revert Hrange. apply Forall_impl. intros s Hs0. lia. }
  destruct (dequantize_lookup cb code n m k d h w Hcb Hm Hk Hs Hrange')
    as (y & Hy & Hys & Hywf & Hfeat).
  unfold wf_tensor in Hwf, Hywf. rewrite Hs in Hwf. rewrite Hys in Hywf.
  cbn [numel fold_right] in Hwf, Hywf.
  rewrite (one_hot_ok k code Hrange), Hs.
  eexists. exists y. eexists. split; [reflexivity|].
  unfold dequantize_forward. cbn [shape data app]. rewrite Lm, Lk, Ld.
  replace (numel [n; m; h; w; k] =? numel [n * m; h * w; k]) with true
    by (symmetry; apply Nat.eqb_eq; cbn [numel fold_right]; ring).
  replace (n * (h * w) =? 0) with false
    by (symmetry; apply Nat.eqb_neq; nia).
  split; [reflexivity|]. split; [exact Hy|]. cbn [shape data].
  split; [symmetry; exact Hys|].
  apply Forall2_Qeq_nth.
  - rewrite length_tabulate4, Hywf. ring.
  - intros p Hp. rewrite length_tabulate4 in Hp.
    destruct (unravel4 n (m * d) h w p ltac:(nia))
      as (ni & c & hi & wi & Hni & Hc & Hhi & Hwi & ->).
    destruct (unravel2 m d c Hc) as (mi & di & Hmi & Hdi & ->).
    rewrite nth_tabulate4 by assumption. cbv zeta.
    destruct (div_mod_channel mi di d Hdi) as [-> ->].
    pose proof (ravel4_lt n m h w ni mi hi wi Hni Hmi Hhi Hwi) as Hr.
    set (r := ((ni * m + mi) * h + hi) * w + wi) in *.
    set (sym := nth r (data code) 0%Z).
    assert (Hsym : (0 <= sym < Z.of_nat k)%Z).
    { unfold sym. rewrite Forall_forall in Hrange. apply Hrange.
      apply nth_In. nia. }
    rewrite (map_ext_in _
               (fun ki => ((if Nat.eqb ki (Z.to_nat sym) then 1 else 0)
                           * nth di (nth ki (nth mi cb []) []) 0)%Q)).
    2:{ intros ki Hki. apply in_seq in Hki.
        rewrite (nth_one_hot k (data code) r ki) by (try nia; lia).
        fold sym.
        replace (0 <=? sym)%Z with true by (symmetry; apply Z.leb_le; lia).
        rewrite andb_true_r. reflexivity. }
    rewrite (Qsum_indicator
               (fun ki => nth di (nth ki (nth mi cb []) []) 0%Q)
               (Z.to_nat sym) k 0) by lia.
    specialize (Hfeat ni mi hi wi Hni Hmi Hhi Hwi).
    apply (f_equal (fun v => nth di v 0%Q)) in Hfeat.
    unfold featureAt in Hfeat.
    rewrite (nth_map_seq
               (fun di => entry4 0%Q y (m * d) h w ni (mi * d + di) hi wi))
      in Hfeat by exact Hdi.
    unfold entry4 in Hfeat. fold r in Hfeat. fold sym in Hfeat.
    rewrite Hfeat. unfold cb_entry, pywrap.
    replace (sym <? 0)%Z with false by (symmetry; apply Z.ltb_ge; lia).
    reflexivity.
Qed.

Lemma dequantize_forward_on_one_hot_witness :
  exists s y y',
    one_hot 2 (mkTensor [1; 1; 1; 1] [1%Z]) = Ok s /\
    dequantize_forward example_codebook s = Ok y' /\
    dequantize example_codebook (mkTensor [1; 1; 1; 1] [1%Z]) = Ok y /\
    shape y' = shape y /\
    Forall2 Qeq (data y') (data y).
Proof.
  apply (dequantize_forward_on_one_hot example_codebook
           (mkTensor [1; 1; 1; 1] [1%Z]) 1 1 2 2 1 1 example_codebook_dims).
  - lia.
  - lia.
  - lia.
  - lia.
  - lia.
  - reflexivity.
  - reflexivity.
  - apply Forall_cons; [simpl; lia | apply Forall_nil].
Defined.

(* ================================================================== *)
(** * The backward-residual quantizer: encoding *)
(* ================================================================== *)

Lemma length_allLatents : forall stages x,
  length (allLatents stages x) = length stages.
Proof.
  induction stages as [|s stages IH]; intros x; cbn; [reflexivity|].
  rewrite IH. reflexivity.
Qed.

(** The second loop of [ResidualBackwardQuantizer.encode]. *)
Lemma RB_encode_loop : forall (items : list (ResidualStage * Tensor Q))
    cur0 codes0 cur1 codes1,
  foldM (fun (acc : Tensor Q * list (Tensor Z))
             (it : ResidualStage * Tensor Q) =>
           let (currentLatent, codes) := acc in
           let (stage, latent) := it in
           residual <- tsub latent currentLatent ;;
           code <- quantize (rs_codebook stage) residual ;;
           quantized <- dequantize (rs_codebook stage) code ;;
           Ok (rs_backward stage quantized, codes ++ [code]))
        items (cur0, codes0) = Ok (cur1, codes1) ->
  exists new,
    codes1 = codes0 ++ new /\
    Forall2 (fun it code => code_of (rs_codebook (fst it)) code) items new.
Proof.
  induction items as [|[stage latent] items IH];
    intros cur0 codes0 cur1 codes1 H.
  - cbn in H. injection H as <- <-. exists []. rewrite app_nil_r.
    split; [reflexivity | constructor].
  - cbn [foldM] in H. apply bind_ok in H.
    destruct H as ([cur' codes'] & Hstep & Hrest).
    apply bind_ok in Hstep. destruct Hstep as (residual & _ & Hstep).
    apply bind_ok in Hstep. destruct Hstep as (code & Hq & Hstep).
    apply bind_ok in Hstep. destruct Hstep as (quantized & _ & Hstep).
    injection Hstep as <- <-.
    apply quantize_ok_inv in Hq.
    apply IH in Hrest. destruct Hrest as (new & -> & Hall).
    exists (code :: new). rewrite <- app_assoc. split; [reflexivity|].
    constructor; assumption.
Qed.

Lemma Forall2_combine_fst {A B C : Type} (R : A -> C -> Prop) :
  forall (la : list A) (lb : list B) (lc : list C),
    length la = length lb ->
    Forall2 (fun it c => R (fst it) c) (combine la lb) lc ->
    Forall2 R la lc.
Proof.
  induction la as [|a la IH]; intros [|b lb] lc Hl H; cbn in *;
    try discriminate.
  - inversion H. constructor.
  - destruct lc as [|c lc]; [inversion H|].
    apply Forall2_cons_iff in H. destruct H as [H1 H2].
    constructor; [exact H1|]. apply (IH lb lc); [lia | exact H2].
Qed.

(** X23. What [ResidualBackwardQuantizer.encode] returns.  A successful
    call returns one code tensor per level, the code of the last
    (coarsest) level first - the order in which [decode] pairs codes with
    levels; the code of a level is contiguous, has one group per group of
    that level's codebook and every value within that codebook's entries.
    Without any level the call raises. *)
Theorem RB_encode_codes :
  forall (stages : list ResidualStage) (x : Tensor Q),
    (forall codes,
       RB_encode stages x = Ok codes ->
       Forall2 (fun stage code => code_of (rs_codebook stage) code)
               (rev stages) codes) /\
    (stages = [] -> exists msg, RB_encode stages x = Raise msg).
Proof.
  intros stages x. split.
  - intros codes H. unfold RB_encode in H.
    destruct (rev (allLatents stages x)) as [|lastLatent rest] eqn:E;
      [discriminate H|].
    apply bind_ok in H. destruct H as ([cur1 codes1] & Hloop & H).
    injection H as <-.
    apply RB_encode_loop in Hloop. destruct Hloop as (new & -> & Hall).
    cbn [app]. rewrite <- E in Hall.
    apply (Forall2_combine_fst
             (fun stage code => code_of (rs_codebook stage) code)
             (rev stages) (rev (allLatents stages x)) new);
      [rewrite !length_rev, length_allLatents; reflexivity | exact Hall].
  - intros ->. eexists; reflexivity.
Qed.

Lemma RB_encode_codes_witness :
  RB_encode [example_stage] example_feature
  = Ok [mkTensor [1; 1; 1; 1] [0%Z]] /\
  Forall2 (fun stage code => code_of (rs_codebook stage) code)
          (rev [example_stage]) [mkTensor [1; 1; 1; 1] [0%Z]].
Proof.
  assert (H : RB_encode [example_stage] example_feature
              = Ok [mkTensor [1; 1; 1; 1] [0%Z]]) by (vm_compute; reflexivity).
  split; [exact H|].
  apply (proj1 (RB_encode_codes [example_stage] example_feature) _ H).
Defined.

(** X24. The level argument of
    [ResidualBackwardQuantizer.residual_backward] counts from one: level
    [j + 1] selects the stage that the [j]-th step of [encode] uses (the
    [j]-th from the coarsest end), level [0] does not raise but selects the
    first (finest) stage, as level [L] does, and a level above the number
    [L] of stages raises. *)
Theorem residual_backward_levels :
  forall (stages : list ResidualStage) (code : Tensor Z),
    (forall j stage,
       nth_error (rev stages) j = Some stage ->
       residual_backward stages code (Z.of_nat j + 1)
       = (quantized <- dequantize (rs_codebook stage) code ;;
          Ok (rs_backward stage quantized))) /\
    residual_backward stages code 0
    = residual_backward stages code (Z.of_nat (length stages)) /\
    (forall level, (Z.of_nat (length stages) < level)%Z ->
       exists msg, residual_backward stages code level = Raise msg).
Proof.
  intros stages code. split; [|split].
  - intros j stage Hj. unfold residual_backward.
    rewrite (pyindex_from_end stages j stage Hj). reflexivity.
  - destruct stages as [|s0 stages]; [reflexivity|].
    unfold residual_backward.
    assert (H0 : pyindex (s0 :: stages) (- 0)%Z = Ok s0) by reflexivity.
    assert (HL : pyindex (s0 :: stages)
                         (- Z.of_nat (length (s0 :: stages)))%Z = Ok s0).
    { replace (- Z.of_nat (length (s0 :: stages)))%Z
        with (- (Z.of_nat (length stages) + 1))%Z by (cbn [length]; lia).
      apply pyindex_from_end.
      rewrite nth_error_rev_in by (cbn; lia).
      cbn [length]. rewrite Nat.sub_diag. reflexivity. }
    rewrite H0, HL. reflexivity.
  - intros level Hlevel. unfold residual_backward.
    destruct (pyindex_out_of_range stages (- level)%Z) as (msg & ->);
      [left; lia|].
    eexists; reflexivity.
Qed.
